(** * Store lock and CLI session control of the frogiverse Telegram archive

    A shallow embedding of [store-lock.js] (acquire / inspect / release of the
    [LOCK] marker of a store directory) and of the session control part of
    [cli.js] (duration and flag parsing, the idle monitor, the [auth], [sync]
    and [doctor] commands and the top-level error handler), followed by the
    properties the design document states about them.

    Conventions.
    - JavaScript strings are [string]s; a character is one code unit below
      256 (Latin-1), which covers every string the modelled code builds.
    - JavaScript numbers are integers where the code counts or reads the
      clock, and IEEE 754 doubles with their rounding where [parseDuration]
      converts and multiplies arbitrary digit strings ([Num]).
    - Effects are threaded through the monad [M]: a state holding the disk,
      the closure cells of the process, its clock and its two output
      streams, with JavaScript exceptions as a second kind of completion.
      State changes made before a [throw] persist, as in JavaScript.
    - The disk is a map from paths to the contents of regular files, with
      the set of directories made.  The [fs] calls fail as the map says
      ([EEXIST] on an exclusive create of a taken path, [ENOENT] on a read
      or unlink of a missing one); permissions and media failures are
      outside the model, so the branches that rethrow other errors are
      embedded but not reached.
    - Time is logical: [Date.now()] reads the clock, [delay(ms)] advances
      it by [ms], and everything else takes no time.  The polling loop of
      the idle monitor has no bound in the code; the model gives it fuel and
      answers [Pending] when the fuel runs out before the loop returns.
    - Node's library functions that the code only passes values through
      ([path.join], [path.resolve], [os.homedir], [Date.prototype.toISOString])
      are the interface [Platform]; the classes [TelegramClient] and
      [MessageSyncService] are collaborators given by their constructors. *)

From Stdlib Require Import ZArith NArith Ascii String List Bool Lia.
From stdpp Require Import base tactics option list gmap strings pretty.

Local Open Scope Z_scope.
Local Set Warnings "-register-all".

(** ** JavaScript strings *)

Module Js.

(** White space and line terminators stripped by [String.prototype.trim],
    among the code units below 256: TAB, LF, VT, FF, CR, SP and NBSP. *)
Definition is_white (c : ascii) : bool :=
  match c with
  | "009" | "010" | "011" | "012" | "013" | " " | "160" => true
  | _ => false
  end%char.

Definition is_empty (s : string) : bool :=
  match s with EmptyString => true | String _ _ => false end.

Fixpoint trimStart (s : string) : string :=
  match s with
  | EmptyString => EmptyString
  | String c r => if is_white c then trimStart r else s
  end.

Fixpoint trimEnd (s : string) : string :=
  match s with
  | EmptyString => EmptyString
  | String c r =>
      let r' := trimEnd r in
      if is_white c && is_empty r' then EmptyString else String c r'
  end.

(** [s.trim()] *)
Definition trim (s : string) : string := trimEnd (trimStart s).

(** A string is truthy when it is not empty. *)
Definition truthy (s : string) : bool := negb (is_empty s).

Definition is_digit (c : ascii) : bool :=
  match c with
  | "0" | "1" | "2" | "3" | "4" | "5" | "6" | "7" | "8" | "9" => true
  | _ => false
  end%char.

Definition is_upper (c : ascii) : bool :=
  let n := N_of_ascii c in (65 <=? n)%N && (n <=? 90)%N.

(** [toLowerCase] on one code unit: A-Z, and the Latin-1 capitals
    U+00C0..U+00DE except the multiplication sign U+00D7. *)
Definition lower_char (c : ascii) : ascii :=
  let n := N_of_ascii c in
  if is_upper c then ascii_of_N (n + 32)
  else if (192 <=? n)%N && (n <=? 222)%N && negb (n =? 215)%N
       then ascii_of_N (n + 32)
       else c.

Fixpoint toLowerCase (s : string) : string :=
  match s with
  | EmptyString => EmptyString
  | String c r => String (lower_char c) (toLowerCase r)
  end.

(** [s.startsWith(p)] *)
Fixpoint startsWith (p s : string) : bool :=
  match p, s with
  | EmptyString, _ => true
  | String a p', String b s' => if decide (a = b) then startsWith p' s' else false
  | String _ _, EmptyString => false
  end.

(** [s.slice(n)] for a non-negative [n] *)
Fixpoint slice (n : nat) (s : string) : string :=
  match n, s with
  | O, _ => s
  | S n', String _ r => slice n' r
  | S _, EmptyString => EmptyString
  end.

(** [s.includes(p)] *)
Fixpoint includes (p s : string) : bool :=
  startsWith p s ||
  match s with
  | EmptyString => false
  | String _ r => includes p r
  end.

(** [s.split(sep)] for a one-character separator: the pieces between the
    separators, at least one piece. *)
Fixpoint split_on (sep : ascii) (s : string) : string * list string :=
  match s with
  | EmptyString => (EmptyString, [])
  | String c r =>
      let '(hd, tl) := split_on sep r in
      if decide (c = sep) then (EmptyString, hd :: tl) else (String c hd, tl)
  end.

Definition hex_digit (n : N) : ascii :=
  if (n <? 10)%N then ascii_of_N (48 + n) else ascii_of_N (87 + n).

(** The double quote character, as a string. *)
Definition dq : string := String "034" EmptyString.

(** One code unit inside a JSON string literal (QuoteJSONString). *)
Definition json_escape_char (c : ascii) : string :=
  match c with
  | "034"%char => String "\" dq
  | "\"%char => "\\"
  | "008"%char => "\b"
  | "009"%char => "\t"
  | "010"%char => "\n"
  | "012"%char => "\f"
  | "013"%char => "\r"
  | _ =>
      let n := N_of_ascii c in
      if (n <? 32)%N
      then "\u00" +:+ String (hex_digit (n / 16)) (String (hex_digit (n mod 16)) "")
      else String c ""
  end.

Fixpoint json_escape (s : string) : string :=
  match s with
  | EmptyString => EmptyString
  | String c r => json_escape_char c +:+ json_escape r
  end.

Definition json_quote (s : string) : string :=
  dq +:+ json_escape s +:+ dq.

(** The JSON values the program serialises.  Numbers are the integers it
    prints (process ids, counters). *)
Inductive json :=
| JNull
| JBool (b : bool)
| JNum (n : Z)
| JStr (s : string)
| JObj (fields : list (string * json)).

(** [JSON.stringify(v)] without indentation. *)
Fixpoint stringify (v : json) : string :=
  match v with
  | JNull => "null"
  | JBool true => "true"
  | JBool false => "false"
  | JNum n => pretty n
  | JStr s => json_quote s
  | JObj fields =>
      "{" +:+
      (fix members (fs : list (string * json)) : string :=
         match fs with
         | [] => ""
         | (k, x) :: rest =>
             json_quote k +:+ ":" +:+ stringify x +:+
             match rest with [] => "" | _ :: _ => "," +:+ members rest end
         end) fields
      +:+ "}"
  end.

End Js.


(** ** Errors, process state and the effect monad *)

(** The [code] property of the errors Node's [fs] raises. *)
Inductive errno := ENOENT | EEXIST | EACCES | EISDIR | ENOTDIR | EPERM.

Global Instance errno_eq_dec : EqDecision errno.
Proof. solve_decision. Defined.

(** A JavaScript [Error] object: [name], [message] and the optional [code]. *)
Record js_error := MkError {
  err_name : string;
  err_message : string;
  err_code : option errno;
}.

(** [new Error(message)] *)
Definition new_Error (message : string) : js_error :=
  {| err_name := "Error"; err_message := message; err_code := None |}.

Definition errno_name (c : errno) : string :=
  match c with
  | ENOENT => "ENOENT" | EEXIST => "EEXIST" | EACCES => "EACCES"
  | EISDIR => "EISDIR" | ENOTDIR => "ENOTDIR" | EPERM => "EPERM"
  end.

Definition errno_text (c : errno) : string :=
  match c with
  | ENOENT => "no such file or directory"
  | EEXIST => "file already exists"
  | EACCES => "permission denied"
  | EISDIR => "illegal operation on a directory"
  | ENOTDIR => "not a directory"
  | EPERM => "operation not permitted"
  end.

(** The error a failing [fs] call raises. *)
Definition fs_error (c : errno) (syscall path : string) : js_error :=
  {| err_name := "Error";
     err_message := errno_name c +:+ ": " +:+ errno_text c +:+ ", " +:+ syscall
                    +:+ " '" +:+ path +:+ "'";
     err_code := Some c |}.

(** The part of the disk the program touches: regular files by path, and the
    directories it has made sure exist. *)
Record filesystem := MkFs {
  files : gmap string string;
  dirs : gset string;
}.

(** What the program prints on standard output: a [console.log] line, or a
    value passed to [writeJson] (printed by [JSON.stringify] with two-space
    indentation). *)
Inductive output :=
| OutLine (text : string)
| OutJson (value : Js.json).

(** The state of one process: the disk it shares with other processes, the
    mutable cells its closures captured ([let released = false]), the clock
    in milliseconds, and what it has written so far. *)
Record state := MkState {
  disk : filesystem;
  cells : list bool;
  clock : Z;
  stdout : list output;
  stderr : string;
}.

Definition set_disk (f : filesystem → filesystem) (s : state) : state :=
  MkState (f (disk s)) (cells s) (clock s) (stdout s) (stderr s).
Definition set_files (f : gmap string string → gmap string string)
    (d : filesystem) : filesystem :=
  MkFs (f (files d)) (dirs d).
Definition set_dirs (f : gset string → gset string) (d : filesystem) : filesystem :=
  MkFs (files d) (f (dirs d)).
Definition set_cells (f : list bool → list bool) (s : state) : state :=
  MkState (disk s) (f (cells s)) (clock s) (stdout s) (stderr s).
Definition set_clock (f : Z → Z) (s : state) : state :=
  MkState (disk s) (cells s) (f (clock s)) (stdout s) (stderr s).
Definition set_stdout (f : list output → list output) (s : state) : state :=
  MkState (disk s) (cells s) (clock s) (f (stdout s)) (stderr s).
Definition set_stderr (f : string → string) (s : state) : state :=
  MkState (disk s) (cells s) (clock s) (stdout s) (f (stderr s)).

(** How a computation ends: with a value, with a thrown error, or not yet
    (a polling loop that is still waiting when the fuel of the model runs out). *)
Inductive completion (A : Type) :=
| Normal (a : A)
| Throw (e : js_error)
| Pending.
Global Arguments Normal {A} a.
Global Arguments Throw {A} e.
Global Arguments Pending {A}.

Definition M (A : Type) : Type := state → completion A * state.

Definition ret {A} (a : A) : M A := λ s, (Normal a, s).
Definition throw {A} (e : js_error) : M A := λ s, (Throw e, s).
Definition bind {A B} (m : M A) (k : A → M B) : M B :=
  λ s, match m s with
       | (Normal a, s') => k a s'
       | (Throw e, s') => (Throw e, s')
       | (Pending, s') => (Pending, s')
       end.

(** [try { body } catch (error) { handler }] *)
Definition try_catch {A} (body : M A) (handler : js_error → M A) : M A :=
  λ s, match body s with
       | (Throw e, s') => handler e s'
       | r => r
       end.

(** [try { body } finally { cleanup }]: the cleanup runs after a value and
    after an error, and an error of the cleanup replaces the outcome. *)
Definition try_finally {A} (body : M A) (cleanup : M unit) : M A :=
  λ s, match body s with
       | (Pending, s') => (Pending, s')
       | (r, s') =>
           match cleanup s' with
           | (Normal _, s'') => (r, s'')
           | (Throw e, s'') => (Throw e, s'')
           | (Pending, s'') => (Pending, s'')
           end
       end.

Definition get {A} (proj : state → A) : M A := λ s, (Normal (proj s), s).
Definition modify (f : state → state) : M unit := λ s, (Normal tt, f s).

Declare Scope js_scope.
Delimit Scope js_scope with js.
Notation "'let!' x ':=' m 'in' k" := (bind m (λ x, k))
  (at level 10, x pattern, m at level 100, k at level 200) : js_scope.
Notation "m '>>' k" := (bind m (λ _, k))
  (at level 100, k at level 200, right associativity) : js_scope.
Local Open Scope js_scope.

(** ** Node's [fs] calls used by the program *)

Module Fs.

(** A file descriptor, identified with the path it was opened on. *)
Record fd := Fd { fd_path : string }.

(** [fs.mkdirSync(dir, { recursive: true })] *)
Definition mkdirSync (dir : string) : M unit :=
  modify (set_disk (set_dirs (λ ds, {[dir]} ∪ ds))).

(** [fs.openSync(path, 'wx')]: create exclusively, [EEXIST] when the path
    is taken. *)
Definition openSync_wx (path : string) : M fd :=
  let! fsys := get (λ s, files (disk s)) in
  match fsys !! path with
  | Some _ => throw (fs_error EEXIST "open" path)
  | None =>
      modify (set_disk (set_files (insert path EmptyString))) >>
      ret (Fd path)
  end.

(** Bytes written at the start of a file replace what was there. *)
Definition overwrite (data old : string) : string :=
  data +:+ Js.slice (String.length data) old.

(** [fs.writeFileSync(fd, data)] on a descriptor at offset 0. *)
Definition writeFileSync (f : fd) (data : string) : M unit :=
  modify (set_disk (set_files (λ m,
    match m !! fd_path f with
    | Some old => <[fd_path f := overwrite data old]> m
    | None => m
    end))).

(** [fs.closeSync(fd)] *)
Definition closeSync (f : fd) : M unit := ret tt.

(** [fs.readFileSync(path, 'utf8')] *)
Definition readFileSync (path : string) : M string :=
  let! fsys := get (λ s, files (disk s)) in
  match fsys !! path with
  | Some content => ret content
  | None => throw (fs_error ENOENT "open" path)
  end.

(** [fs.unlinkSync(path)] *)
Definition unlinkSync (path : string) : M unit :=
  let! fsys := get (λ s, files (disk s)) in
  match fsys !! path with
  | Some _ => modify (set_disk (set_files (delete path)))
  | None => throw (fs_error ENOENT "unlink" path)
  end.

End Fs.

(** ** The host platform *)

(** Library functions of Node the program passes values through. *)
Class Platform := {
  path_join : string → string → string;
  path_resolve : string → string;
  os_homedir : string;
  toISOString : Z → string;
}.

(** What the operating system gives the process when it starts. *)
Record process := MkProcess {
  pid : Z;
  argv : list string;
  env_FROGIVERSE_STORE : option string;
}.

(** ** store-lock.js *)

Module StoreLock.
Section WithPlatform.
Context `{Platform}.

(** The text [lockPayload] builds when the clock shows [now]. *)
Definition payload_at (proc : process) (now : Z) : string :=
  Js.stringify (Js.JObj [("pid", Js.JNum (pid proc));
                         ("startedAt", Js.JStr (toISOString now))]).

(** [lockPayload()] *)
Definition lockPayload (proc : process) : M string :=
  let! now := get clock in
  ret (payload_at proc now).

(** The object [readStoreLock] returns. *)
Record lock_status := MkStatus {
  exists_ : bool;
  path : string;
  info : option string;
}.

(** [readStoreLock(storeDir)] *)
Definition readStoreLock (storeDir : string) : M lock_status :=
  let lockPath := path_join storeDir "LOCK" in
  try_catch
    (let! raw := Fs.readFileSync lockPath in
     ret {| exists_ := true; path := lockPath; info := Some (Js.trim raw) |})
    (λ error,
       if decide (err_code error = Some ENOENT)
       then ret {| exists_ := false; path := lockPath; info := None |}
       else throw error).

(** The closure [acquireStoreLock] returns: its code is [call_release], its
    environment the captured [lockPath] and the cell holding [released]. *)
Record release_fn := MkRelease {
  rel_lockPath : string;
  rel_released : nat;
}.

(** [let released = false]: a fresh cell. *)
Definition new_cell (v : bool) : M nat :=
  let! n := get (λ s, length (cells s)) in
  modify (set_cells (λ cs, cs ++ [v])) >>
  ret n.

(** [info.info ? ` (${info.info})` : ''] *)
Definition lock_details (st : lock_status) : string :=
  match info st with
  | Some text => if Js.truthy text then " (" +:+ text +:+ ")" else ""
  | None => ""
  end.

(** [acquireStoreLock(storeDir)] *)
Definition acquireStoreLock (proc : process) (storeDir : string) : M release_fn :=
  let lockPath := path_join storeDir "LOCK" in
  Fs.mkdirSync storeDir >>
  try_catch
    (let! fd := Fs.openSync_wx lockPath in
     let! payload := lockPayload proc in
     Fs.writeFileSync fd payload >>
     Fs.closeSync fd)
    (λ error,
       if decide (err_code error = Some EEXIST)
       then
         let! info := readStoreLock storeDir in
         let details := lock_details info in
         throw (new_Error ("Store is locked by another process" +:+ details))
       else throw error) >>
  let! released := new_cell false in
  ret {| rel_lockPath := lockPath; rel_released := released |}.

(** A call of the returned closure. *)
Definition call_release (r : release_fn) : M unit :=
  let! released := get (λ s, default false (cells s !! rel_released r)) in
  if released then ret tt
  else
    modify (set_cells (λ cs, <[rel_released r := true]> cs)) >>
    try_catch
      (Fs.unlinkSync (rel_lockPath r))
      (λ error,
         if decide (err_code error ≠ Some ENOENT)
         then throw error
         else ret tt).

End WithPlatform.
End StoreLock.

(** ** A POSIX host

    A concrete [Platform] for running the model: paths are joined with a
    slash, relative paths resolve against [/work], and [toISOString] prints
    the UTC calendar date of a millisecond timestamp (years 0000 to 9999). *)

Module Posix.

Fixpoint pad_left (width : nat) (s : string) : string :=
  match width with
  | O => s
  | S w => if decide (String.length s ≤ w)%nat then "0" +:+ pad_left w s
           else s
  end.

Definition digits (width : nat) (n : Z) : string := pad_left width (pretty n).

(** Civil date of a day number counted from 1970-01-01. *)
Definition civil_from_days (days : Z) : Z * Z * Z :=
  let z := days + 719468 in
  let era := z / 146097 in
  let doe := z - era * 146097 in
  let yoe := (doe - doe / 1460 + doe / 36524 - doe / 146096) / 365 in
  let doy := doe - (365 * yoe + yoe / 4 - yoe / 100) in
  let mp := (5 * doy + 2) / 153 in
  let d := doy - (153 * mp + 2) / 5 + 1 in
  let m := if mp <? 10 then mp + 3 else mp - 9 in
  let y := yoe + era * 400 + (if m <=? 2 then 1 else 0) in
  (y, m, d).

Definition iso (t : Z) : string :=
  let '(y, m, d) := civil_from_days (t / 86400000) in
  let r := t mod 86400000 in
  digits 4 y +:+ "-" +:+ digits 2 m +:+ "-" +:+ digits 2 d +:+ "T" +:+
  digits 2 (r / 3600000) +:+ ":" +:+ digits 2 (r / 60000 mod 60) +:+ ":" +:+
  digits 2 (r / 1000 mod 60) +:+ "." +:+ digits 3 (r mod 1000) +:+ "Z".

Definition join (a b : string) : string := a +:+ "/" +:+ b.

Definition resolve (p : string) : string :=
  if Js.startsWith "/" p then p else join "/work" p.

#[export] Instance platform : Platform := {|
  path_join := join;
  path_resolve := resolve;
  os_homedir := "/home/user";
  toISOString := iso;
|}.

End Posix.

(** ** JavaScript numbers and values *)

Module Num.

(** The numbers [parseDuration] can produce: non-negative integers that
    are IEEE 754 doubles, and [Infinity]. *)
Inductive number :=
| Fin (z : Z)
| Infinity.

Global Instance number_eq_dec : EqDecision number.
Proof. solve_decision. Defined.

(** The double nearest to a non-negative integer, ties to the even
    mantissa; integers below 2^53 are doubles themselves. *)
Definition round (n : Z) : number :=
  if n <? 2 ^ 53 then Fin n
  else
    let e := Z.log2 n - 52 in
    let q := n / 2 ^ e in
    let r := n mod 2 ^ e in
    let half := 2 ^ (e - 1) in
    let q' := if (half <? r) || ((r =? half) && Z.odd q) then q + 1 else q in
    let v := q' * 2 ^ e in
    if 2 ^ 1024 <=? v then Infinity else Fin v.

(** [a * k] for a positive integer literal [k]. *)
Definition mul (a : number) (k : Z) : number :=
  match a with
  | Fin z => round (z * k)
  | Infinity => Infinity
  end.

Definition digit_value (c : ascii) : Z := Z.of_N (N_of_ascii c) - 48.

Fixpoint decimal_acc (acc : Z) (s : string) : Z :=
  match s with
  | EmptyString => acc
  | String c r => decimal_acc (10 * acc + digit_value c) r
  end.

(** The integer a string of decimal digits denotes. *)
Definition decimal (s : string) : Z := decimal_acc 0 s.

(** [Number(s)] for a string of decimal digits. *)
Definition of_digits (s : string) : number := round (decimal s).

(** [z >= limit] where [limit] is a number or [null] (which counts as 0). *)
Definition ge_limit (z : Z) (limit : option number) : bool :=
  match limit with
  | None => 0 <=? z
  | Some (Fin n) => n <=? z
  | Some Infinity => false
  end.

End Num.

(** The JavaScript values a flag or an argument of [parseDuration] can be. *)
Inductive value :=
| VUndefined
| VNull
| VBool (b : bool)
| VNum (n : Num.number)
| VStr (s : string).

(** A function that may throw but has no other effect. *)
Definition lift {A} (r : js_error + A) : M A :=
  match r with
  | inl e => throw e
  | inr a => ret a
  end.

(** ** cli.js: parsing *)

Module Cli.

(** [raw.match(/^(\d+)(ms|s|m|h)?$/i)]: the longest run of digits (group 1,
    at least one), then nothing, or one of the four suffixes compared
    without case (group 2), then the end of the input.  Digits are no
    suffix letters, so giving digits back never helps the match. *)
Fixpoint span_digits (s : string) : string * string :=
  match s with
  | String c r =>
      if Js.is_digit c
      then let '(ds, rest) := span_digits r in (String c ds, rest)
      else (EmptyString, s)
  | EmptyString => (EmptyString, EmptyString)
  end.

Definition suffix_alternatives : list string := ["ms"; "s"; "m"; "h"].

Definition match_duration (raw : string) : option (string * option string) :=
  let '(ds, rest) := span_digits raw in
  if Js.is_empty ds then None
  else if Js.is_empty rest then Some (ds, None)
  else if bool_decide (Js.toLowerCase rest ∈ suffix_alternatives)
       then Some (ds, Some rest)
       else None.

(** [parseDuration(value)] *)
Definition parseDuration (v : value) : js_error + option Num.number :=
  match v with
  | VStr text =>
      if negb (Js.truthy (Js.trim text)) then inr None
      else
        let raw := Js.trim text in
        match match_duration raw with
        | None => inl (new_Error ("Invalid duration: " +:+ text))
        | Some (digits, suffix) =>
            let amount := Num.of_digits digits in
            let unit :=
              Js.toLowerCase
                (match suffix with
                 | Some u => if Js.truthy u then u else "s"
                 | None => "s"
                 end) in
            if decide (unit = "ms") then inr (Some amount)
            else if decide (unit = "s") then inr (Some (Num.mul amount 1000))
            else if decide (unit = "m")
                 then inr (Some (Num.mul (Num.mul amount 60) 1000))
            else if decide (unit = "h")
                 then inr (Some (Num.mul (Num.mul (Num.mul amount 60) 60) 1000))
            else inr (Some (Num.mul amount 1000))
        end
  | _ => inr None
  end.

(** The properties every object literal inherits from [Object.prototype]:
    [spec[key]] finds them too. *)
Definition object_prototype_keys : list string :=
  ["constructor"; "hasOwnProperty"; "isPrototypeOf"; "propertyIsEnumerable";
   "toLocaleString"; "toString"; "valueOf"; "__proto__";
   "__defineGetter__"; "__defineSetter__"; "__lookupGetter__";
   "__lookupSetter__"].

(** What [spec[key]] evaluates to when it is truthy: a rule of the spec
    with its [type], or an inherited property, whose [type] is undefined. *)
Inductive rule :=
| Rule (type : string)
| Inherited.

Fixpoint own_rule (spec : list (string * string)) (key : string) : option string :=
  match spec with
  | [] => None
  | (k, type) :: more => if decide (k = key) then Some type else own_rule more key
  end.

Definition spec_lookup (spec : list (string * string)) (key : string) : option rule :=
  match own_rule spec key with
  | Some type => Some (Rule type)
  | None => if bool_decide (key ∈ object_prototype_keys) then Some Inherited else None
  end.

Definition is_boolean (r : rule) : bool :=
  match r with
  | Rule type => bool_decide (type = "boolean")
  | Inherited => false
  end.

(** [flags[key] = v] on a plain object; assigning a primitive to
    [__proto__] changes nothing. *)
Definition assign (key : string) (v : value) (flags : gmap string value)
    : gmap string value :=
  if decide (key = "__proto__") then flags else <[key := v]> flags.

(** [const [rawKey, rawValue] = arg.split('=')] *)
Definition split_arg (arg : string) : string * option string :=
  let '(rawKey, more) := Js.split_on "=" arg in (rawKey, head more).

(** The loop of [parseFlags] from position [i] on; [args] is what is left
    from [args[i]]. *)
Fixpoint parseFlags_from (spec : list (string * string)) (args : list string)
    (flags : gmap string value) (rest : list string)
    : js_error + (gmap string value * list string) :=
  match args with
  | [] => inr (flags, rest)
  | arg :: later =>
      if negb (Js.startsWith "--" arg)
      then parseFlags_from spec later flags (rest ++ [arg])
      else
        let '(rawKey, rawValue) := split_arg arg in
        let key := Js.slice 2 rawKey in
        match spec_lookup spec key with
        | None => parseFlags_from spec later flags (rest ++ [arg])
        | Some rule =>
            if is_boolean rule
            then parseFlags_from spec later (assign key (VBool true) flags) rest
            else
              match rawValue, later with
              | Some v, [] => inr (assign key (VStr v) flags, rest)
              | Some v, next :: after =>
                  if Js.truthy v
                  then parseFlags_from spec later (assign key (VStr v) flags) rest
                  else parseFlags_from spec after (assign key (VStr v) flags) rest
              | None, [] => inl (new_Error ("--" +:+ key +:+ " requires a value"))
              | None, next :: after =>
                  parseFlags_from spec after (assign key (VStr next) flags) rest
              end
        end
  end.

(** [parseFlags(args, spec)] *)
Definition parseFlags (args : list string) (spec : list (string * string))
    : js_error + (gmap string value * list string) :=
  parseFlags_from spec args ∅ [].

(** The object [parseGlobalFlags] fills in. *)
Record global_flags := MkGlobal {
  store : option string;
  json : bool;
  help : bool;
}.

(** The loop of [parseGlobalFlags] from position [i] on. *)
Fixpoint parseGlobalFlags_from (args : list string) (flags : global_flags)
    : js_error + (global_flags * list string) :=
  match args with
  | [] => inr (flags, [])
  | arg :: later =>
      if negb (Js.startsWith "-" arg) then inr (flags, args)
      else if decide (arg = "--json")
      then parseGlobalFlags_from later (MkGlobal (store flags) true (help flags))
      else if bool_decide (arg = "--help" ∨ arg = "-h")
      then parseGlobalFlags_from later (MkGlobal (store flags) (json flags) true)
      else if decide (arg = "--store")
      then
        match later with
        | next :: after =>
            if Js.truthy next
            then parseGlobalFlags_from after
                   (MkGlobal (Some next) (json flags) (help flags))
            else inl (new_Error "--store requires a value")
        | [] => inl (new_Error "--store requires a value")
        end
      else if Js.startsWith "--store=" arg
      then parseGlobalFlags_from later
             (MkGlobal (Some (Js.slice 8 arg)) (json flags) (help flags))
      else inr (flags, args)
  end.

(** [parseGlobalFlags(args)] *)
Definition parseGlobalFlags (args : list string)
    : js_error + (global_flags * list string) :=
  parseGlobalFlags_from args (MkGlobal None false false).

(** ** cli.js: collaborators and output *)

(** The snapshot [getQueueStats()] returns. *)
Record queue_stats := MkStats {
  pending : N;
  in_progress : N;
  idle : N;
  error : N;
  processing : bool;
}.

(** What [getSearchStatus()] returns; a missing version is [None]. *)
Record search_status := MkSearch {
  enabled : bool;
  version : option Z;
}.

(** The methods of [TelegramClient] the CLI calls ([logout] is
    [client.client.logout()]).  The class itself lives in
    [telegram-client.js]; here it is a collaborator. *)
Record telegram_client := MkClient {
  isAuthorized : M bool;
  login : M bool;
  logout : M unit;
  startUpdates : M unit;
  destroy : M unit;
}.

(** The methods of [MessageSyncService] the CLI calls; the class lives in
    [message-sync-service.js]. *)
Record sync_service := MkService {
  getSearchStatus : M search_status;
  getQueueStats : M queue_stats;
  refreshChannelsFromDialogs : M Z;
  resumePendingJobs : M unit;
  startRealtimeSync : M unit;
  shutdown : M unit;
}.

(** The options [createServices] passes to [MessageSyncService]. *)
Record sync_options := MkOptions {
  dbPath : string;
  batchSize : Z;
  interJobDelayMs : Z;
  interBatchDelayMs : Z;
}.

(** How a command leaves the process: done, or alive with the handler
    [withShutdown] registered for SIGINT and SIGTERM. *)
Inductive session :=
| Finished
| Following (on_signal : M unit).

(** How the process ends: an exit code, or alive until a signal. *)
Inductive ending :=
| Exit (code : Z)
| Alive (on_signal : M unit).

Definition console_log (text : string) : M unit :=
  modify (set_stdout (λ out, out ++ [OutLine text])).

(** The line feed, as a string. *)
Definition newline : string := String "010" EmptyString.

(** [printUsage()] *)
Definition usage_text : string :=
  "frogiverse CLI" +:+ newline +:+ newline +:+
  "Usage:" +:+ newline +:+
  "  node cli.js [--store DIR] [--json] <command> [options]" +:+ newline +:+ newline +:+
  "Commands:" +:+ newline +:+
  "  auth [--follow]" +:+ newline +:+
  "  auth status" +:+ newline +:+
  "  auth logout" +:+ newline +:+
  "  sync [--once|--follow] [--idle-exit 30s]" +:+ newline +:+
  "  doctor [--connect]" +:+ newline.

Definition printUsage : M unit := console_log usage_text.

(** [writeJson(payload)] *)
Definition writeJson (payload : Js.json) : M unit :=
  modify (set_stdout (λ out, out ++ [OutJson payload])).

(** [writeError(error, asJson)] for a thrown [Error] object. *)
Definition writeError (error : js_error) (asJson : bool) : M unit :=
  let message := err_message error in
  if asJson
  then modify (set_stderr (λ e, e +:+
         Js.stringify (Js.JObj [("ok", Js.JBool false); ("error", Js.JStr message)])
         +:+ newline))
  else modify (set_stderr (λ e, e +:+ message +:+ newline)).

(** [Date.now()] *)
Definition Date_now : M Z := get clock.

(** [await delay(ms)]: the timer fires when the time has passed. *)
Definition delay (ms : Z) : M unit := modify (set_clock (λ t, t + ms)).

(** [!idleStart] *)
Definition not_set (idleStart : option Z) : bool :=
  match idleStart with
  | None => true
  | Some t => t =? 0
  end.

Definition pending_ {A} : M A := λ s, (Pending, s).

(** [waitForIdle(service, idleExitMs)], from the state of a loop iteration
    ([idleStart]) on, for at most [fuel] polls. *)
Fixpoint waitForIdle_from (fuel : nat) (service : sync_service)
    (idleExitMs : option Num.number) (idleStart : option Z) : M unit :=
  match fuel with
  | O => pending_
  | S fuel' =>
      let! stats := getQueueStats service in
      let active := (pending stats + in_progress stats)%N in
      let! next :=
        (if negb (processing stats) && (active =? 0)%N
         then
           let! started :=
             (if not_set idleStart then Date_now else ret (default 0 idleStart)) in
           let! now := Date_now in
           if Num.ge_limit (now - started) idleExitMs
           then ret None
           else ret (Some (Some started))
         else ret (Some None)) in
      match next with
      | None => ret tt
      | Some idleStart' =>
          delay 500 >>
          waitForIdle_from fuel' service idleExitMs idleStart'
      end
  end.

Definition waitForIdle (fuel : nat) (service : sync_service)
    (idleExitMs : option Num.number) : M unit :=
  waitForIdle_from fuel service idleExitMs None.

(** A flag read in a condition: [flags.key] is truthy. *)
Definition flag_set (flags : gmap string value) (key : string) : bool :=
  match flags !! key with
  | Some (VBool b) => b
  | Some (VStr text) => Js.truthy text
  | _ => false
  end.

(** [flags[key] || fallback] *)
Definition flag_or (flags : gmap string value) (key fallback : string) : value :=
  if flag_set flags key then default VUndefined (flags !! key) else VStr fallback.

Definition sync_spec : list (string * string) :=
  [("once", "boolean"); ("follow", "boolean"); ("idle-exit", "string")].

(** [const idleExitMs = parseDuration(flags['idle-exit'] || '30s')] *)
Definition sync_idleExitMs (flags : gmap string value) : js_error + option Num.number :=
  parseDuration (flag_or flags "idle-exit" "30s").

(** [const follow = flags.follow || !flags.once] *)
Definition sync_follow (flags : gmap string value) : bool :=
  flag_set flags "follow" || negb (flag_set flags "once").

Definition show_bool (b : bool) : string := if b then "true" else "false".

Definition stats_json (q : queue_stats) : Js.json :=
  Js.JObj [("pending", Js.JNum (Z.of_N (pending q)));
           ("in_progress", Js.JNum (Z.of_N (in_progress q)));
           ("idle", Js.JNum (Z.of_N (idle q)));
           ("error", Js.JNum (Z.of_N (error q)));
           ("processing", Js.JBool (processing q))].

Definition option_json {A} (f : A → Js.json) (o : option A) : Js.json :=
  match o with
  | Some a => f a
  | None => Js.JNull
  end.

Section Commands.
Context `{Platform}.
(** The constructors of the two collaborators. *)
Variable new_TelegramClient : string → M telegram_client.
Variable new_MessageSyncService : telegram_client → sync_options → M sync_service.
Variable proc : process.

(** [DEFAULT_STORE_DIR] *)
Definition DEFAULT_STORE_DIR : string :=
  match env_FROGIVERSE_STORE proc with
  | Some dir => if Js.truthy dir then path_resolve dir
                else path_join os_homedir ".frogiverse"
  | None => path_join os_homedir ".frogiverse"
  end.

(** [resolveStoreDir(storeOverride)] *)
Definition resolveStoreDir (storeOverride : option string) : string :=
  match storeOverride with
  | Some dir => if Js.truthy dir then path_resolve dir else DEFAULT_STORE_DIR
  | None => DEFAULT_STORE_DIR
  end.

(** [createServices(storeDir)] *)
Definition createServices (storeDir : string)
    : M (telegram_client * sync_service) :=
  let sessionPath := path_join storeDir "session.json" in
  let dbPath := path_join storeDir "messages.db" in
  let! telegramClient := new_TelegramClient sessionPath in
  let! messageSyncService :=
    new_MessageSyncService telegramClient
      {| dbPath := dbPath; batchSize := 100;
         interJobDelayMs := 3000; interBatchDelayMs := 1200 |} in
  ret (telegramClient, messageSyncService).

(** The function [withShutdown] registers for SIGINT and SIGTERM; it ends
    with [process.exit(0)]. *)
Definition withShutdown (handler : M unit) : session := Following handler.

(** [runSync(globalFlags, args)]; [fuel] bounds the polls of the idle
    monitor. *)
Definition runSync (fuel : nat) (globalFlags : global_flags) (args : list string)
    : M session :=
  let! (flags, _) := lift (parseFlags args sync_spec) in
  let storeDir := resolveStoreDir (store globalFlags) in
  let! release := StoreLock.acquireStoreLock proc storeDir in
  let! (telegramClient, messageSyncService) := createServices storeDir in
  let! idleExitMs := lift (sync_idleExitMs flags) in
  let follow := sync_follow flags in
  try_finally
    (let! authorized := try_catch (isAuthorized telegramClient) (λ _, ret false) in
     if negb authorized
     then throw (new_Error "Not authenticated. Run `node cli.js auth` first.")
     else
       refreshChannelsFromDialogs messageSyncService >>
       resumePendingJobs messageSyncService >>
       if follow
       then
         startUpdates telegramClient >>
         startRealtimeSync messageSyncService >>
         (if negb (json globalFlags)
          then console_log "Sync running. Press Ctrl+C to stop."
          else ret tt) >>
         ret (withShutdown
                (shutdown messageSyncService >>
                 destroy telegramClient >>
                 StoreLock.call_release release))
       else
         waitForIdle fuel messageSyncService idleExitMs >>
         let! stats := getQueueStats messageSyncService in
         (if json globalFlags
          then writeJson (Js.JObj [("ok", Js.JBool true); ("mode", Js.JStr "once");
                                   ("queue", stats_json stats)])
          else console_log "Sync complete.") >>
         ret Finished)
    (if negb follow
     then
       shutdown messageSyncService >>
       destroy telegramClient >>
       StoreLock.call_release release
     else ret tt).

(** [runDoctor(globalFlags, args)] *)
Definition runDoctor (globalFlags : global_flags) (args : list string) : M session :=
  let! (flags, _) := lift (parseFlags args [("connect", "boolean")]) in
  let storeDir := resolveStoreDir (store globalFlags) in
  let! lock := StoreLock.readStoreLock storeDir in
  let! (telegramClient, messageSyncService) := createServices storeDir in
  try_finally
    (let! (authenticated, connected) :=
       try_catch
         (let! authenticated := isAuthorized telegramClient in
          if flag_set flags "connect" && authenticated
          then startUpdates telegramClient >> ret (authenticated, true)
          else ret (authenticated, false))
         (λ _, ret (false, false)) in
     let! search := getSearchStatus messageSyncService in
     let! queue := getQueueStats messageSyncService in
     if json globalFlags
     then
       writeJson (Js.JObj
         [("storeDir", Js.JStr storeDir);
          ("lockHeld", Js.JBool (StoreLock.exists_ lock));
          ("lockInfo", option_json Js.JStr (StoreLock.info lock));
          ("authenticated", Js.JBool authenticated);
          ("connected", Js.JBool connected);
          ("ftsEnabled", Js.JBool (enabled search));
          ("ftsVersion", option_json Js.JNum (version search));
          ("queue", stats_json queue)]) >>
       ret Finished
     else
       console_log ("STORE: " +:+ storeDir) >>
       console_log ("LOCKED: " +:+ show_bool (StoreLock.exists_ lock) +:+
                    StoreLock.lock_details lock) >>
       console_log ("AUTHENTICATED: " +:+ show_bool authenticated) >>
       console_log ("CONNECTED: " +:+ show_bool connected) >>
       console_log ("FTS: " +:+ show_bool (enabled search) +:+
                    match version search with
                    | Some v => if v =? 0 then "" else " (v" +:+ pretty v +:+ ")"
                    | None => ""
                    end) >>
       console_log ("QUEUE: pending=" +:+ pretty (pending queue) +:+
                    " in_progress=" +:+ pretty (in_progress queue) +:+
                    " idle=" +:+ pretty (idle queue) +:+
                    " error=" +:+ pretty (error queue)) >>
       ret Finished)
    (shutdown messageSyncService >>
     destroy telegramClient).

(** [runAuth(globalFlags, args)] *)
Definition runAuth (globalFlags : global_flags) (args : list string) : M session :=
  let! (flags, rest) := lift (parseFlags args [("follow", "boolean")]) in
  let subcommand := head rest in
  let storeDir := resolveStoreDir (store globalFlags) in
  if decide (subcommand = Some "status")
  then
    let! (telegramClient, messageSyncService) := createServices storeDir in
    try_finally
      (let! authenticated :=
         try_catch (isAuthorized telegramClient) (λ _, ret false) in
       let! search := getSearchStatus messageSyncService in
       (if json globalFlags
        then writeJson (Js.JObj [("authenticated", Js.JBool authenticated);
                                 ("ftsEnabled", Js.JBool (enabled search))])
        else console_log (if authenticated then "Authenticated."
                          else "Not authenticated.")) >>
       ret Finished)
      (shutdown messageSyncService >>
       destroy telegramClient)
  else if decide (subcommand = Some "logout")
  then
    let! release := StoreLock.acquireStoreLock proc storeDir in
    let! (telegramClient, messageSyncService) := createServices storeDir in
    try_finally
      (login telegramClient >>
       logout telegramClient >>
       (if json globalFlags
        then writeJson (Js.JObj [("loggedOut", Js.JBool true)])
        else console_log "Logged out.") >>
       ret Finished)
      (shutdown messageSyncService >>
       destroy telegramClient >>
       StoreLock.call_release release)
  else
    let! release := StoreLock.acquireStoreLock proc storeDir in
    let! (telegramClient, messageSyncService) := createServices storeDir in
    let follow := flag_set flags "follow" in
    try_finally
      (let! loginSuccess := login telegramClient in
       if negb loginSuccess
       then throw (new_Error "Failed to login to Telegram.")
       else
         let! dialogCount := refreshChannelsFromDialogs messageSyncService in
         if follow
         then
           startUpdates telegramClient >>
           startRealtimeSync messageSyncService >>
           resumePendingJobs messageSyncService >>
           ret (withShutdown
                  (shutdown messageSyncService >>
                   destroy telegramClient >>
                   StoreLock.call_release release))
         else
           (if json globalFlags
            then writeJson (Js.JObj [("authenticated", Js.JBool true);
                                     ("dialogs", Js.JNum dialogCount)])
            else console_log ("Authenticated. Seeded " +:+ pretty dialogCount
                              +:+ " dialogs.")) >>
           ret Finished)
      (if negb follow
       then
         shutdown messageSyncService >>
         destroy telegramClient >>
         StoreLock.call_release release
       else ret tt).

Definition ending_of (s : session) : ending :=
  match s with
  | Finished => Exit 0
  | Following on_signal => Alive on_signal
  end.

(** [main()]: the commands run inside [try]; the [catch] prints the
    error and calls [process.exit(1)]. *)
Definition main (fuel : nat) : M ending :=
  try_catch
    (let! (globalFlags, rest) := lift (parseGlobalFlags (drop 2 (argv proc))) in
     match rest with
     | [] => printUsage >> ret (Exit 0)
     | command :: args =>
         if help globalFlags then printUsage >> ret (Exit 0)
         else if decide (command = "auth")
         then let! s := runAuth globalFlags args in ret (ending_of s)
         else if decide (command = "sync")
         then let! s := runSync fuel globalFlags args in ret (ending_of s)
         else if decide (command = "doctor")
         then let! s := runDoctor globalFlags args in ret (ending_of s)
         else printUsage >> ret (Exit 0)
     end)
    (λ error,
       writeError error (bool_decide ("--json" ∈ argv proc)) >>
       ret (Exit 1)).

End Commands.
End Cli.

(** ** Stand-ins for the collaborators

    A client whose session is authorised or not, and a sync service whose
    queue holds one running job until the clock reaches [quiet_at] and
    nothing afterwards.  Neither touches the disk. *)

Module Double.
Import Cli.

Definition client (authorized : bool) : telegram_client :=
  {| isAuthorized := ret authorized;
     login := ret authorized;
     logout := ret tt;
     startUpdates := ret tt;
     destroy := ret tt |}.

Definition stats_at (quiet_at now : Z) : queue_stats :=
  if now <? quiet_at
  then {| pending := 0; in_progress := 1; idle := 0; error := 0; processing := true |}
  else {| pending := 0; in_progress := 0; idle := 1; error := 0; processing := false |}.

Definition service (quiet_at : Z) : sync_service :=
  {| getSearchStatus := ret {| enabled := true; version := Some 5 |};
     getQueueStats := (let! now := get clock in ret (stats_at quiet_at now));
     refreshChannelsFromDialogs := ret 7;
     resumePendingJobs := ret tt;
     startRealtimeSync := ret tt;
     shutdown := ret tt |}.

Definition new_client (authorized : bool) (sessionPath : string) : M telegram_client :=
  ret (client authorized).

Definition new_service (quiet_at : Z) (c : telegram_client) (o : sync_options)
    : M sync_service :=
  ret (service quiet_at).

End Double.

(** * Properties *)

(** ** Vocabulary *)

(** Every character of a string passes the test. *)
Fixpoint every (p : ascii → bool) (s : string) : bool :=
  match s with
  | EmptyString => true
  | String c r => p c && every p r
  end.

(** The characters of a printed integer. *)
Definition is_number_char (c : ascii) : bool :=
  Js.is_digit c || bool_decide (c = "-"%char).

Definition hex_value (c : ascii) : N :=
  let n := N_of_ascii c in
  if (n <? 58)%N then (n - 48)%N else (n - 87)%N.

(** Reading back the inside of a JSON string literal, up to the quote that
    closes it. *)
Fixpoint json_unescape (s : string) : string :=
  match s with
  | EmptyString => EmptyString
  | String "034" _ => EmptyString
  | String "\" (String c r) =>
      match c with
      | "034"%char => String c (json_unescape r)
      | "\"%char => String c (json_unescape r)
      | "b"%char => String "008" (json_unescape r)
      | "t"%char => String "009" (json_unescape r)
      | "n"%char => String "010" (json_unescape r)
      | "f"%char => String "012" (json_unescape r)
      | "r"%char => String "013" (json_unescape r)
      | "u"%char =>
          match r with
          | String _ (String _ (String h (String l r'))) =>
              String (ascii_of_N (16 * hex_value h + hex_value l)) (json_unescape r')
          | _ => EmptyString
          end
      | _ => EmptyString
      end
  | String c r => String c (json_unescape r)
  end.

Section Vocabulary.
Context `{Platform}.

(** The marker of a store directory. *)
Definition lockPath (storeDir : string) : string := path_join storeDir "LOCK".

(** The marker of [storeDir] as the state [s] has it. *)
Definition marker (storeDir : string) (s : state) : option string :=
  files (disk s) !! lockPath storeDir.

(** The error [acquireStoreLock] raises for a held lock (the design
    document's LockHeldError): a plain [Error] whose message starts with
    the fixed sentence. *)
Definition lock_held_message : string := "Store is locked by another process".

Definition is_lock_held_error (e : js_error) : bool :=
  Js.startsWith lock_held_message (err_message e) &&
  bool_decide (err_code e = None).

(** The error raised when the marker holds [content]. *)
Definition lock_held_error (storeDir content : string) : js_error :=
  new_Error (lock_held_message +:+
             StoreLock.lock_details
               (StoreLock.MkStatus true (lockPath storeDir) (Some (Js.trim content)))).

(** The state a successful acquisition leaves. *)
Definition acquired (proc : process) (storeDir : string) (s : state) : state :=
  set_cells (λ cs, cs ++ [false])
    (set_disk (λ d, MkFs (<[lockPath storeDir := StoreLock.payload_at proc (clock s)]>
                            (files d))
                         ({[storeDir]} ∪ dirs d)) s).

(** The state a refused acquisition leaves. *)
Definition refused (storeDir : string) (s : state) : state :=
  set_disk (set_dirs (λ ds, {[storeDir]} ∪ ds)) s.

(** The effect of the first call of a release closure on the state. *)
Definition released (r : StoreLock.release_fn) (s : state) : state :=
  set_disk (set_files (delete (StoreLock.rel_lockPath r)))
    (set_cells (λ cs, <[StoreLock.rel_released r := true]> cs) s).

(** [k] calls of a release closure, one after the other. *)
Fixpoint call_n (k : nat) (r : StoreLock.release_fn) : M unit :=
  match k with
  | O => ret tt
  | S k' => StoreLock.call_release r >> call_n k' r
  end.

(** One acquisition attempt per process of the list, each after waiting
    for the given time; the result tells which attempts succeeded. *)
Fixpoint attempt_all (who : list (process * Z)) (storeDir : string) : M (list bool) :=
  match who with
  | [] => ret []
  | (proc, wait) :: later =>
      Cli.delay wait >>
      let! ok := try_catch (StoreLock.acquireStoreLock proc storeDir >> ret true)
                           (λ _, ret false) in
      let! oks := attempt_all later storeDir in
      ret (ok :: oks)
  end.

End Vocabulary.

(** ** Vocabulary of the frame properties *)

Section Frames.
Context `{Platform}.
Import Cli.

(** From the state [s] the computation [m] leaves the marker of [storeDir]
    as it is and only adds to the standard output; a value it returns,
    with the output it added, satisfies [Q]. *)
Definition inspects_at {A} (storeDir : string) (s : state)
    (Q : A → list output → Prop) (m : M A) : Prop :=
  marker storeDir (m s).2 = marker storeDir s
  ∧ ∃ out, stdout (m s).2 = stdout s ++ out
           ∧ ∀ a, (m s).1 = Normal a → Q a out.

Definition inspects {A} (storeDir : string) (Q : A → list output → Prop)
    (m : M A) : Prop :=
  ∀ s, inspects_at storeDir s Q m.

Definition whatever {A} (a : A) (out : list output) : Prop := True.

(** A client none of whose methods touches the marker. *)
Definition client_keeps (storeDir : string) (c : telegram_client) : Prop :=
  inspects storeDir whatever (isAuthorized c)
  ∧ inspects storeDir whatever (login c)
  ∧ inspects storeDir whatever (logout c)
  ∧ inspects storeDir whatever (startUpdates c)
  ∧ inspects storeDir whatever (destroy c).

(** A sync service none of whose methods touches the marker. *)
Definition service_keeps (storeDir : string) (v : sync_service) : Prop :=
  inspects storeDir whatever (getSearchStatus v)
  ∧ inspects storeDir whatever (getQueueStats v)
  ∧ inspects storeDir whatever (refreshChannelsFromDialogs v)
  ∧ inspects storeDir whatever (resumePendingJobs v)
  ∧ inspects storeDir whatever (startRealtimeSync v)
  ∧ inspects storeDir whatever (shutdown v).

(** What [readStoreLock] returns for a marker: whether it exists, and its
    trimmed text. *)
Definition status_of (storeDir : string) (m : option string) : StoreLock.lock_status :=
  StoreLock.MkStatus (bool_decide (is_Some m)) (lockPath storeDir) (Js.trim <$> m).

(** An output of [doctor] that reports the marker [m]: the [LOCKED] line,
    or with [--json] the object whose [lockHeld] and [lockInfo] fields tell
    whether the marker exists and what it records. *)
Definition reports_lock (asJson : bool) (storeDir : string) (m : option string)
    (o : output) : Prop :=
  if asJson
  then ∃ fields,
         o = OutJson (Js.JObj
               (("storeDir", Js.JStr storeDir)
                :: ("lockHeld", Js.JBool (bool_decide (is_Some m)))
                :: ("lockInfo", option_json Js.JStr (Js.trim <$> m))
                :: fields))
  else o = OutLine ("LOCKED: " +:+ show_bool (bool_decide (is_Some m)) +:+
                    StoreLock.lock_details (status_of storeDir m)).

(** An acquisition attempt succeeded. *)
Definition succeeded {A} (c : completion A) : bool :=
  match c with
  | Normal _ => true
  | _ => false
  end.

End Frames.

(** ** Vocabulary of the error report *)

(** The command reaches [acquireStoreLock]: [sync] and [auth] (but for
    [auth status]) once their flags are parsed. *)
Definition takes_lock (command : string) (args : list string) : bool :=
  if decide (command = "auth")
  then match Cli.parseFlags args [("follow", "boolean")] with
       | inr (_, rest) => negb (bool_decide (head rest = Some "status"))
       | inl _ => false
       end
  else if decide (command = "sync")
  then match Cli.parseFlags args Cli.sync_spec with
       | inr _ => true
       | inl _ => false
       end
  else false.

(** What [writeError] prints for a message. *)
Definition error_report (message : string) (asJson : bool) : string :=
  (if asJson
   then Js.stringify (Js.JObj [("ok", Js.JBool false); ("error", Js.JStr message)])
   else message) +:+ Cli.newline.

(** The report names the entry of the error taxonomy. *)
Definition names_lock_held (report : string) : Prop :=
  Js.includes "LockHeldError" report = true.

(** ** A sample run *)

Module Sample.

(** 2026-11-02T00:00:00.000Z *)
Definition t0 : Z := 1793577600000.

Definition proc (args : list string) : process :=
  {| pid := 4242; argv := "node" :: "cli.js" :: args; env_FROGIVERSE_STORE := None |}.

Definition other : process :=
  {| pid := 977; argv := ["node"; "cli.js"; "sync"]; env_FROGIVERSE_STORE := None |}.

(** A process that has just started, on a disk without files. *)
Definition fresh : state :=
  {| disk := MkFs ∅ ∅; cells := []; clock := t0; stdout := []; stderr := "" |}.

(** The same, on a disk where process 977 left its marker in [/store]. *)
Definition locked : state :=
  {| disk := MkFs {[ "/store/LOCK" :=
                     @StoreLock.payload_at Posix.platform other (t0 - 60000) ]} ∅;
     cells := []; clock := t0; stdout := []; stderr := "" |}.

End Sample.

(** ** Vocabulary of the idle monitor *)

Section IdleVocabulary.
Import Cli.

(** No pending job, no job in progress, and the worker not processing. *)
Definition quiet (q : queue_stats) : bool :=
  negb (processing q) && (pending q =? 0)%N && (in_progress q =? 0)%N.

(** The snapshot of the service is a function of the time, and taking it
    has no effect. *)
Definition observes (service : sync_service) (obs : Z → queue_stats) : Prop :=
  ∀ s, getQueueStats service s = (Normal (obs (clock s)), s).

(** The time of poll [k] of a monitor started at [t0]. *)
Definition poll_time (t0 : Z) (k : nat) : Z := t0 + 500 * Z.of_nat k.

(** Poll [k] ends a run of quiet polls that spans at least [w]
    milliseconds: the snapshot has reported quiescence continuously for
    at least the window. *)
Definition sustained (obs : Z → queue_stats) (t0 w : Z) (k : nat) : Prop :=
  ∃ j, (j ≤ k)%nat
       ∧ (∀ i, (j ≤ i ≤ k)%nat → quiet (obs (poll_time t0 i)) = true)
       ∧ w ≤ poll_time t0 k - poll_time t0 j.

(** The queue is busy before the time [q] and quiet from [q] on. *)
Definition settles (obs : Z → queue_stats) (q : Z) : Prop :=
  (∀ t, t < q → quiet (obs t) = false) ∧ (∀ t, q ≤ t → quiet (obs t) = true).

(** What [idleStart] holds when poll [k] begins: nothing after a busy
    poll, and else the time of the first poll of the current quiet run. *)
Definition streak_state (obs : Z → queue_stats) (t0 : Z) (k : nat)
    (idleStart : option Z) : Prop :=
  match idleStart with
  | None => k = 0%nat ∨ ∃ k', k = S k' ∧ quiet (obs (poll_time t0 k')) = false
  | Some ts =>
      ∃ j, (j < k)%nat ∧ ts = poll_time t0 j
           ∧ (∀ i, (j ≤ i < k)%nat → quiet (obs (poll_time t0 i)) = true)
           ∧ (j = 0%nat ∨ ∃ j', j = S j' ∧ quiet (obs (poll_time t0 j')) = false)
  end.

End IdleVocabulary.

(** ** Vocabulary of durations *)

(** The grammar of durations as the usage text means it: decimal digits,
    then no suffix or one of ms, s, m, h in either case, with white space
    allowed around. *)
Inductive time_unit := Millis | Seconds | Minutes | Hours.

Definition unit_of_suffix (suffix : string) : option time_unit :=
  if bool_decide (suffix = "") then Some Seconds
  else if bool_decide (suffix ∈ ["ms"; "mS"; "Ms"; "MS"]) then Some Millis
  else if bool_decide (suffix ∈ ["s"; "S"]) then Some Seconds
  else if bool_decide (suffix ∈ ["m"; "M"]) then Some Minutes
  else if bool_decide (suffix ∈ ["h"; "H"]) then Some Hours
  else None.

(** Milliseconds per unit. *)
Definition factor (u : time_unit) : Z :=
  match u with
  | Millis => 1
  | Seconds => 1000
  | Minutes => 60000
  | Hours => 3600000
  end.

(** The amount in milliseconds, multiplied as JavaScript does. *)
Definition in_ms (amount : Num.number) (u : time_unit) : Num.number :=
  match u with
  | Millis => amount
  | Seconds => Num.mul amount 1000
  | Minutes => Num.mul (Num.mul amount 60) 1000
  | Hours => Num.mul (Num.mul (Num.mul amount 60) 60) 1000
  end.

(** [text] is the duration of [digits] units [u]. *)
Definition is_duration (text digits : string) (u : time_unit) : Prop :=
  ∃ pre suffix post,
    every Js.is_white pre = true ∧ every Js.is_white post = true
    ∧ every Js.is_digit digits = true ∧ digits ≠ ""
    ∧ unit_of_suffix suffix = Some u
    ∧ text = pre +:+ digits +:+ suffix +:+ post.

Definition not_white (c : ascii) : bool := negb (Js.is_white c).

(** ** Vocabulary of the command line *)

(** The key of an option: [--key] or [--key=value]. *)
Definition option_key (arg : string) : string := Js.slice 2 (Cli.split_arg arg).1.

(** [arg] is the option [--key], with or without a value attached. *)
Definition names_option (key arg : string) : bool :=
  Js.startsWith "--" arg && bool_decide (option_key arg = key).

(** [arg] is an option that takes the argument after it as its value (or
    skips it): an option with a value that has none attached. *)
Definition swallows_next (spec : list (string * string)) (arg : string) : bool :=
  Js.startsWith "--" arg &&
  match Cli.spec_lookup spec (option_key arg) with
  | Some rule =>
      negb (Cli.is_boolean rule) &&
      negb (match (Cli.split_arg arg).2 with
            | Some v => Js.truthy v
            | None => false
            end)
  | None => false
  end.

(** The option [--key] is passed on the command line: it is among the
    arguments, not counting an argument that is the value of the option
    before it. *)
Fixpoint passed (spec : list (string * string)) (key : string) (args : list string)
    : bool :=
  match args with
  | [] => false
  | arg :: later =>
      names_option key arg ||
      (if swallows_next spec arg
       then match later with
            | [] => false
            | _ :: after => passed spec key after
            end
       else passed spec key later)
  end.

(** A value the computation returns satisfies [Q]. *)
Definition yields {A} (Q : A → Prop) (m : M A) : Prop :=
  ∀ s a s', m s = (Normal a, s') → Q a.

(** The session of a command matches the mode [follow]. *)
Definition session_mode (follow : bool) (x : Cli.session) : Prop :=
  match x with
  | Cli.Following _ => follow = true
  | Cli.Finished => follow = false
  end.

(** ** Vocabulary of the option parsers *)

(** [arg] is one of the options [parseGlobalFlags] knows. *)
Definition global_option (arg : string) : bool :=
  bool_decide (arg = "--json") || bool_decide (arg = "--help")
  || bool_decide (arg = "-h") || bool_decide (arg = "--store")
  || Js.startsWith "--store=" arg.

(** A run of global options: each one known to [parseGlobalFlags], with
    [--store] followed by its value, which is not empty. *)
Fixpoint global_options (args : list string) : bool :=
  match args with
  | [] => true
  | arg :: later =>
      if decide (arg = "--store")
      then match later with
           | next :: after => Js.truthy next && global_options after
           | [] => false
           end
      else global_option arg && global_options later
  end.

(** [arg] is left to the caller by [parseFlags]: a positional argument, or
    an option the spec does not know. *)
Definition positional (spec : list (string * string)) (arg : string) : bool :=
  negb (Js.startsWith "--" arg)
  || bool_decide (Cli.spec_lookup spec (option_key arg) = None).

(** Every flag holds what its rule says: [true] for a boolean rule, a
    string for any other rule, and nothing without a rule. *)
Definition well_typed (spec : list (string * string)) (flags : gmap string value)
    : Prop :=
  ∀ key v, flags !! key = Some v →
    match Cli.spec_lookup spec key with
    | Some rule => if Cli.is_boolean rule then v = VBool true else ∃ text, v = VStr text
    | None => False
    end.

(** ** Vocabulary of the lock discipline *)

Section Discipline.
Context `{Platform}.
Import Cli.

(** What the lock of [storeDir] consists of: the marker on disk and the
    cells of the release closures. *)
Definition lock_view (storeDir : string) (s : state) : option string * list bool :=
  (marker storeDir s, cells s).

(** The computation [m] leaves the lock of [storeDir] as it is, however
    it ends; a value it returns satisfies [Q]. *)
Definition aside {A} (storeDir : string) (Q : A → Prop) (m : M A) : Prop :=
  ∀ s, lock_view storeDir (m s).2 = lock_view storeDir s
       ∧ ∀ a, (m s).1 = Normal a → Q a.

(** The computation [m] returns a value from every state: it neither
    throws nor stays pending. *)
Definition returns {A} (m : M A) : Prop := ∀ s, ∃ a, (m s).1 = Normal a.

Definition anything {A} (a : A) : Prop := True.

(** A client that stays away from the lock. *)
Definition bystander_client (storeDir : string) (c : telegram_client) : Prop :=
  aside storeDir anything (isAuthorized c)
  ∧ aside storeDir anything (login c)
  ∧ aside storeDir anything (logout c)
  ∧ aside storeDir anything (startUpdates c)
  ∧ aside storeDir anything (destroy c).

(** A sync service that stays away from the lock. *)
Definition bystander_service (storeDir : string) (v : sync_service) : Prop :=
  aside storeDir anything (getSearchStatus v)
  ∧ aside storeDir anything (getQueueStats v)
  ∧ aside storeDir anything (refreshChannelsFromDialogs v)
  ∧ aside storeDir anything (resumePendingJobs v)
  ∧ aside storeDir anything (startRealtimeSync v)
  ∧ aside storeDir anything (shutdown v).

(** The constructor returns, and what it returns satisfies [good]. *)
Definition constructs {A} (good : A → Prop) (m : M A) : Prop :=
  returns m ∧ yields good m.

(** The cleanup of the client goes through. *)
Definition destroyable (c : telegram_client) : Prop := returns (destroy c).

(** The cleanup of the service goes through. *)
Definition stoppable (v : sync_service) : Prop := returns (shutdown v).


(** The computation has ended, with a value or with an error. *)
Definition ended {A} (c : completion A) : bool :=
  match c with
  | Pending => false
  | _ => true
  end.

(** The handler a session in follow mode registered for the signals. *)
Definition on_signal_of (x : session) : M unit :=
  match x with
  | Following handler => handler
  | Finished => ret tt
  end.

End Discipline.

(** ** Vocabulary of the reports *)

(** A control character: a line feed, a carriage return, a tab and the
    like. *)
Definition control (c : ascii) : bool := (N_of_ascii c <? 32)%N.

(** The text has no control character: it stays on one line. *)
Definition one_line (text : string) : bool := every (λ c, negb (control c)) text.

(** ** More sample collaborators and inputs *)

Module Faulty.
Import Cli.

(** A service like [Double.service], but for a [shutdown] that fails. *)
Definition service (quiet_at : Z) : sync_service :=
  {| getSearchStatus := getSearchStatus (Double.service quiet_at);
     getQueueStats := getQueueStats (Double.service quiet_at);
     refreshChannelsFromDialogs := refreshChannelsFromDialogs (Double.service quiet_at);
     resumePendingJobs := resumePendingJobs (Double.service quiet_at);
     startRealtimeSync := startRealtimeSync (Double.service quiet_at);
     shutdown := throw (new_Error "database is busy") |}.

Definition new_service (quiet_at : Z) (c : telegram_client) (o : sync_options)
    : M sync_service :=
  ret (service quiet_at).

End Faulty.

Fixpoint zeros (n : nat) : string :=
  match n with
  | O => EmptyString
  | S n' => String "0" (zeros n')
  end.

(** The decimal numeral of 10^400. *)
Definition huge : string := String "1" (zeros 400).

(** ** Vocabulary of the doctor's report *)


(** ** Strings *)

Lemma string_app_nil_r (s : string) : s +:+ "" = s.
Proof. induction s as [|c s IH]; [done|]. unfold String.app in *. simpl. by rewrite IH. Qed.

Lemma string_app_assoc (a b c : string) : (a +:+ b) +:+ c = a +:+ (b +:+ c).
Proof.
  induction a as [|x a IH]; [done|]. unfold String.app in *. simpl. by rewrite IH.
Qed.

Lemma string_app_cons (c : ascii) (a b : string) : String c a +:+ b = String c (a +:+ b).
Proof. done. Qed.

Lemma slice_empty (n : nat) : Js.slice n "" = "".
Proof. by destruct n. Qed.

Lemma overwrite_fresh (data : string) : Fs.overwrite data "" = data.
Proof. unfold Fs.overwrite. by rewrite slice_empty, string_app_nil_r. Qed.

(** ** The store lock *)

Section StoreLockFacts.
Context `{Platform}.
Import StoreLock.

Lemma acquire_free proc storeDir s :
  marker storeDir s = None →
  acquireStoreLock proc storeDir s
  = (Normal (MkRelease (lockPath storeDir) (length (cells s))),
     acquired proc storeDir s).
Proof.
  unfold marker, lockPath. intros Hfree.
  unfold acquireStoreLock, lockPayload, new_cell, bind, try_catch,
    Fs.mkdirSync, Fs.openSync_wx, Fs.writeFileSync, Fs.closeSync,
    modify, get, ret, throw, bind.
  simpl. rewrite Hfree. simpl.
  unfold acquired, set_cells, set_disk, set_files, set_dirs, lockPath. simpl.
  by rewrite lookup_insert_eq, insert_insert_eq, overwrite_fresh.
Qed.

Lemma acquire_held proc storeDir s content :
  marker storeDir s = Some content →
  acquireStoreLock proc storeDir s
  = (Throw (lock_held_error storeDir content), refused storeDir s).
Proof.
  unfold marker, lockPath. intros Hheld.
  unfold acquireStoreLock, readStoreLock, bind, try_catch,
    Fs.mkdirSync, Fs.openSync_wx, Fs.readFileSync, modify, get, ret, throw, bind.
  simpl. rewrite Hheld. simpl. rewrite Hheld. simpl. done.
Qed.

Lemma lock_held_error_is storeDir content :
  is_lock_held_error (lock_held_error storeDir content) = true.
Proof.
  unfold is_lock_held_error, lock_held_error. by vm_compute.
Qed.

Lemma release_first r s :
  cells s !! rel_released r = Some false →
  call_release r s = (Normal tt, released r s).
Proof.
  intros Hcell.
  unfold call_release, released, bind, try_catch, Fs.unlinkSync, modify, get,
    ret, throw, bind.
  simpl. rewrite Hcell. simpl.
  destruct (files (disk s) !! rel_lockPath r) as [content|] eqn:Hfile; simpl.
  - done.
  - unfold set_disk, set_files, set_cells. simpl.
    rewrite (delete_id _ _ Hfile). by destruct s as [[] ? ? ? ?].
Qed.

Lemma release_again r s :
  cells s !! rel_released r = Some true →
  call_release r s = (Normal tt, s).
Proof.
  intros Hcell. unfold call_release, bind, get, ret. simpl. by rewrite Hcell.
Qed.

Lemma call_n_again k r s :
  cells s !! rel_released r = Some true →
  call_n k r s = (Normal tt, s).
Proof.
  intros Hcell. induction k as [|k IH]; [done|].
  simpl. unfold bind. by rewrite release_again.
Qed.

Lemma acquire_inv proc storeDir s rel s1 :
  acquireStoreLock proc storeDir s = (Normal rel, s1) →
  marker storeDir s = None
  ∧ rel = MkRelease (lockPath storeDir) (length (cells s))
  ∧ s1 = acquired proc storeDir s.
Proof.
  intros Hacq. destruct (marker storeDir s) as [content|] eqn:Hm.
  - rewrite (acquire_held _ _ _ _ Hm) in Hacq. discriminate.
  - rewrite (acquire_free _ _ _ Hm) in Hacq. by inversion Hacq.
Qed.

Lemma marker_acquired proc storeDir s :
  marker storeDir (acquired proc storeDir s) = Some (payload_at proc (clock s)).
Proof. unfold marker, acquired. simpl. apply lookup_insert_eq. Qed.


Lemma marker_same_disk storeDir s s' :
  disk s' = disk s → marker storeDir s' = marker storeDir s.
Proof. unfold marker. by intros ->. Qed.



Lemma cell_acquired proc storeDir s :
  cells (acquired proc storeDir s) !! length (cells s) = Some false.
Proof. unfold acquired. simpl. by rewrite list_lookup_middle. Qed.

Lemma cell_released r s :
  (rel_released r < length (cells s))%nat →
  cells (released r s) !! rel_released r = Some true.
Proof. intros Hlt. unfold released. simpl. by apply list_lookup_insert_eq. Qed.

(** C2. The closure [acquireStoreLock] returns never fails.  Whatever has
    happened to the state since the acquisition, short of writing the cell
    that only the closure writes, its first call removes the marker and
    succeeds, also when the marker is already gone from the disk; and
    every later call, any number of them and again whatever the state has
    become, returns at once and changes nothing. *)
Theorem release_idempotent_total proc storeDir s rel s1 :
  acquireStoreLock proc storeDir s = (Normal rel, s1) →
  ∀ s1' : state,
    cells s1' !! rel_released rel = cells s1 !! rel_released rel →
    ∃ s2, call_release rel s1' = (Normal tt, s2)
          ∧ marker storeDir s2 = None
          ∧ ∀ (s2' : state) (k : nat),
              cells s2' !! rel_released rel = cells s2 !! rel_released rel →
              call_n k rel s2' = (Normal tt, s2').
Proof.
  intros Hacq s1' Hcell. apply acquire_inv in Hacq as (_ & -> & ->).
  cbn [rel_released] in *. rewrite (cell_acquired proc storeDir s) in Hcell.
  exists (released (MkRelease (lockPath storeDir) (length (cells s))) s1').
  split; [by apply release_first|]. split.
  - unfold marker, released. simpl. apply lookup_delete_eq.
  - intros s2' k Hcell'. apply call_n_again. cbn [rel_released] in *.
    rewrite Hcell'.
    apply (cell_released (MkRelease (lockPath storeDir) (length (cells s)))).
    by apply lookup_lt_Some in Hcell.
Qed.


Lemma attempt_fails proc storeDir content s :
  marker storeDir s = Some content →
  try_catch (acquireStoreLock proc storeDir >> ret true) (λ _, ret false) s
  = (Normal false, refused storeDir s).
Proof.
  intros Hm. unfold try_catch, bind. by rewrite (acquire_held _ _ _ _ Hm).
Qed.

Lemma attempt_all_held who storeDir content :
  ∀ s, marker storeDir s = Some content →
       ∃ s', attempt_all who storeDir s = (Normal (repeat false (length who)), s')
             ∧ marker storeDir s' = Some content.
Proof.
  induction who as [|[proc wait] who IH]; intros s Hm.
  - by exists s.
  - simpl. unfold bind at 1. unfold Cli.delay, modify. unfold bind at 1.
    rewrite (attempt_fails _ _ content) by done.
    destruct (IH (refused storeDir (set_clock (λ t, t + wait) s)))
      as (s' & Hrun & Hm'); [done|].
    exists s'. unfold bind. by rewrite Hrun.
Qed.

(** C8. A marker blocks acquisition whatever it contains: the attempt of
    any process fails with the lock-held error and leaves the marker as it
    is, so every attempt of every later process, at any later time, fails
    too, until something else removes the file. *)
Theorem stale_lock_blocks storeDir content s :
  marker storeDir s = Some content →
  (∀ proc, ∃ e s', acquireStoreLock proc storeDir s = (Throw e, s')
                   ∧ is_lock_held_error e = true
                   ∧ marker storeDir s' = Some content)
  ∧ (∀ who, ∃ s', attempt_all who storeDir s
                  = (Normal (repeat false (length who)), s')
                  ∧ marker storeDir s' = Some content).
Proof.
  intros Hm. split.
  - intros proc. eexists _, _. split; [by apply acquire_held|].
    split; [apply lock_held_error_is | done].
  - intros who. by apply attempt_all_held.
Qed.

End StoreLockFacts.

(** ** Strings: trimming, separators and JSON literals *)

Lemma every_app p (a b : string) : every p (a +:+ b) = every p a && every p b.
Proof.
  induction a as [|c a IH]; [done|].
  rewrite string_app_cons. simpl. by rewrite IH, andb_assoc.
Qed.

Lemma trimStart_white (pre s : string) :
  every Js.is_white pre = true → Js.trimStart (pre +:+ s) = Js.trimStart s.
Proof.
  induction pre as [|c pre IH]; [done|]. simpl.
  intros [Hc Hpre]%andb_true_iff. rewrite Hc. auto.
Qed.

Lemma trimStart_head (c : ascii) (r : string) :
  Js.is_white c = false → Js.trimStart (String c r) = String c r.
Proof. intros Hc. simpl. by rewrite Hc. Qed.

Lemma trimEnd_white (post : string) :
  every Js.is_white post = true → Js.trimEnd post = "".
Proof.
  induction post as [|c post IH]; [done|]. simpl.
  intros [Hc Hpost]%andb_true_iff. by rewrite Hc, IH.
Qed.

Lemma trimEnd_app_white (s post : string) :
  every Js.is_white post = true → Js.trimEnd (s +:+ post) = Js.trimEnd s.
Proof.
  intros Hpost. induction s as [|c s IH].
  - change ("" +:+ post) with post. by rewrite trimEnd_white.
  - rewrite string_app_cons. simpl. by rewrite IH.
Qed.

Lemma trimEnd_last (s : string) (c : ascii) :
  Js.is_white c = false →
  Js.trimEnd (s +:+ String c "") = s +:+ String c "".
Proof.
  intros Hc. induction s as [|x s IH].
  - change ("" +:+ String c "") with (String c ""). simpl. by rewrite Hc.
  - rewrite string_app_cons. simpl. rewrite IH.
    destruct s; simpl; by rewrite andb_false_r.
Qed.

(** A string is its trimmed text between two runs of white space. *)
Lemma trimStart_split (s : string) :
  ∃ pre, every Js.is_white pre = true ∧ s = pre +:+ Js.trimStart s.
Proof.
  induction s as [|c s (pre & Hpre & Hs)]; [by exists ""|].
  simpl. destruct (Js.is_white c) eqn:Hc.
  - exists (String c pre). simpl. rewrite Hc, Hpre. split; [done|].
    rewrite string_app_cons. by f_equal.
  - by exists "".
Qed.

Lemma trimEnd_split (s : string) :
  ∃ post, every Js.is_white post = true ∧ s = Js.trimEnd s +:+ post.
Proof.
  induction s as [|c s (post & Hpost & Hs)]; [by exists ""|].
  simpl. destruct (Js.is_white c && Js.is_empty (Js.trimEnd s)) eqn:Hc.
  - apply andb_true_iff in Hc as [Hc He].
    destruct (Js.trimEnd s); [|done].
    exists (String c post). simpl. rewrite Hc, Hpost. split; [done|].
    change ("" +:+ String c post) with (String c post). by f_equal.
  - exists post. split; [done|]. rewrite string_app_cons. by f_equal.
Qed.

Lemma trim_split (s : string) :
  ∃ pre post, every Js.is_white pre = true ∧ every Js.is_white post = true
              ∧ s = pre +:+ Js.trim s +:+ post.
Proof.
  destruct (trimStart_split s) as (pre & Hpre & Hs).
  destruct (trimEnd_split (Js.trimStart s)) as (post & Hpost & Ht).
  exists pre, post. split; [done|]. split; [done|].
  unfold Js.trim. by rewrite <- Ht.
Qed.

(** The first separator of a string splits it in one way only. *)
Lemma app_separator_inj (p : ascii → bool) (c : ascii) (a b x y : string) :
  every p a = true → every p b = true → p c = false →
  a +:+ String c x = b +:+ String c y → a = b ∧ x = y.
Proof.
  intros Ha Hb Hc. revert b Hb.
  induction a as [|u a IH]; intros [|v b] Hb Heq.
  - by inversion Heq.
  - inversion Heq; subst. simpl in Hb. rewrite Hc in Hb. done.
  - inversion Heq; subst. simpl in Ha. rewrite Hc in Ha. done.
  - inversion Heq; subst. simpl in Ha, Hb.
    apply andb_true_iff in Ha as [_ Ha]. apply andb_true_iff in Hb as [_ Hb].
    destruct (IH Ha b Hb) as [-> ->]; done.
Qed.

Lemma pretty_N_go_chars (x : N) (s : string) :
  every is_number_char s = true → every is_number_char (pretty_N_go x s) = true.
Proof.
  revert s. induction (N.lt_wf_0 x) as [x _ IH]; intros s Hs.
  assert (x = 0 ∨ 0 < x)%N as [->|Hpos] by lia.
  - by rewrite pretty_N_go_0.
  - rewrite pretty_N_go_step by done. apply IH; [by apply N.div_lt|].
    simpl. rewrite Hs, andb_true_r.
    unfold pretty_N_char. by repeat case_match.
Qed.

Lemma pretty_Z_chars (z : Z) : every is_number_char (pretty z) = true.
Proof.
  assert (∀ x : positive, every is_number_char (pretty x) = true) as Hpos.
  { intros x. unfold pretty, pretty_positive, pretty, pretty_N.
    case_decide; [done|]. by apply pretty_N_go_chars. }
  destruct z as [|x|x]; unfold pretty, pretty_Z; [done|apply Hpos|].
  change ("-" +:+ pretty x) with (String "-" (pretty x)). simpl. apply Hpos.
Qed.

Lemma json_unescape_char (c : ascii) (r : string) :
  json_unescape (Js.json_escape_char c +:+ r) = String c (json_unescape r).
Proof. by destruct c as [[] [] [] [] [] [] [] []]. Qed.

(** Reading back an escaped string that is followed by its closing quote. *)
Lemma json_unescape_escape (s rest : string) :
  json_unescape (Js.json_escape s +:+ Js.dq +:+ rest) = s.
Proof.
  induction s as [|c s IH]; [done|].
  simpl. rewrite string_app_assoc, json_unescape_char. by rewrite IH.
Qed.

Lemma json_quote_inj (a b ta tb : string) :
  Js.json_quote a +:+ ta = Js.json_quote b +:+ tb → a = b.
Proof.
  unfold Js.json_quote. rewrite !string_app_assoc.
  change (Js.dq +:+ ?x) with (String "034" x). intros [= Heq].
  by rewrite <- (json_unescape_escape a ta), <- (json_unescape_escape b tb), Heq.
Qed.

(** ** What the marker records *)

Section MarkerRecord.
Context `{Platform}.
Import StoreLock.

Lemma payload_shape proc now :
  payload_at proc now
  = "{" +:+ Js.json_quote "pid" +:+ ":" +:+ pretty (pid proc) +:+ "," +:+
    Js.json_quote "startedAt" +:+ ":" +:+ Js.json_quote (toISOString now) +:+ "}".
Proof.
  unfold payload_at. simpl. by rewrite !string_app_assoc.
Qed.

Lemma payload_inj p1 t1 p2 t2 :
  payload_at p1 t1 = payload_at p2 t2 →
  pid p1 = pid p2 ∧ toISOString t1 = toISOString t2.
Proof.
  rewrite !payload_shape. intros Heq.
  apply (inj (String.app "{")) in Heq.
  apply (inj (String.app (Js.json_quote "pid"))) in Heq.
  apply (inj (String.app ":")) in Heq.
  change ("," +:+ ?x) with (String "," x) in Heq.
  apply (app_separator_inj is_number_char) in Heq as [Hpid Heq];
    [|apply pretty_Z_chars..|done].
  split; [by apply (inj pretty)|].
  apply (inj (String.app (Js.json_quote "startedAt"))) in Heq.
  apply (inj (String.app ":")) in Heq.
  by apply json_quote_inj in Heq.
Qed.

Lemma trim_payload proc now : Js.trim (payload_at proc now) = payload_at proc now.
Proof.
  rewrite payload_shape. rewrite <- !string_app_assoc.
  unfold Js.trim. rewrite !string_app_assoc.
  change ("{" +:+ ?x) with (String "{" x).
  rewrite trimStart_head by done.
  change (String "{" ?x) with ("{" +:+ x). rewrite <- !string_app_assoc.
  by apply trimEnd_last.
Qed.

Lemma read_present storeDir s content :
  marker storeDir s = Some content →
  readStoreLock storeDir s
  = (Normal (MkStatus true (lockPath storeDir) (Some (Js.trim content))), s).
Proof.
  unfold marker, lockPath. intros Hm.
  unfold readStoreLock, try_catch, bind, Fs.readFileSync, get, ret, throw, bind.
  simpl. by rewrite Hm.
Qed.

Lemma read_absent storeDir s :
  marker storeDir s = None →
  readStoreLock storeDir s
  = (Normal (MkStatus false (lockPath storeDir) None), s).
Proof.
  unfold marker, lockPath. intros Hm.
  unfold readStoreLock, try_catch, bind, Fs.readFileSync, get, ret, throw, bind.
  simpl. by rewrite Hm.
Qed.

(** C7. After a successful acquisition the marker holds the JSON text with
    the process id of the acquiring process and the time of the
    acquisition, reading the marker returns this text, and the text
    determines both the process id and the time. *)
Theorem marker_records_owner proc storeDir s rel s1 :
  acquireStoreLock proc storeDir s = (Normal rel, s1) →
  marker storeDir s1 = Some (payload_at proc (clock s))
  ∧ readStoreLock storeDir s1
    = (Normal (MkStatus true (lockPath storeDir)
                 (Some (payload_at proc (clock s)))), s1)
  ∧ payload_at proc (clock s)
    = "{" +:+ Js.json_quote "pid" +:+ ":" +:+ pretty (pid proc) +:+ "," +:+
      Js.json_quote "startedAt" +:+ ":" +:+
      Js.json_quote (toISOString (clock s)) +:+ "}"
  ∧ ∀ proc' now', payload_at proc' now' = payload_at proc (clock s) →
                  pid proc' = pid proc ∧ toISOString now' = toISOString (clock s).
Proof.
  intros Hacq. apply acquire_inv in Hacq as (_ & _ & ->).
  split; [apply marker_acquired|].
  split; [|split; [apply payload_shape | intros ??; apply payload_inj]].
  rewrite (read_present _ _ _ (marker_acquired proc storeDir s)).
  by rewrite trim_payload.
Qed.

End MarkerRecord.

(** ** Inspection leaves the marker alone *)

Section Inspection.
Context `{Platform}.
Import Cli StoreLock.

Lemma inspects_ret {A} d s (Q : A → list output → Prop) a :
  Q a [] → inspects_at d s Q (ret a).
Proof.
  intros Ha. split; [done|]. exists []. rewrite app_nil_r. split; [done|].
  by intros ? [= <-].
Qed.

Lemma inspects_throw {A} d s (Q : A → list output → Prop) e :
  inspects_at d s Q (throw e).
Proof. split; [done|]. exists []. rewrite app_nil_r. split; [done|]. by intros ? [=]. Qed.

Lemma inspects_weaken {A} d s (Q R : A → list output → Prop) m :
  inspects_at d s Q m → (∀ a out, Q a out → R a out) → inspects_at d s R m.
Proof.
  intros (Hm & out & Hout & HQ) HQR. split; [done|]. exists out. split; [done|]. eauto.
Qed.

Lemma inspects_bind {A B} d s (Q : A → list output → Prop)
    (R : B → list output → Prop) m k :
  inspects_at d s Q m →
  (∀ a s1 out1, marker d s1 = marker d s → Q a out1 →
                inspects_at d s1 (λ b out2, R b (out1 ++ out2)) (k a)) →
  inspects_at d s R (bind m k).
Proof.
  unfold inspects_at, bind. intros (Hm & out1 & Hout & HQ) Hk.
  destruct (m s) as [[a|e|] s1]; simpl in *.
  - destruct (Hk a s1 out1 Hm (HQ a eq_refl)) as (Hm2 & out2 & Hout2 & HR).
    split; [congruence|]. exists (out1 ++ out2).
    rewrite Hout2, Hout, app_assoc. done.
  - split; [done|]. exists out1. split; [done|]. by intros ? [=].
  - split; [done|]. exists out1. split; [done|]. by intros ? [=].
Qed.

Lemma inspects_try_catch {A} d s (R : A → list output → Prop) body handler :
  inspects_at d s R body →
  (∀ e s1 out1, marker d s1 = marker d s →
                inspects_at d s1 (λ a out2, R a (out1 ++ out2)) (handler e)) →
  inspects_at d s R (try_catch body handler).
Proof.
  unfold inspects_at, try_catch. intros (Hm & out1 & Hout & HQ) Hh.
  destruct (body s) as [[a|e|] s1]; simpl in *.
  - split; [done|]. by exists out1.
  - destruct (Hh e s1 out1 Hm) as (Hm2 & out2 & Hout2 & HR).
    split; [congruence|]. exists (out1 ++ out2).
    rewrite Hout2, Hout, app_assoc. done.
  - split; [done|]. by exists out1.
Qed.

Lemma inspects_try_finally {A} d s (Q R : A → list output → Prop) body cleanup :
  inspects_at d s Q body →
  (∀ s1, marker d s1 = marker d s → inspects_at d s1 whatever cleanup) →
  (∀ a o1 o2, Q a o1 → R a (o1 ++ o2)) →
  inspects_at d s R (try_finally body cleanup).
Proof.
  unfold inspects_at, try_finally. intros (Hm & out1 & Hout & HQ) Hc HQR.
  destruct (body s) as [[a|e|] s1]; simpl in *;
    [| |split; [done|]; exists out1; split; [done|]; by intros ? [=]];
    destruct (Hc s1 Hm) as (Hm2 & out2 & Hout2 & _);
    destruct (cleanup s1) as [[[]|e'|] s2]; simpl in *;
    (split; [congruence|]); exists (out1 ++ out2);
    rewrite Hout2, Hout, app_assoc; (split; [done|]); intros ? [=]; subst; eauto.
Qed.

(** A step whose output does not matter, before the rest. *)
Lemma inspects_skip {A B} d s (Q : A → list output → Prop)
    (R : B → list output → Prop) m k :
  inspects_at d s Q m →
  (∀ a s1, marker d s1 = marker d s → (∃ o, Q a o) → inspects_at d s1 R (k a)) →
  (∀ b o1 o2, R b o2 → R b (o1 ++ o2)) →
  inspects_at d s R (bind m k).
Proof.
  intros Hm Hk HR. eapply inspects_bind; [exact Hm|].
  intros a s1 out1 Hs1 HQ. eapply inspects_weaken; [apply Hk; eauto|].
  intros b out2. apply HR.
Qed.

(** A step whose output settles the matter, whatever comes after. *)
Lemma inspects_then {A B} d s (P : list output → Prop)
    (R : B → list output → Prop) (m : M A) k :
  inspects_at d s (λ _ o, P o) m →
  (∀ a s1, marker d s1 = marker d s → inspects_at d s1 whatever (k a)) →
  (∀ b o1 o2, P o1 → R b (o1 ++ o2)) →
  inspects_at d s R (bind m k).
Proof.
  intros Hm Hk HR. eapply inspects_bind; [exact Hm|].
  intros a s1 out1 Hs1 HP. eapply inspects_weaken; [by apply Hk|].
  intros b out2 _. by apply HR.
Qed.

Lemma inspects_seq {A B} d s (m : M A) (k : A → M B) :
  inspects_at d s whatever m →
  (∀ a s1, marker d s1 = marker d s → inspects_at d s1 whatever (k a)) →
  inspects_at d s whatever (bind m k).
Proof. intros Hm Hk. eapply inspects_skip; [exact Hm| |done]. eauto. Qed.

Lemma inspects_lift {A} d s (r : js_error + A) : inspects_at d s whatever (lift r).
Proof. destruct r; [apply inspects_throw | by apply inspects_ret]. Qed.

Lemma inspects_console_log d s text :
  inspects_at d s (λ _ o, o = [OutLine text]) (console_log text).
Proof. split; [done|]. by exists [OutLine text]. Qed.

Lemma inspects_writeJson d s payload :
  inspects_at d s (λ _ o, o = [OutJson payload]) (writeJson payload).
Proof. split; [done|]. by exists [OutJson payload]. Qed.

Lemma read_unchanged storeDir s :
  readStoreLock storeDir s = (Normal (status_of storeDir (marker storeDir s)), s).
Proof.
  destruct (marker storeDir s) as [content|] eqn:Hm.
  - by rewrite (read_present _ _ _ Hm).
  - by rewrite (read_absent _ _ Hm).
Qed.

Lemma inspects_read d s :
  inspects_at d s (λ lock _, lock = status_of d (marker d s)) (readStoreLock d).
Proof.
  unfold inspects_at. rewrite read_unchanged. simpl.
  split; [done|]. exists []. rewrite app_nil_r.
  split; [done|]. by intros ? [= <-].
Qed.

Lemma acquire_outcome proc storeDir s s' :
  marker storeDir s' = marker storeDir s →
  succeeded (fst (acquireStoreLock proc storeDir s'))
  = succeeded (fst (acquireStoreLock proc storeDir s)).
Proof.
  intros Hm. destruct (marker storeDir s) as [content|] eqn:Hs.
  - by rewrite (acquire_held _ _ _ _ Hs), (acquire_held _ _ _ _ Hm).
  - by rewrite (acquire_free _ _ _ Hs), (acquire_free _ _ _ Hm).
Qed.

Section Doctor.
Variable new_TelegramClient : string → M telegram_client.
Variable new_MessageSyncService : telegram_client → sync_options → M sync_service.
Variable proc : process.
Variable globalFlags : global_flags.
Local Abbreviation storeDir := (resolveStoreDir proc (store globalFlags)).
Hypothesis client_frame :
  ∀ sessionPath, inspects storeDir (λ c _, client_keeps storeDir c)
                   (new_TelegramClient sessionPath).
Hypothesis service_frame :
  ∀ client options, inspects storeDir (λ v _, service_keeps storeDir v)
                      (new_MessageSyncService client options).

Lemma inspects_createServices s :
  inspects_at storeDir s
    (λ cs _, client_keeps storeDir cs.1 ∧ service_keeps storeDir cs.2)
    (createServices new_TelegramClient new_MessageSyncService storeDir).
Proof.
  unfold createServices.
  eapply inspects_skip; [apply client_frame| |done]. intros c s1 _ [_ Hc].
  eapply inspects_skip; [apply service_frame| |done]. intros v s2 _ [_ Hv].
  by apply inspects_ret.
Qed.

(** The text lines of the report after the [LOCKED] line, and the end of
    the command, add to the output only. *)
Lemma inspects_lines s (lines : list string) :
  inspects_at storeDir s whatever
    (foldr (λ text rest, console_log text >> rest) (ret Finished) lines).
Proof.
  revert s. induction lines as [|text lines IH]; intros s; simpl.
  - by apply inspects_ret.
  - apply inspects_seq; [|by intros].
    eapply inspects_weaken; [apply inspects_console_log|done].
Qed.

Lemma inspects_runDoctor args s :
  inspects_at storeDir s
    (λ _ out, ∃ o, o ∈ out
                   ∧ reports_lock (json globalFlags) storeDir (marker storeDir s) o)
    (runDoctor new_TelegramClient new_MessageSyncService proc globalFlags args).
Proof.
  assert (∀ (b : session) (o1 o2 : list output),
            (∃ o, o ∈ o2 ∧ reports_lock (json globalFlags) storeDir
                               (marker storeDir s) o) →
            ∃ o, o ∈ o1 ++ o2 ∧ reports_lock (json globalFlags) storeDir
                                   (marker storeDir s) o) as Hlater.
  { intros _ o1 o2 (o & Ho & Hr). exists o. split; [|done].
    apply elem_of_app. by right. }
  unfold runDoctor.
  eapply inspects_skip; [apply inspects_lift| |exact Hlater].
  intros [flags rest] s1 Hs1 _.
  eapply inspects_skip; [apply inspects_read| |exact Hlater].
  intros lock s2 Hs2 [_ ->]. rewrite Hs1.
  eapply inspects_skip; [apply inspects_createServices| |exact Hlater].
  intros [c v] s3 Hs3
    [_ [(Hauth & _ & _ & Hstart & Hdestroy) (Hsearch & Hstats & _ & _ & _ & Hshut)]].
  simpl in *.
  eapply inspects_try_finally.
  - eapply inspects_skip; [| |exact Hlater].
    + apply inspects_try_catch with (R := whatever).
      * apply inspects_seq; [apply Hauth|]. intros authenticated s4 _.
        destruct (_ && _).
        -- apply inspects_seq; [apply Hstart|]. intros _ s5 _. by apply inspects_ret.
        -- by apply inspects_ret.
      * intros e s4 out1 _. by apply inspects_ret.
    + intros [authenticated connected] s4 Hs4 _.
      eapply inspects_skip; [apply Hsearch| |exact Hlater]. intros search s5 Hs5 _.
      eapply inspects_skip; [apply Hstats| |exact Hlater]. intros queue s6 Hs6 _.
      unfold reports_lock. destruct (json globalFlags).
      * eapply inspects_then; [apply inspects_writeJson| |].
        -- intros _ s7 _. by apply inspects_ret.
        -- intros _ o1 o2 ->. eexists. split; [apply elem_of_app; left; by left|].
           by eexists.
      * eapply inspects_skip; [apply inspects_console_log| |exact Hlater].
        intros _ s7 Hs7 _.
        eapply inspects_then; [apply inspects_console_log| |].
        -- intros _ s8 _.
           apply (inspects_lines s8 [_; _; _; _]).
        -- intros _ o1 o2 ->. eexists. split; [apply elem_of_app; left; by left|].
           done.
  - intros s4 Hs4. apply inspects_seq; [apply Hshut|]. intros _ s5 _. apply Hdestroy.
  - intros a o1 o2 (o & Ho & Hr). exists o. split; [|done].
    apply elem_of_app. by left.
Qed.

End Doctor.

(** C6. [readStoreLock] reports whether the marker exists and its trimmed
    text and leaves the whole state as it is.  The [doctor] command, run
    with collaborators that do not touch the marker and only add to the
    standard output, leaves the marker of its store directory as it is,
    and when it returns its output has the report of the marker as it was.
    So an acquisition attempt made after either of them succeeds or fails
    as it would have before. *)
Theorem inspection_keeps_lock
    (new_TelegramClient : string → M telegram_client)
    (new_MessageSyncService : telegram_client → sync_options → M sync_service)
    (proc : process) (globalFlags : global_flags) (args : list string) (s : state) :
  let storeDir := resolveStoreDir proc (store globalFlags) in
  let doctor :=
    runDoctor new_TelegramClient new_MessageSyncService proc globalFlags args s in
  (∀ sessionPath, inspects storeDir (λ c _, client_keeps storeDir c)
                    (new_TelegramClient sessionPath)) →
  (∀ client options, inspects storeDir (λ v _, service_keeps storeDir v)
                       (new_MessageSyncService client options)) →
  readStoreLock storeDir s
  = (Normal (StoreLock.MkStatus (bool_decide (is_Some (marker storeDir s)))
               (lockPath storeDir) (Js.trim <$> marker storeDir s)), s)
  ∧ marker storeDir doctor.2 = marker storeDir s
  ∧ (∃ out, stdout doctor.2 = stdout s ++ out
            ∧ ∀ x, doctor.1 = Normal x →
                   ∃ o, o ∈ out
                        ∧ reports_lock (json globalFlags) storeDir
                            (marker storeDir s) o)
  ∧ ∀ proc' s', disk s' = disk doctor.2 →
      succeeded (fst (acquireStoreLock proc' storeDir s'))
      = succeeded (fst (acquireStoreLock proc' storeDir s)).
Proof.
  intros storeDir doctor Hclient Hservice.
  destruct (inspects_runDoctor _ _ proc globalFlags Hclient Hservice args s)
    as (Hkept & Hreport).
  split; [apply read_unchanged|]. split; [done|]. split; [done|].
  intros proc' s' Hdisk. apply acquire_outcome.
  by rewrite (marker_same_disk _ _ _ Hdisk).
Qed.

End Inspection.

(** ** A held lock ends the command *)

Section LockFailure.
Context `{Platform}.
Import Cli StoreLock.
Variable new_TelegramClient : string → M telegram_client.
Variable new_MessageSyncService : telegram_client → sync_options → M sync_service.
Variable proc : process.

Lemma runSync_locked fuel globalFlags args content s :
  takes_lock "sync" args = true →
  marker (resolveStoreDir proc (store globalFlags)) s = Some content →
  runSync new_TelegramClient new_MessageSyncService proc fuel globalFlags args s
  = (Throw (lock_held_error (resolveStoreDir proc (store globalFlags)) content),
     refused (resolveStoreDir proc (store globalFlags)) s).
Proof.
  unfold takes_lock. simpl. intros Hparse Hm.
  unfold runSync. destruct (parseFlags args sync_spec) as [e|[flags rest]]; [done|].
  unfold bind at 1. simpl. unfold bind at 1.
  by rewrite (acquire_held _ _ _ _ Hm).
Qed.

Lemma runAuth_locked globalFlags args content s :
  takes_lock "auth" args = true →
  marker (resolveStoreDir proc (store globalFlags)) s = Some content →
  runAuth new_TelegramClient new_MessageSyncService proc globalFlags args s
  = (Throw (lock_held_error (resolveStoreDir proc (store globalFlags)) content),
     refused (resolveStoreDir proc (store globalFlags)) s).
Proof.
  unfold takes_lock. simpl. intros Hparse Hm.
  unfold runAuth.
  destruct (parseFlags args [("follow", "boolean")]) as [e|[flags rest]]; [done|].
  unfold bind at 1. simpl.
  apply negb_true_iff, bool_decide_eq_false in Hparse.
  destruct (decide (head rest = Some "status")); [done|].
  destruct (decide (head rest = Some "logout")).
  - unfold bind at 1. by rewrite (acquire_held _ _ _ _ Hm).
  - unfold bind at 1. by rewrite (acquire_held _ _ _ _ Hm).
Qed.

Lemma takes_lock_command command args :
  takes_lock command args = true → command = "auth" ∨ command = "sync".
Proof.
  unfold takes_lock. repeat case_decide; auto. done.
Qed.

(** C4, as amended. When a command that takes the lock finds the marker of
    its store directory, [main] ends at once with exit code 1: a plain
    [Error] is raised whose message is the sentence
    [Store is locked by another process] followed by the trimmed text of
    the marker in parentheses when there is one, and standard error
    receives this message on a line, or as the [error] field of a JSON
    object when [--json] is among the arguments.  Nothing is printed on
    standard output, no time passes, and the files are as before: there
    is no second attempt. *)
Theorem lock_failure_reported fuel globalFlags command args content s :
  parseGlobalFlags (drop 2 (argv proc)) = inr (globalFlags, command :: args) →
  help globalFlags = false →
  takes_lock command args = true →
  marker (resolveStoreDir proc (store globalFlags)) s = Some content →
  ∃ e s',
    e = new_Error (lock_held_message +:+
                   (if Js.truthy (Js.trim content)
                    then " (" +:+ Js.trim content +:+ ")" else ""))
    ∧ main new_TelegramClient new_MessageSyncService proc fuel s
      = (Normal (Exit 1), s')
    ∧ stderr s' = stderr s +:+
                  error_report (err_message e) (bool_decide ("--json" ∈ argv proc))
    ∧ stdout s' = stdout s
    ∧ clock s' = clock s
    ∧ cells s' = cells s
    ∧ files (disk s') = files (disk s).
Proof.
  intros Hglobal Hhelp Htakes Hm.
  eexists _, (set_stderr
                (λ text, text +:+
                   error_report
                     (lock_held_message +:+
                      (if Js.truthy (Js.trim content)
                       then " (" +:+ Js.trim content +:+ ")" else ""))
                     (bool_decide ("--json" ∈ argv proc)))
                (refused (resolveStoreDir proc (store globalFlags)) s)).
  split; [reflexivity|]. split; [|by repeat split].
  unfold main, try_catch. rewrite Hglobal. unfold bind at 1. simpl.
  rewrite Hhelp.
  destruct (takes_lock_command _ _ Htakes) as [-> | ->]; simpl.
  - unfold bind at 1. rewrite (runAuth_locked _ _ _ _ Htakes Hm).
    unfold writeError, error_report, lock_held_error, lock_details, bind, modify, ret.
    simpl. by destruct (bool_decide _).
  - unfold bind at 1. rewrite (runSync_locked _ _ _ _ _ Htakes Hm).
    unfold writeError, error_report, lock_held_error, lock_details, bind, modify, ret.
    simpl. by destruct (bool_decide _).
Qed.

End LockFailure.

(** ** The idle monitor *)

Section IdleMonitor.
Import Cli.
Variable service : sync_service.
Variable obs : Z → queue_stats.
Hypothesis snapshot : observes service obs.

Lemma quiet_test (q : queue_stats) :
  negb (processing q) && (pending q + in_progress q =? 0)%N = quiet q.
Proof.
  unfold quiet. rewrite <- andb_assoc. f_equal.
  destruct (pending q), (in_progress q); done.
Qed.

(** A busy poll discards the timer. *)
Lemma wait_step_busy fuel limit idleStart s :
  quiet (obs (clock s)) = false →
  waitForIdle_from (S fuel) service limit idleStart s
  = waitForIdle_from fuel service limit None (set_clock (λ t, t + 500) s).
Proof.
  intros Hq. simpl. unfold bind at 1. rewrite snapshot.
  unfold bind at 1. rewrite quiet_test, Hq. done.
Qed.

(** A quiet poll inside the window keeps, or starts, the timer. *)
Lemma wait_step_quiet fuel limit idleStart s :
  quiet (obs (clock s)) = true →
  Num.ge_limit
    (clock s - (if not_set idleStart then clock s else default 0 idleStart))
    limit = false →
  waitForIdle_from (S fuel) service limit idleStart s
  = waitForIdle_from fuel service limit
      (Some (if not_set idleStart then clock s else default 0 idleStart))
      (set_clock (λ t, t + 500) s).
Proof.
  intros Hq Hlimit. simpl. unfold bind at 1. rewrite snapshot.
  unfold bind at 1. rewrite quiet_test, Hq. simpl.
  unfold bind at 1.
  destruct (not_set idleStart); unfold Date_now, get, ret, bind; simpl;
    by rewrite Hlimit.
Qed.

(** A quiet poll that completes the window returns. *)
Lemma wait_step_done fuel limit idleStart s :
  quiet (obs (clock s)) = true →
  Num.ge_limit
    (clock s - (if not_set idleStart then clock s else default 0 idleStart))
    limit = true →
  waitForIdle_from (S fuel) service limit idleStart s = (Normal tt, s).
Proof.
  intros Hq Hlimit. simpl. unfold bind at 1. rewrite snapshot.
  unfold bind at 1. rewrite quiet_test, Hq. simpl.
  unfold bind at 1.
  destruct (not_set idleStart); unfold Date_now, get, ret, bind; simpl;
    by rewrite Hlimit.
Qed.

Section Run.
Variables t0 w : Z.
Hypothesis started_after_epoch : 0 < t0.

Lemma poll_time_succ k : poll_time t0 (S k) = poll_time t0 k + 500.
Proof. unfold poll_time. lia. Qed.

Lemma poll_time_positive k : 0 < poll_time t0 k.
Proof. unfold poll_time. lia. Qed.

(** The timer at a quiet poll is the start of the quiet run. *)
Lemma streak_start k idleStart :
  streak_state obs t0 k idleStart →
  quiet (obs (poll_time t0 k)) = true →
  ∃ j, (j ≤ k)%nat
       ∧ (if not_set idleStart then poll_time t0 k else default 0 idleStart)
         = poll_time t0 j
       ∧ (∀ i, (j ≤ i ≤ k)%nat → quiet (obs (poll_time t0 i)) = true)
       ∧ (j = 0%nat ∨ ∃ j', j = S j' ∧ quiet (obs (poll_time t0 j')) = false).
Proof.
  intros Hstate Hq. destruct idleStart as [ts|]; simpl in *.
  - destruct Hstate as (j & Hj & -> & Hrun & Hbefore).
    exists j. split; [lia|]. split.
    + pose proof (poll_time_positive j).
      destruct (poll_time t0 j =? 0) eqn:E; [lia|done].
    + split; [|done]. intros i Hi.
      destruct (decide (i = k)) as [->|]; [done|]. apply Hrun. lia.
  - exists k. split; [lia|]. split; [done|]. split.
    + intros i Hi. by replace i with k by lia.
    + destruct Hstate as [->|(k' & -> & Hk')]; eauto.
Qed.

(** A run that satisfies the window starts no later than the timer. *)
Lemma streak_start_least k j j0 :
  (j ≤ k)%nat → (j0 ≤ k)%nat →
  (∀ i, (j0 ≤ i ≤ k)%nat → quiet (obs (poll_time t0 i)) = true) →
  (j = 0%nat ∨ ∃ j', j = S j' ∧ quiet (obs (poll_time t0 j')) = false) →
  (j ≤ j0)%nat.
Proof.
  intros Hj Hj0 Hrun [->|(j' & -> & Hbusy)]; [lia|].
  destruct (decide (S j' ≤ j0)%nat); [done|].
  rewrite Hrun in Hbusy by lia. done.
Qed.

(** One poll before the window is complete. *)
Lemma wait_step_before fuel k idleStart s :
  ¬ sustained obs t0 w k →
  streak_state obs t0 k idleStart →
  clock s = poll_time t0 k →
  ∃ idleStart',
    waitForIdle_from (S fuel) service (Some (Num.Fin w)) idleStart s
    = waitForIdle_from fuel service (Some (Num.Fin w)) idleStart'
        (set_clock (λ t, t + 500) s)
    ∧ streak_state obs t0 (S k) idleStart'.
Proof.
  intros Hnot Hstate Hclock.
  destruct (quiet (obs (poll_time t0 k))) eqn:Hq.
  - destruct (streak_start _ _ Hstate Hq) as (j & Hj & Hts & Hrun & Hbefore).
    eexists. split.
    + apply wait_step_quiet; rewrite Hclock; [done|].
      rewrite Hts. simpl. apply Z.leb_gt.
      destruct (decide (w ≤ poll_time t0 k - poll_time t0 j)); [|lia].
      destruct Hnot. by exists j.
    + rewrite Hclock, Hts. exists j. split; [lia|]. split; [done|].
      split; [|done]. intros i Hi. apply Hrun. lia.
  - exists None. split.
    + apply wait_step_busy. by rewrite Hclock.
    + right. eauto.
Qed.

Section Returns.
Variable n : nat.
Hypothesis window_complete : sustained obs t0 w n.
Hypothesis not_earlier : ∀ k, (k < n)%nat → ¬ sustained obs t0 w k.

Lemma wait_runs m :
  ∀ k idleStart s extra,
    (k + m = n)%nat →
    streak_state obs t0 k idleStart →
    clock s = poll_time t0 k →
    waitForIdle_from (S m + extra) service (Some (Num.Fin w)) idleStart s
    = (Normal tt, set_clock (λ _, poll_time t0 n) s).
Proof.
  induction m as [|m IH]; intros k idleStart s extra Hk Hstate Hclock.
  - assert (k = n) as -> by lia.
    destruct window_complete as (j0 & Hj0 & Hrun0 & Hw).
    assert (quiet (obs (poll_time t0 n)) = true) as Hq by (apply Hrun0; lia).
    destruct (streak_start _ _ Hstate Hq) as (j & Hj & Hts & Hrun & Hbefore).
    pose proof (streak_start_least _ _ _ Hj Hj0 Hrun0 Hbefore) as Hle.
    rewrite wait_step_done.
    + f_equal. destruct s; simpl in *. by subst.
    + by rewrite Hclock.
    + rewrite Hclock, Hts. simpl. apply Z.leb_le.
      unfold poll_time in *. lia.
  - change (S (S m) + extra)%nat with (S (S m + extra)).
    destruct (wait_step_before (S m + extra) k idleStart s)
      as (idleStart' & -> & Hstate'); [apply not_earlier; lia|done..|].
    rewrite (IH (S k)); [done|lia|done|].
    simpl. rewrite Hclock. by rewrite poll_time_succ.
Qed.

Lemma wait_pending fuel :
  ∀ k idleStart s,
    (k + fuel ≤ n)%nat →
    streak_state obs t0 k idleStart →
    clock s = poll_time t0 k →
    fst (waitForIdle_from fuel service (Some (Num.Fin w)) idleStart s) = Pending.
Proof.
  induction fuel as [|fuel IH]; intros k idleStart s Hk Hstate Hclock; [done|].
  destruct (wait_step_before fuel k idleStart s)
    as (idleStart' & -> & Hstate'); [apply not_earlier; lia|done..|].
  apply (IH (S k)); [lia|done|].
  simpl. rewrite Hclock. by rewrite poll_time_succ.
Qed.

End Returns.

(** With a queue that settles at [q], the first poll that completes a
    window of 2000 ms. *)
Lemma settles_sustained q :
  settles obs q →
  let j := Z.to_nat ((q - t0 + 499) / 500) in
  sustained obs t0 2000 (j + 4)
  ∧ (∀ k, (k < j + 4)%nat → ¬ sustained obs t0 2000 k)
  ∧ Z.max q t0 + 2000 ≤ poll_time t0 (j + 4) < Z.max q t0 + 2500.
Proof.
  intros [Hbusy Hquiet] j.
  assert (q ≤ poll_time t0 j) as Hreached.
  { unfold poll_time, j.
    destruct (decide (q - t0 + 499 < 0)).
    - rewrite Z2Nat.nonpos; [lia|]. apply Z.div_le_upper_bound; lia.
    - rewrite Z2Nat.id by (apply Z.div_pos; lia).
      pose proof (Z.mul_succ_div_gt (q - t0 + 499) 500). lia. }
  assert (∀ i, (i < j)%nat → poll_time t0 i < q) as Hnot_yet.
  { intros i Hi. unfold poll_time. unfold j in Hi.
    assert (0 < (q - t0 + 499) / 500) as Hpos by lia.
    rewrite Nat2Z.inj_lt, Z2Nat.id in Hi by lia.
    pose proof (Z.mul_div_le (q - t0 + 499) 500). lia. }
  split; [|split].
  - exists j. split; [lia|]. split.
    + intros i Hi. apply Hquiet. unfold poll_time in *. lia.
    + unfold poll_time. lia.
  - intros k Hk (j' & Hj' & Hrun & Hw).
    assert (j' < j)%nat as Hearly by (unfold poll_time in Hw; lia).
    specialize (Hrun j' ltac:(lia)).
    rewrite Hbusy in Hrun by (by apply Hnot_yet). done.
  - destruct (decide (j = 0%nat)) as [Hj0|Hj0].
    + assert (q ≤ t0) by (rewrite Hj0 in Hreached; unfold poll_time in *; lia).
      rewrite Hj0. unfold poll_time. lia.
    + assert (poll_time t0 (j - 1) < q) as Hprev by (apply Hnot_yet; lia).
      unfold poll_time in *. lia.
Qed.

End Run.

(** C5. For a monitor started at time [t0] on a service whose snapshot is
    a function of the time, with polls 500 ms apart: it returns at the
    first poll that ends a run of quiet polls spanning at least the
    window, and not before, so that the quiet run it has seen is shorter
    than the window plus one poll interval; a busy poll discards the
    timer; and with a window of 2000 ms on a queue that settles at time
    [q] it returns at least 2000 ms and less than 2500 ms after the later
    of [q] and the start. *)
Theorem idle_exit_after_sustained_quiet (t0 : Z) (s : state) :
  0 < t0 →
  clock s = t0 →
  (∀ w n,
     sustained obs t0 w n →
     (∀ k, (k < n)%nat → ¬ sustained obs t0 w k) →
     (∀ extra, waitForIdle (S n + extra) service (Some (Num.Fin w)) s
               = (Normal tt, set_clock (λ _, poll_time t0 n) s))
     ∧ (∀ fuel, (fuel ≤ n)%nat →
                fst (waitForIdle fuel service (Some (Num.Fin w)) s) = Pending)
     ∧ (0 ≤ w →
        ∀ j, (j ≤ n)%nat →
             (∀ i, (j ≤ i ≤ n)%nat → quiet (obs (poll_time t0 i)) = true) →
             poll_time t0 n - poll_time t0 j < w + 500))
  ∧ (∀ fuel limit idleStart s',
       quiet (obs (clock s')) = false →
       waitForIdle_from (S fuel) service limit idleStart s'
       = waitForIdle_from fuel service limit None (set_clock (λ t, t + 500) s'))
  ∧ (∀ q, settles obs q →
       ∃ n, waitForIdle (S n) service (Some (Num.Fin 2000)) s
            = (Normal tt, set_clock (λ _, poll_time t0 n) s)
            ∧ Z.max q t0 + 2000 ≤ poll_time t0 n < Z.max q t0 + 2500).
Proof.
  intros Ht0 Hclock. split; [|split].
  - intros w n Hn Hfirst. split; [|split].
    + intros extra. apply (wait_runs t0 w Ht0 n Hn Hfirst n 0%nat); [lia| |].
      * by left.
      * unfold poll_time. lia.
    + intros fuel Hfuel.
      apply (wait_pending t0 w Ht0 n Hfirst fuel 0%nat); [lia| |].
      * by left.
      * unfold poll_time. lia.
    + intros Hw j Hj Hrun.
      destruct (decide (poll_time t0 n - poll_time t0 j < w + 500)); [done|].
      assert (j < n)%nat as Hlt by (unfold poll_time in *; lia).
      destruct (Hfirst (n - 1)%nat ltac:(lia)).
      exists j. split; [lia|]. split.
      * intros i Hi. apply Hrun. lia.
      * unfold poll_time in *. lia.
  - intros fuel limit idleStart s'. apply wait_step_busy.
  - intros q Hq. destruct (settles_sustained t0 q Hq) as (Hn & Hfirst & Hbound).
    eexists. split; [|exact Hbound].
    replace (S (Z.to_nat ((q - t0 + 499) / 500) + 4))
      with (S (Z.to_nat ((q - t0 + 499) / 500) + 4) + 0)%nat by lia.
    apply (wait_runs t0 2000 Ht0 _ Hn Hfirst _ 0%nat); [lia| |].
    + by left.
    + unfold poll_time. lia.
Qed.

End IdleMonitor.

(** ** Durations *)

Section Durations.
Import Cli.

Lemma every_impl (p q : ascii → bool) (s : string) :
  (∀ c, p c = true → q c = true) → every p s = true → every q s = true.
Proof.
  intros Hpq. induction s as [|c s IH]; [done|]. simpl.
  intros [Hc Hs]%andb_true_iff. by rewrite (Hpq c Hc), IH.
Qed.

Lemma digit_not_white c : Js.is_digit c = true → not_white c = true.
Proof. destruct c as [[] [] [] [] [] [] [] []]; done. Qed.

Lemma trimEnd_no_white (s : string) :
  every not_white s = true → Js.trimEnd s = s.
Proof.
  induction s as [|c s IH]; [done|]. simpl.
  intros [Hc Hs]%andb_true_iff. rewrite (IH Hs).
  unfold not_white in Hc. apply negb_true_iff in Hc. by rewrite Hc.
Qed.

Lemma trim_padded (pre body post : string) :
  every Js.is_white pre = true → every Js.is_white post = true →
  every not_white body = true →
  Js.trim (pre +:+ body +:+ post) = body.
Proof.
  intros Hpre Hpost Hbody. unfold Js.trim. rewrite (trimStart_white _ _ Hpre).
  destruct body as [|c body].
  - change ("" +:+ post) with post.
    destruct (trimStart_split post) as (p & Hp & Heq).
    assert (every Js.is_white (Js.trimStart post) = true) as Hw.
    { rewrite Heq, every_app in Hpost. by apply andb_true_iff in Hpost as [_ ?]. }
    by apply trimEnd_white.
  - simpl in Hbody. apply andb_true_iff in Hbody as [Hc Hbody].
    rewrite string_app_cons, trimStart_head
      by (unfold not_white in Hc; by apply negb_true_iff in Hc).
    rewrite <- string_app_cons, (trimEnd_app_white _ _ Hpost).
    apply trimEnd_no_white. simpl. by rewrite Hc, Hbody.
Qed.

Lemma span_digits_app (ds rest : string) :
  every Js.is_digit ds = true →
  match rest with
  | EmptyString => True
  | String c _ => Js.is_digit c = false
  end →
  span_digits (ds +:+ rest) = (ds, rest).
Proof.
  intros Hds Hrest. induction ds as [|c ds IH].
  - change ("" +:+ rest) with rest. destruct rest as [|c r]; [done|].
    simpl. by rewrite Hrest.
  - simpl in Hds. apply andb_true_iff in Hds as [Hc Hds].
    rewrite string_app_cons. simpl. by rewrite Hc, (IH Hds).
Qed.

Lemma span_digits_spec (s ds rest : string) :
  span_digits s = (ds, rest) →
  s = ds +:+ rest ∧ every Js.is_digit ds = true.
Proof.
  revert ds rest. induction s as [|c s IH]; intros ds rest; simpl.
  - by intros [= <- <-].
  - destruct (Js.is_digit c) eqn:Hc.
    + destruct (span_digits s) as [ds' rest'] eqn:Hs. intros [= <- <-].
      destruct (IH _ _ eq_refl) as [-> Hds].
      split; [done|]. simpl. by rewrite Hc.
    + by intros [= <- <-].
Qed.

(** The suffixes of the grammar, spelled out. *)
Lemma unit_of_suffix_cases suffix u :
  unit_of_suffix suffix = Some u →
  (suffix = "" ∧ u = Seconds)
  ∨ (suffix ∈ ["ms"; "mS"; "Ms"; "MS"] ∧ u = Millis)
  ∨ (suffix ∈ ["s"; "S"] ∧ u = Seconds)
  ∨ (suffix ∈ ["m"; "M"] ∧ u = Minutes)
  ∨ (suffix ∈ ["h"; "H"] ∧ u = Hours).
Proof.
  unfold unit_of_suffix. repeat case_bool_decide; intros [= <-]; eauto 10.
Qed.

Lemma match_duration_grammar ds suffix u :
  every Js.is_digit ds = true → ds ≠ "" →
  unit_of_suffix suffix = Some u →
  match_duration (ds +:+ suffix)
  = Some (ds, if Js.is_empty suffix then None else Some suffix).
Proof.
  intros Hds Hne Hu. unfold match_duration.
  rewrite span_digits_app; [|done|].
  - destruct ds; [done|]. simpl.
    destruct (unit_of_suffix_cases _ _ Hu)
      as [[-> _]|[[H _]|[[H _]|[[H _]|[H _]]]]]; [done|..];
      set_unfold; destruct_or!; subst; done.
  - destruct (unit_of_suffix_cases _ _ Hu)
      as [[-> _]|[[H _]|[[H _]|[[H _]|[H _]]]]]; [done|..];
      set_unfold; destruct_or!; subst; done.
Qed.

Lemma parse_grammar ds suffix u :
  unit_of_suffix suffix = Some u →
  (let amount := Num.of_digits ds in
   let unit :=
     Js.toLowerCase
       match (if Js.is_empty suffix then None else Some suffix) with
       | Some x => if Js.truthy x then x else "s"
       | None => "s"
       end in
   if decide (unit = "ms") then inr (Some amount)
   else if decide (unit = "s") then inr (Some (Num.mul amount 1000))
   else if decide (unit = "m") then inr (Some (Num.mul (Num.mul amount 60) 1000))
   else if decide (unit = "h")
        then inr (Some (Num.mul (Num.mul (Num.mul amount 60) 60) 1000))
   else inr (Some (Num.mul amount 1000)))
  = (inr (Some (in_ms (Num.of_digits ds) u)) : js_error + option Num.number).
Proof.
  intros Hu.
  destruct (unit_of_suffix_cases _ _ Hu)
    as [[-> ->]|[[H ->]|[[H ->]|[[H ->]|[H ->]]]]]; [done|..];
    set_unfold; destruct_or!; subst; done.
Qed.

Lemma parseDuration_accepts text digits u :
  is_duration text digits u →
  parseDuration (VStr text) = inr (Some (in_ms (Num.of_digits digits) u)).
Proof.
  intros (pre & suffix & post & Hpre & Hpost & Hds & Hne & Hu & ->).
  assert (every not_white (digits +:+ suffix) = true) as Hbody.
  { rewrite every_app. apply andb_true_iff. split.
    - eapply every_impl; [apply digit_not_white|done].
    - destruct (unit_of_suffix_cases _ _ Hu)
        as [[-> _]|[[H _]|[[H _]|[[H _]|[H _]]]]]; [done|..];
        set_unfold; destruct_or!; subst; done. }
  unfold parseDuration.
  rewrite <- (string_app_assoc digits suffix post).
  rewrite (trim_padded _ _ _ Hpre Hpost Hbody).
  assert (Js.truthy (digits +:+ suffix) = true) as -> by (by destruct digits).
  simpl. rewrite (match_duration_grammar _ _ _ Hds Hne Hu).
  by apply parse_grammar.
Qed.

Lemma lower_char_m c : Js.lower_char c = "m"%char → c = "m"%char ∨ c = "M"%char.
Proof. destruct c as [[] [] [] [] [] [] [] []]; vm_compute; intros; auto; done. Qed.

Lemma lower_char_s c : Js.lower_char c = "s"%char → c = "s"%char ∨ c = "S"%char.
Proof. destruct c as [[] [] [] [] [] [] [] []]; vm_compute; intros; auto; done. Qed.

Lemma lower_char_h c : Js.lower_char c = "h"%char → c = "h"%char ∨ c = "H"%char.
Proof. destruct c as [[] [] [] [] [] [] [] []]; vm_compute; intros; auto; done. Qed.

Lemma toLowerCase_one rest x :
  Js.toLowerCase rest = String x "" →
  ∃ c, rest = String c "" ∧ Js.lower_char c = x.
Proof. destruct rest as [|c [|c' r]]; simpl; intros [=]; eauto. Qed.

Lemma toLowerCase_two rest x y :
  Js.toLowerCase rest = String x (String y "") →
  ∃ c d, rest = String c (String d "") ∧ Js.lower_char c = x ∧ Js.lower_char d = y.
Proof. destruct rest as [|c [|d [|e r]]]; simpl; intros [=]; eauto. Qed.

(** A suffix the pattern accepts is a suffix of the grammar. *)
Lemma lower_suffix rest :
  Js.toLowerCase rest ∈ suffix_alternatives → is_Some (unit_of_suffix rest).
Proof.
  unfold suffix_alternatives. intros Hin. set_unfold.
  destruct Hin as [Hin|[Hin|[Hin|[Hin|[]]]]].
  - apply toLowerCase_two in Hin as (c & d & -> & Hc & Hd).
    destruct (lower_char_m c Hc) as [-> | ->];
      destruct (lower_char_s d Hd) as [-> | ->]; done.
  - apply toLowerCase_one in Hin as (c & -> & Hc).
    destruct (lower_char_s c Hc) as [-> | ->]; done.
  - apply toLowerCase_one in Hin as (c & -> & Hc).
    destruct (lower_char_m c Hc) as [-> | ->]; done.
  - apply toLowerCase_one in Hin as (c & -> & Hc).
    destruct (lower_char_h c Hc) as [-> | ->]; done.
Qed.

Lemma match_duration_sound raw ds suffix :
  match_duration raw = Some (ds, suffix) →
  ∃ rest, raw = ds +:+ rest ∧ every Js.is_digit ds = true ∧ ds ≠ ""
          ∧ is_Some (unit_of_suffix rest).
Proof.
  unfold match_duration. destruct (span_digits raw) as [ds' rest] eqn:Hspan.
  apply span_digits_spec in Hspan as [-> Hds].
  destruct ds' as [|c ds']; [done|]. simpl.
  destruct (Js.is_empty rest) eqn:Hrest.
  - intros [= <- <-]. exists rest. destruct rest; [|done]. by eauto.
  - case_bool_decide as Hin; [|done]. intros [= <- <-].
    exists rest. split; [done|]. split; [done|]. split; [done|].
    by apply lower_suffix.
Qed.

Lemma parseDuration_rejects text :
  Js.trim text ≠ "" →
  (¬ ∃ digits u, is_duration text digits u) →
  parseDuration (VStr text) = inl (new_Error ("Invalid duration: " +:+ text)).
Proof.
  intros Hblank Hnot. unfold parseDuration.
  assert (Js.truthy (Js.trim text) = true) as -> by (by destruct (Js.trim text)).
  simpl. destruct (match_duration (Js.trim text)) as [[ds suffix]|] eqn:Hmatch; [|done].
  destruct Hnot.
  apply match_duration_sound in Hmatch as (rest & Hraw & Hds & Hne & [u Hu]).
  destruct (trim_split text) as (pre & post & Hpre & Hpost & Htext).
  exists ds, u, pre, rest, post. repeat (split; [done|]).
  by rewrite Htext at 1; rewrite Hraw, string_app_assoc.
Qed.

Lemma round_exact n : n < 2 ^ 53 → Num.round n = Num.Fin n.
Proof. intros Hn. unfold Num.round. by apply Z.ltb_lt in Hn as ->. Qed.

Lemma decimal_acc_nonneg ds : ∀ acc,
  every Js.is_digit ds = true → 0 ≤ acc → 0 ≤ Num.decimal_acc acc ds.
Proof.
  induction ds as [|c ds IH]; intros acc; [done|]. simpl.
  intros [Hc Hds]%andb_true_iff Hacc. apply IH; [done|].
  assert (0 ≤ Num.digit_value c); [|lia].
  destruct c as [[] [] [] [] [] [] [] []]; done.
Qed.

Lemma in_ms_exact ds u :
  every Js.is_digit ds = true →
  Num.decimal ds * factor u < 2 ^ 53 →
  in_ms (Num.of_digits ds) u = Num.Fin (Num.decimal ds * factor u).
Proof.
  intros Hds Hbound.
  pose proof (decimal_acc_nonneg ds 0 Hds ltac:(done)) as Hpos.
  fold (Num.decimal ds) in Hpos. unfold Num.of_digits.
  destruct u; simpl in *.
  - rewrite round_exact by lia. f_equal. lia.
  - rewrite round_exact by lia. simpl. rewrite round_exact by lia. done.
  - rewrite round_exact by lia. simpl. rewrite round_exact by lia. simpl.
    rewrite round_exact by lia. f_equal. lia.
  - rewrite round_exact by lia. simpl. rewrite round_exact by lia. simpl.
    rewrite round_exact by lia. simpl. rewrite round_exact by lia. f_equal. lia.
Qed.

(** C9. [parseDuration] returns the duration of every text of the grammar
    in milliseconds, the digits converted by [Number] and multiplied as
    JavaScript does (exactly the integer product while it stays below
    2^53), with no suffix meaning seconds; it throws [Invalid duration]
    for every other text that is not blank; and it returns [null] for a
    blank text and for a value that is no string. *)
Theorem parseDuration_total :
  (∀ text digits u,
     is_duration text digits u →
     parseDuration (VStr text) = inr (Some (in_ms (Num.of_digits digits) u))
     ∧ (Num.decimal digits * factor u < 2 ^ 53 →
        parseDuration (VStr text)
        = inr (Some (Num.Fin (Num.decimal digits * factor u)))))
  ∧ (∀ text digits,
       is_duration text digits Seconds →
       parseDuration (VStr text) = inr (Some (Num.mul (Num.of_digits digits) 1000)))
  ∧ (∀ text,
       Js.trim text ≠ "" →
       (¬ ∃ digits u, is_duration text digits u) →
       parseDuration (VStr text) = inl (new_Error ("Invalid duration: " +:+ text)))
  ∧ (∀ text, Js.trim text = "" → parseDuration (VStr text) = inr None)
  ∧ (∀ v, (∀ text, v ≠ VStr text) → parseDuration v = inr None).
Proof.
  split; [|split; [|split; [|split]]].
  - intros text digits u Hd. split; [by apply parseDuration_accepts|].
    intros Hbound. rewrite (parseDuration_accepts _ _ _ Hd).
    destruct Hd as (_ & _ & _ & _ & _ & Hds & _).
    by rewrite in_ms_exact.
  - intros text digits Hd. by rewrite (parseDuration_accepts _ _ _ Hd).
  - apply parseDuration_rejects.
  - intros text Hblank. unfold parseDuration. by rewrite Hblank.
  - intros [| |b|n|text] Hv; try done. by destruct (Hv text).
Qed.

End Durations.

(** ** The mode of [sync] *)

Section SyncMode.
Import Cli.

Lemma flag_set_assign_ne key k v flags :
  key ≠ k → flag_set (assign key v flags) k = flag_set flags k.
Proof.
  intros Hne. unfold flag_set, assign. case_decide; [done|].
  by rewrite lookup_insert_ne.
Qed.

Lemma lookup_assign_ne key k v (flags : gmap string value) :
  key ≠ k → assign key v flags !! k = flags !! k.
Proof.
  intros Hne. unfold assign. case_decide; [done|]. by rewrite lookup_insert_ne.
Qed.

Lemma flag_set_assign_true k (flags : gmap string value) :
  k ≠ "__proto__" → flag_set (assign k (VBool true) flags) k = true.
Proof.
  intros Hk. unfold flag_set, assign. case_decide; [done|].
  by rewrite lookup_insert_eq.
Qed.

(** The rules of [sync]: two flags, one option with a value, and the
    inherited names. *)
Lemma sync_rule key rule :
  spec_lookup sync_spec key = Some rule →
  if is_boolean rule then key = "once" ∨ key = "follow"
  else key ≠ "once" ∧ key ≠ "follow".
Proof.
  unfold spec_lookup, sync_spec. simpl.
  repeat case_decide; subst; try (intros [= <-]; simpl; by auto).
Qed.

Lemma sync_rule_none key :
  spec_lookup sync_spec key = None →
  key ≠ "once" ∧ key ≠ "follow" ∧ key ≠ "idle-exit".
Proof.
  unfold spec_lookup, sync_spec. simpl.
  repeat case_decide; subst; done.
Qed.

Lemma sync_rule_flag key rule :
  spec_lookup sync_spec key = Some rule → is_boolean rule = true →
  key ≠ "idle-exit" ∧ key ≠ "__proto__".
Proof.
  intros Hrule Hb. pose proof (sync_rule _ _ Hrule) as Hk. rewrite Hb in Hk.
  by destruct Hk as [-> | ->].
Qed.

(** One turn of the loop of [parseFlags]. *)
Lemma parseFlags_from_cons spec arg later flags rest :
  parseFlags_from spec (arg :: later) flags rest
  = if negb (Js.startsWith "--" arg)
    then parseFlags_from spec later flags (rest ++ [arg])
    else
      match spec_lookup spec (option_key arg) with
      | None => parseFlags_from spec later flags (rest ++ [arg])
      | Some rule =>
          if is_boolean rule
          then parseFlags_from spec later
                 (assign (option_key arg) (VBool true) flags) rest
          else
            match (split_arg arg).2, later with
            | Some v, [] => inr (assign (option_key arg) (VStr v) flags, rest)
            | Some v, next :: after =>
                if Js.truthy v
                then parseFlags_from spec later
                       (assign (option_key arg) (VStr v) flags) rest
                else parseFlags_from spec after
                       (assign (option_key arg) (VStr v) flags) rest
            | None, [] =>
                inl (new_Error ("--" +:+ option_key arg +:+ " requires a value"))
            | None, next :: after =>
                parseFlags_from spec after
                  (assign (option_key arg) (VStr next) flags) rest
            end
      end.
Proof. simpl. unfold option_key. by destruct (split_arg arg). Qed.

Lemma names_option_key key arg :
  Js.startsWith "--" arg = true →
  names_option key arg = bool_decide (option_key arg = key).
Proof. intros Hd. unfold names_option. by rewrite Hd. Qed.

Lemma names_option_plain key arg :
  Js.startsWith "--" arg = false → names_option key arg = false.
Proof. intros Hd. unfold names_option. by rewrite Hd. Qed.

Lemma passed_cons spec key arg later :
  passed spec key (arg :: later)
  = names_option key arg ||
    (if swallows_next spec arg
     then match later with
          | [] => false
          | _ :: after => passed spec key after
          end
     else passed spec key later).
Proof. done. Qed.

(** Where no option takes the next argument, an option is passed when it
    is among the arguments. *)
Lemma passed_plain spec key args :
  Forall (λ a, swallows_next spec a = false) args →
  passed spec key args = existsb (names_option key) args.
Proof.
  induction 1 as [|arg later Harg _ IH]; [done|].
  rewrite passed_cons, Harg, IH. done.
Qed.

(** What a successful parse of the arguments of [sync] has set. *)
Lemma parseFlags_from_sync n :
  ∀ args flags0 rest0 flags rest,
    (length args ≤ n)%nat →
    parseFlags_from sync_spec args flags0 rest0 = inr (flags, rest) →
    (∀ k, k = "once" ∨ k = "follow" →
          flag_set flags k = flag_set flags0 k || passed sync_spec k args)
    ∧ (passed sync_spec "idle-exit" args = false →
       flags !! "idle-exit" = flags0 !! "idle-exit").
Proof.
  induction n as [|n IH]; intros args flags0 rest0 flags rest Hlen.
  { destruct args; [|simpl in Hlen; lia]. intros [= <- <-].
    split; [|done]. intros k _. by rewrite orb_false_r. }
  destruct args as [|arg later].
  { intros [= <- <-]. split; [|done]. intros k _. by rewrite orb_false_r. }
  simpl in Hlen.
  rewrite parseFlags_from_cons. setoid_rewrite passed_cons.
  unfold swallows_next.
  destruct (Js.startsWith "--" arg) eqn:Hdashes.
  2:{ intros Hparse. apply IH in Hparse as [Hk Hidle]; [|lia].
      setoid_rewrite (names_option_plain _ _ Hdashes). eauto. }
  setoid_rewrite (names_option_key _ _ Hdashes).
  rewrite andb_true_l. cbn [negb].
  set (key := option_key arg) in *.
  destruct (spec_lookup sync_spec key) as [rule|] eqn:Hrule.
  2:{ intros Hparse. apply IH in Hparse as [Hk Hidle]; [|lia].
      destruct (sync_rule_none _ Hrule) as (Honce & Hfollow & Hexit).
      split.
      - intros k [-> | ->]; rewrite Hk by auto;
          by rewrite bool_decide_eq_false_2.
      - by rewrite bool_decide_eq_false_2. }
  pose proof (sync_rule _ _ Hrule) as Hkey.
  destruct (is_boolean rule) eqn:Hbool.
  - destruct (sync_rule_flag _ _ Hrule Hbool) as [Hexit Hproto].
    intros Hparse. apply IH in Hparse as [Hk Hidle]; [|lia].
    cbn [negb andb]. split.
    + intros k Hkk. rewrite (Hk k Hkk).
      destruct (decide (key = k)) as [<-|Hne].
      * rewrite flag_set_assign_true by done.
        rewrite bool_decide_eq_true_2 by done. by rewrite orb_true_r.
      * rewrite flag_set_assign_ne by done.
        by rewrite bool_decide_eq_false_2.
    + rewrite bool_decide_eq_false_2 by done. intros Hnone.
      by rewrite (Hidle Hnone), lookup_assign_ne.
  - destruct Hkey as [Honce Hfollow]. cbn [negb andb].
    assert (∀ k, k = "once" ∨ k = "follow" → key ≠ k) as Hother.
    { by intros k [-> | ->]. }
    assert (∀ v later' flags' rest',
              (length later' ≤ n)%nat →
              parseFlags_from sync_spec later' (assign key v flags0) rest0
              = inr (flags', rest') →
              (∀ k, k = "once" ∨ k = "follow" →
                    flag_set flags' k
                    = flag_set flags0 k
                      || (bool_decide (key = k) || passed sync_spec k later'))
              ∧ (bool_decide (key = "idle-exit")
                 || passed sync_spec "idle-exit" later' = false →
                 flags' !! "idle-exit" = flags0 !! "idle-exit")) as Hnext.
    { intros v later' flags' rest' Hlen' Hparse.
      apply IH in Hparse as [Hk Hidle]; [|done]. split.
      - intros k Hkk. rewrite (Hk k Hkk), flag_set_assign_ne by auto.
        by rewrite bool_decide_eq_false_2 by auto.
      - case_bool_decide as Hexit; [done|]. intros Hnone.
        by rewrite (Hidle Hnone), lookup_assign_ne. }
    destruct ((split_arg arg).2) as [v|], later as [|next after];
      cbn [negb]; simpl in Hlen.
    + intros [= <- <-]. destruct (Js.truthy v); cbn [negb].
      * apply (Hnext (VStr v) [] _ rest0); [simpl; lia|done].
      * split.
        -- intros k Hkk. rewrite flag_set_assign_ne by auto.
           rewrite bool_decide_eq_false_2 by auto. by rewrite orb_false_r.
        -- case_bool_decide as Hexit; [done|]. intros _.
           by rewrite lookup_assign_ne.
    + destruct (Js.truthy v); cbn [negb].
      * apply Hnext. simpl. lia.
      * apply Hnext. lia.
    + done.
    + apply Hnext. lia.
Qed.

Lemma idle_default (flags : gmap string value) :
  flags !! "idle-exit" = None →
  sync_idleExitMs flags = inr (Some (Num.Fin 30000)).
Proof.
  intros Hnone. unfold sync_idleExitMs, flag_or, flag_set. by rewrite Hnone.
Qed.

Lemma yields_ret {A} (Q : A → Prop) a : Q a → yields Q (ret a).
Proof. by intros Ha s ? ? [= <- _]. Qed.

Lemma yields_throw {A} (Q : A → Prop) e : yields Q (throw e).
Proof. by intros s ? ? [=]. Qed.

Lemma yields_bind {A B} (Q : B → Prop) (m : M A) k :
  (∀ a, yields Q (k a)) → yields Q (bind m k).
Proof.
  intros Hk s b s'. unfold bind.
  destruct (m s) as [[a|e|] s1]; [apply Hk|done..].
Qed.

Lemma yields_bind_ret {A B} (Q : B → Prop) (a : A) k :
  yields Q (k a) → yields Q (bind (lift (inr a)) k).
Proof. intros Hk s. apply Hk. Qed.

Lemma yields_try_finally {A} (Q : A → Prop) body cleanup :
  yields Q body → yields Q (try_finally body cleanup).
Proof.
  intros Hb s a s'. unfold try_finally.
  destruct (body s) as [[b|e|] s1] eqn:Hbody; [| |done];
    destruct (cleanup s1) as [[[]|e'|] s2]; intros [= <- _]; eauto.
Qed.

Section Command.
Context `{Platform}.
Variable new_TelegramClient : string → M telegram_client.
Variable new_MessageSyncService : telegram_client → sync_options → M sync_service.
Variable proc : process.

(** The command ends as the flags say: alive with the shutdown handler
    registered in follow mode, finished after the idle monitor returned
    otherwise. *)
Lemma runSync_mode fuel globalFlags args flags rest :
  parseFlags args sync_spec = inr (flags, rest) →
  yields (session_mode (sync_follow flags))
    (runSync new_TelegramClient new_MessageSyncService proc fuel globalFlags args).
Proof.
  intros Hparse. unfold runSync. rewrite Hparse.
  apply yields_bind_ret.
  apply yields_bind. intros release.
  apply yields_bind. intros [client service].
  apply yields_bind. intros idleExitMs.
  apply yields_try_finally.
  apply yields_bind. intros authorized.
  destruct (negb authorized); [apply yields_throw|].
  apply yields_bind. intros _. apply yields_bind. intros _.
  destruct (sync_follow flags) eqn:Hfollow.
  - repeat (apply yields_bind; intros _). by apply yields_ret.
  - repeat (apply yields_bind; intros ?). by apply yields_ret.
Qed.

(** C10. Once the arguments of [sync] are parsed, the command runs once
    exactly when [--once] is passed and [--follow] is not: with neither it
    follows, with both it follows; a run that returns ends in the mode
    chosen; and when [--idle-exit] is not passed the idle window is
    30000 ms. *)
Theorem sync_mode_selection fuel globalFlags args flags rest :
  parseFlags args sync_spec = inr (flags, rest) →
  sync_follow flags
  = negb (passed sync_spec "once" args && negb (passed sync_spec "follow" args))
  ∧ (passed sync_spec "once" args = false → sync_follow flags = true)
  ∧ (passed sync_spec "follow" args = true → sync_follow flags = true)
  ∧ yields (session_mode (sync_follow flags))
      (runSync new_TelegramClient new_MessageSyncService proc fuel
         globalFlags args)
  ∧ (passed sync_spec "idle-exit" args = false →
     sync_idleExitMs flags = inr (Some (Num.Fin 30000))).
Proof.
  intros Hparse.
  destruct (parseFlags_from_sync (length args) args ∅ [] flags rest
              ltac:(done) Hparse) as [Hk Hidle].
  assert (sync_follow flags
          = negb (passed sync_spec "once" args
                  && negb (passed sync_spec "follow" args))) as Hmode.
  { unfold sync_follow. rewrite (Hk "once"), (Hk "follow") by auto.
    unfold flag_set. rewrite !lookup_empty. simpl.
    by destruct (passed sync_spec "once" args), (passed sync_spec "follow" args). }
  split; [done|]. split; [|split; [|split]].
  - intros Honce. by rewrite Hmode, Honce.
  - intros Hfollow. rewrite Hmode, Hfollow. by rewrite andb_false_r.
  - by eapply runSync_mode.
  - intros Hnone. apply idle_default. by rewrite (Hidle Hnone).
Qed.

End Command.
End SyncMode.

(** ** The properties on sample runs *)

Section SampleRuns.
Import Cli StoreLock.
Existing Instance Posix.platform.

Lemma double_pure {A} storeDir (a : A) : inspects storeDir whatever (ret a).
Proof. intros s. by apply (inspects_ret (H := Posix.platform)). Qed.

Lemma double_client_keeps storeDir authorized :
  client_keeps storeDir (Double.client authorized).
Proof. unfold client_keeps. repeat apply conj; apply double_pure. Qed.

Lemma double_service_keeps storeDir quiet_at :
  service_keeps storeDir (Double.service quiet_at).
Proof.
  unfold service_keeps. repeat apply conj; try apply double_pure.
  intros s. split; [done|]. exists []. by rewrite app_nil_r.
Qed.

Lemma double_settles quiet_at : settles (Double.stats_at quiet_at) quiet_at.
Proof.
  split; intros t Ht; unfold Double.stats_at.
  - by apply Z.ltb_lt in Ht as ->.
  - by apply Z.ltb_ge in Ht as ->.
Qed.


(** C2 on a fresh disk: released after the disk was wiped and the clock
    moved on, then called three more times. *)
Lemma release_idempotent_total_witness :
  ∃ s2, call_release (MkRelease "/store/LOCK" 0)
          (set_clock (λ t, t + 5000)
             (set_disk (λ _, MkFs ∅ ∅)
                (acquired (Sample.proc ["sync"]) "/store" Sample.fresh)))
        = (Normal tt, s2)
        ∧ marker "/store" s2 = None
        ∧ ∀ (s2' : state) (k : nat),
            cells s2' !! 0%nat = cells s2 !! 0%nat →
            call_n k (MkRelease "/store/LOCK" 0) s2' = (Normal tt, s2').
Proof.
  apply (release_idempotent_total (Sample.proc ["sync"]) "/store" Sample.fresh
           (MkRelease "/store/LOCK" 0)
           (acquired (Sample.proc ["sync"]) "/store" Sample.fresh)).
  - vm_compute. reflexivity.
  - reflexivity.
Defined.


(** C4 as the design document states it fails on this run: [sync --once]
    on a store locked by process 977 ends with exit code 1, and the text
    on standard error does not name LockHeldError. *)
Lemma lock_failure_not_named :
  marker "/store" Sample.locked
  = Some (payload_at Sample.other (Sample.t0 - 60000))
  ∧ fst (main (Double.new_client true) (Double.new_service 0)
           (Sample.proc ["--store"; "/store"; "sync"; "--once"]) 8 Sample.locked)
    = Normal (Exit 1)
  ∧ ¬ names_lock_held
        (stderr (snd (main (Double.new_client true) (Double.new_service 0)
                        (Sample.proc ["--store"; "/store"; "sync"; "--once"])
                        8 Sample.locked))).
Proof.
  split; [vm_compute; reflexivity|]. split; [vm_compute; reflexivity|].
  unfold names_lock_held. vm_compute. discriminate.
Qed.

(** C4 as amended, on the same run. *)
Lemma lock_failure_reported_witness :
  ∃ e s',
    e = new_Error (lock_held_message +:+
                   (if Js.truthy (Js.trim (payload_at Sample.other (Sample.t0 - 60000)))
                    then " (" +:+ Js.trim (payload_at Sample.other (Sample.t0 - 60000))
                         +:+ ")"
                    else ""))
    ∧ main (Double.new_client true) (Double.new_service 0)
        (Sample.proc ["--store"; "/store"; "sync"; "--once"]) 8 Sample.locked
      = (Normal (Exit 1), s')
    ∧ stderr s' = stderr Sample.locked +:+
                  error_report (err_message e)
                    (bool_decide
                       ("--json" ∈ argv (Sample.proc ["--store"; "/store"; "sync"; "--once"])))
    ∧ stdout s' = stdout Sample.locked
    ∧ clock s' = clock Sample.locked
    ∧ cells s' = cells Sample.locked
    ∧ files (disk s') = files (disk Sample.locked).
Proof.
  apply (lock_failure_reported (Double.new_client true) (Double.new_service 0)
           (Sample.proc ["--store"; "/store"; "sync"; "--once"]) 8
           (MkGlobal (Some "/store") false false) "sync" ["--once"]).
  - vm_compute. reflexivity.
  - reflexivity.
  - vm_compute. reflexivity.
  - vm_compute. reflexivity.
Defined.

(** C5 on a queue that settles 700 ms after the monitor starts. *)
Lemma idle_exit_after_sustained_quiet_witness :
  ∃ n, waitForIdle (S n) (Double.service (Sample.t0 + 700))
         (Some (Num.Fin 2000)) Sample.fresh
       = (Normal tt, set_clock (λ _, poll_time Sample.t0 n) Sample.fresh)
       ∧ Z.max (Sample.t0 + 700) Sample.t0 + 2000 ≤ poll_time Sample.t0 n
         < Z.max (Sample.t0 + 700) Sample.t0 + 2500.
Proof.
  apply (idle_exit_after_sustained_quiet (Double.service (Sample.t0 + 700))
           (Double.stats_at (Sample.t0 + 700)) (λ s, eq_refl)
           Sample.t0 Sample.fresh eq_refl eq_refl).
  apply double_settles.
Defined.

(** C6 on a locked store. *)
Lemma inspection_keeps_lock_witness :
  readStoreLock "/store" Sample.locked
  = (Normal (MkStatus (bool_decide (is_Some (marker "/store" Sample.locked)))
               (lockPath "/store") (Js.trim <$> marker "/store" Sample.locked)),
     Sample.locked)
  ∧ marker "/store"
      (runDoctor (Double.new_client true) (Double.new_service 0)
         (Sample.proc ["--store"; "/store"; "doctor"])
         (MkGlobal (Some "/store") false false) [] Sample.locked).2
    = marker "/store" Sample.locked
  ∧ (∃ out,
       stdout (runDoctor (Double.new_client true) (Double.new_service 0)
                 (Sample.proc ["--store"; "/store"; "doctor"])
                 (MkGlobal (Some "/store") false false) [] Sample.locked).2
       = stdout Sample.locked ++ out
       ∧ ∀ x, (runDoctor (Double.new_client true) (Double.new_service 0)
                 (Sample.proc ["--store"; "/store"; "doctor"])
                 (MkGlobal (Some "/store") false false) [] Sample.locked).1
              = Normal x →
              ∃ o, o ∈ out
                   ∧ reports_lock false "/store" (marker "/store" Sample.locked) o)
  ∧ ∀ proc' s',
      disk s' = disk (runDoctor (Double.new_client true) (Double.new_service 0)
                        (Sample.proc ["--store"; "/store"; "doctor"])
                        (MkGlobal (Some "/store") false false) [] Sample.locked).2 →
      succeeded (fst (acquireStoreLock proc' "/store" s'))
      = succeeded (fst (acquireStoreLock proc' "/store" Sample.locked)).
Proof.
  assert (∀ sessionPath,
            inspects "/store" (λ c _, client_keeps "/store" c)
              (Double.new_client true sessionPath)) as Hclient.
  { intros sessionPath s. split; [reflexivity|]. exists []. rewrite app_nil_r.
    split; [reflexivity|]. intros c [= <-]. apply double_client_keeps. }
  assert (∀ client options,
            inspects "/store" (λ v _, service_keeps "/store" v)
              (Double.new_service 0 client options)) as Hservice.
  { intros client options s. split; [reflexivity|]. exists []. rewrite app_nil_r.
    split; [reflexivity|]. intros v [= <-]. apply double_service_keeps. }
  exact (inspection_keeps_lock (Double.new_client true) (Double.new_service 0)
           (Sample.proc ["--store"; "/store"; "doctor"])
           (MkGlobal (Some "/store") false false) [] Sample.locked
           Hclient Hservice).
Defined.

(** C7 on a fresh disk. *)
Lemma marker_records_owner_witness :
  marker "/store" (acquired (Sample.proc ["sync"]) "/store" Sample.fresh)
  = Some (payload_at (Sample.proc ["sync"]) Sample.t0)
  ∧ readStoreLock "/store" (acquired (Sample.proc ["sync"]) "/store" Sample.fresh)
    = (Normal (MkStatus true "/store/LOCK"
                 (Some (payload_at (Sample.proc ["sync"]) Sample.t0))),
       acquired (Sample.proc ["sync"]) "/store" Sample.fresh)
  ∧ payload_at (Sample.proc ["sync"]) Sample.t0
    = "{" +:+ Js.json_quote "pid" +:+ ":" +:+ "4242" +:+ "," +:+
      Js.json_quote "startedAt" +:+ ":" +:+
      Js.json_quote "2026-11-02T00:00:00.000Z" +:+ "}"
  ∧ ∀ proc' now', payload_at proc' now' = payload_at (Sample.proc ["sync"]) Sample.t0 →
                  pid proc' = 4242 ∧ toISOString now' = "2026-11-02T00:00:00.000Z".
Proof.
  exact (marker_records_owner (Sample.proc ["sync"]) "/store" Sample.fresh
           (MkRelease "/store/LOCK" 0)
           (acquired (Sample.proc ["sync"]) "/store" Sample.fresh)
           (acquire_free (Sample.proc ["sync"]) "/store" Sample.fresh eq_refl)).
Defined.

(** C8 on a store locked by a process that is gone: three later attempts,
    the last a day later, all fail. *)
Lemma stale_lock_blocks_witness :
  ∃ s', attempt_all [(Sample.proc ["sync"], 0); (Sample.other, 5000);
                     (Sample.proc ["auth"], 86400000)] "/store" Sample.locked
        = (Normal [false; false; false], s')
        ∧ marker "/store" s' = Some (payload_at Sample.other (Sample.t0 - 60000)).
Proof.
  apply (stale_lock_blocks "/store" (payload_at Sample.other (Sample.t0 - 60000))
           Sample.locked).
  vm_compute. reflexivity.
Defined.

(** C9 on the text [ 15M ]. *)
Lemma parseDuration_total_witness :
  parseDuration (VStr " 15M ") = inr (Some (Num.Fin 900000)).
Proof.
  destruct parseDuration_total as [Haccept _].
  apply (Haccept " 15M " "15" Minutes).
  - exists " ", "M", " ". repeat split; done.
  - reflexivity.
Defined.

(** C10 on [sync --idle-exit 2s --once --follow]. *)
Lemma sync_mode_selection_witness :
  sync_follow (<["follow" := VBool true]>
                 (<["once" := VBool true]> {["idle-exit" := VStr "2s"]}))
  = negb (passed sync_spec "once" ["--idle-exit"; "2s"; "--once"; "--follow"]
          && negb (passed sync_spec "follow" ["--idle-exit"; "2s"; "--once"; "--follow"]))
  ∧ (passed sync_spec "once" ["--idle-exit"; "2s"; "--once"; "--follow"] = false →
     sync_follow (<["follow" := VBool true]>
                    (<["once" := VBool true]> {["idle-exit" := VStr "2s"]})) = true)
  ∧ (passed sync_spec "follow" ["--idle-exit"; "2s"; "--once"; "--follow"] = true →
     sync_follow (<["follow" := VBool true]>
                    (<["once" := VBool true]> {["idle-exit" := VStr "2s"]})) = true)
  ∧ yields (session_mode
              (sync_follow (<["follow" := VBool true]>
                              (<["once" := VBool true]> {["idle-exit" := VStr "2s"]}))))
      (runSync (Double.new_client true) (Double.new_service 0)
         (Sample.proc ["sync"; "--idle-exit"; "2s"; "--once"; "--follow"]) 8
         (MkGlobal None false false) ["--idle-exit"; "2s"; "--once"; "--follow"])
  ∧ (passed sync_spec "idle-exit" ["--idle-exit"; "2s"; "--once"; "--follow"] = false →
     sync_idleExitMs (<["follow" := VBool true]>
                        (<["once" := VBool true]> {["idle-exit" := VStr "2s"]}))
     = inr (Some (Num.Fin 30000))).
Proof.
  apply (sync_mode_selection (Double.new_client true) (Double.new_service 0)
           (Sample.proc ["sync"; "--idle-exit"; "2s"; "--once"; "--follow"]) 8
           (MkGlobal None false false) ["--idle-exit"; "2s"; "--once"; "--follow"]
           _ []).
  vm_compute. reflexivity.
Defined.

(** A remark on [runSync]: the duration is parsed after the lock is taken
    and before the [try], so [sync --idle-exit bogus] on a free store ends
    with exit code 1 and leaves its own marker behind. *)
Remark invalid_idle_exit_leaves_marker :
  fst (main (Double.new_client true) (Double.new_service 0)
         (Sample.proc ["--store"; "/store"; "sync"; "--idle-exit"; "bogus"])
         8 Sample.fresh)
  = Normal (Exit 1)
  ∧ marker "/store"
      (snd (main (Double.new_client true) (Double.new_service 0)
              (Sample.proc ["--store"; "/store"; "sync"; "--idle-exit"; "bogus"])
              8 Sample.fresh))
    = Some (payload_at
              (Sample.proc ["--store"; "/store"; "sync"; "--idle-exit"; "bogus"])
              Sample.t0).
Proof. split; vm_compute; reflexivity. Qed.

(** [doctor --json] on the locked store prints the lock state. *)
Remark doctor_json_on_locked_store :
  ∃ fields,
    stdout (snd (main (Double.new_client true) (Double.new_service 0)
                   (Sample.proc ["--json"; "--store"; "/store"; "doctor"])
                   8 Sample.locked))
    = [OutJson (Js.JObj
         (("storeDir", Js.JStr "/store")
          :: ("lockHeld", Js.JBool true)
          :: ("lockInfo", Js.JStr (payload_at Sample.other (Sample.t0 - 60000)))
          :: fields))].
Proof. eexists. vm_compute. reflexivity. Qed.

End SampleRuns.

(** * Further properties of the code *)

(** ** The global options *)

Section GlobalFlags.
Import Cli.

Lemma parseGlobalFlags_from_cons arg later flags :
  parseGlobalFlags_from (arg :: later) flags
  = if negb (Js.startsWith "-" arg) then inr (flags, arg :: later)
    else if decide (arg = "--json")
    then parseGlobalFlags_from later (MkGlobal (store flags) true (help flags))
    else if bool_decide (arg = "--help" ∨ arg = "-h")
    then parseGlobalFlags_from later (MkGlobal (store flags) (json flags) true)
    else if decide (arg = "--store")
    then
      match later with
      | next :: after =>
          if Js.truthy next
          then parseGlobalFlags_from after
                 (MkGlobal (Some next) (json flags) (help flags))
          else inl (new_Error "--store requires a value")
      | [] => inl (new_Error "--store requires a value")
      end
    else if Js.startsWith "--store=" arg
    then parseGlobalFlags_from later
           (MkGlobal (Some (Js.slice 8 arg)) (json flags) (help flags))
    else inr (flags, arg :: later).
Proof. done. Qed.

Lemma global_option_dash arg : global_option arg = true → Js.startsWith "-" arg = true.
Proof.
  unfold global_option. rewrite !orb_true_iff.
  intros [[[[H|H]|H]|H]|H]; try (apply bool_decide_eq_true in H as ->; done).
  destruct arg as [|a [|b arg]]; simpl in *; repeat case_decide; done.
Qed.

Lemma global_options_cons arg later :
  arg ≠ "--store" → global_option arg = true → global_options later = true →
  global_options (arg :: later) = true.
Proof. intros Hs Hg Hl. simpl. case_decide; [done|]. by rewrite Hg, Hl. Qed.

Lemma global_options_store next after :
  Js.truthy next = true → global_options after = true →
  global_options ("--store" :: next :: after) = true.
Proof. intros Hn Ha. simpl. by rewrite Hn, Ha. Qed.

(** What a successful parse has consumed and set. *)
Lemma parseGlobalFlags_from_ok n :
  ∀ args flags0 flags rest,
    (length args ≤ n)%nat →
    parseGlobalFlags_from args flags0 = inr (flags, rest) →
    ∃ consumed,
      args = consumed ++ rest
      ∧ global_options consumed = true
      ∧ head (global_option <$> rest) ≠ Some true
      ∧ (json flags = true → json flags0 = true ∨ "--json" ∈ consumed)
      ∧ (help flags = true →
         help flags0 = true ∨ "--help" ∈ consumed ∨ "-h" ∈ consumed).
Proof.
  induction n as [|n IH]; intros args flags0 flags rest Hlen.
  { destruct args; [|simpl in Hlen; lia]. intros [= <- <-]. exists []. auto 10. }
  destruct args as [|arg later].
  { intros [= <- <-]. exists []. auto 10. }
  simpl in Hlen. rewrite parseGlobalFlags_from_cons.
  destruct (Js.startsWith "-" arg) eqn:Hdash; cbn [negb].
  2:{ intros [= <- <-]. exists []. split; [done|]. split; [done|]. split; [|auto].
      simpl. intros [= Hg]. apply global_option_dash in Hg. congruence. }
  destruct (decide (arg = "--json")) as [->|Hjson].
  { intros Hparse. apply IH in Hparse as (consumed & -> & Hc & Hhead & Hj & Hh); [|lia].
    exists ("--json" :: consumed). split; [done|].
    split; [by apply global_options_cons|]. split; [done|]. split.
    - intros _. right. by left.
    - intros Hhelp. destruct (Hh Hhelp) as [?|[?|?]]; auto;
        right; [left|right]; by right. }
  case_bool_decide as Hhelp.
  { intros Hparse. apply IH in Hparse as (consumed & -> & Hc & Hhead & Hj & Hh); [|lia].
    exists (arg :: consumed). split; [done|]. split.
    { apply global_options_cons; [by destruct Hhelp as [-> | ->]| |done].
      by destruct Hhelp as [-> | ->]. }
    split; [done|]. split.
    - intros Hjs. destruct (Hj Hjs); auto. right. by right.
    - intros _. right. destruct Hhelp as [-> | ->]; [left|right]; by left. }
  destruct (decide (arg = "--store")) as [->|Hstore].
  { destruct later as [|next after]; [done|].
    destruct (Js.truthy next) eqn:Hnext; [|done]. simpl in Hlen.
    intros Hparse. apply IH in Hparse as (consumed & -> & Hc & Hhead & Hj & Hh); [|lia].
    exists ("--store" :: next :: consumed). split; [done|].
    split; [by apply global_options_store|]. split; [done|]. split.
    - intros Hjs. destruct (Hj Hjs); auto. right. by do 2 right.
    - intros Hhl. destruct (Hh Hhl) as [?|[?|?]]; auto;
        right; [left|right]; by do 2 right. }
  destruct (Js.startsWith "--store=" arg) eqn:Heq.
  { intros Hparse. apply IH in Hparse as (consumed & -> & Hc & Hhead & Hj & Hh); [|lia].
    exists (arg :: consumed). split; [done|]. split.
    { apply global_options_cons; [done| |done].
      unfold global_option. by rewrite Heq, orb_true_r. }
    split; [done|]. split.
    - intros Hjs. destruct (Hj Hjs); auto. right. by right.
    - intros Hhl. destruct (Hh Hhl) as [?|[?|?]]; auto;
        right; [left|right]; by right. }
  intros [= <- <-]. exists []. split; [done|]. split; [done|]. split; [|auto].
  simpl. unfold global_option. rewrite Heq.
  rewrite !bool_decide_eq_false_2 by tauto. done.
Qed.

(** The one way a parse fails. *)
Lemma parseGlobalFlags_from_error n :
  ∀ args flags0 e,
    (length args ≤ n)%nat →
    parseGlobalFlags_from args flags0 = inl e →
    e = new_Error "--store requires a value"
    ∧ ∃ consumed after,
        args = consumed ++ "--store" :: after
        ∧ global_options consumed = true
        ∧ (after = [] ∨ head after = Some "").
Proof.
  induction n as [|n IH]; intros args flags0 e Hlen.
  { by destruct args; [|simpl in Hlen; lia]. }
  destruct args as [|arg later]; [done|].
  simpl in Hlen. rewrite parseGlobalFlags_from_cons.
  destruct (Js.startsWith "-" arg) eqn:Hdash; cbn [negb]; [|done].
  destruct (decide (arg = "--json")) as [->|Hjson].
  { intros Hparse.
    apply IH in Hparse as (-> & consumed & after & -> & Hc & Hafter); [|lia].
    split; [done|]. exists ("--json" :: consumed), after.
    split; [done|]. split; [by apply global_options_cons|done]. }
  case_bool_decide as Hhelp.
  { intros Hparse.
    apply IH in Hparse as (-> & consumed & after & -> & Hc & Hafter); [|lia].
    split; [done|]. exists (arg :: consumed), after. split; [done|]. split; [|done].
    apply global_options_cons; [by destruct Hhelp as [-> | ->]| |done].
    by destruct Hhelp as [-> | ->]. }
  destruct (decide (arg = "--store")) as [->|Hstore].
  { destruct later as [|next after].
    { intros [= <-]. split; [done|]. exists [], []. auto. }
    destruct (Js.truthy next) eqn:Hnext; simpl in Hlen.
    - intros Hparse.
      apply IH in Hparse as (-> & consumed & after' & -> & Hc & Hafter); [|lia].
      split; [done|]. exists ("--store" :: next :: consumed), after'.
      split; [done|]. split; [by apply global_options_store|done].
    - intros [= <-]. split; [done|]. exists [], (next :: after).
      split; [done|]. split; [done|]. right. by destruct next. }
  destruct (Js.startsWith "--store=" arg) eqn:Heq; [|done].
  intros Hparse.
  apply IH in Hparse as (-> & consumed & after & -> & Hc & Hafter); [|lia].
  split; [done|]. exists (arg :: consumed), after. split; [done|]. split; [|done].
  apply global_options_cons; [done| |done].
  unfold global_option. by rewrite Heq, orb_true_r.
Qed.

(** A run of global options in front of anything else is consumed. *)
Lemma parseGlobalFlags_from_prefix n :
  ∀ consumed rest flags0,
    (length consumed ≤ n)%nat →
    global_options consumed = true →
    head (global_option <$> rest) ≠ Some true →
    ∃ flags, parseGlobalFlags_from (consumed ++ rest) flags0 = inr (flags, rest).
Proof.
  assert (∀ rest flags0,
            head (global_option <$> rest) ≠ Some true →
            ∃ flags, parseGlobalFlags_from rest flags0 = inr (flags, rest)) as Hrest.
  { intros [|arg rest] flags0 Hhead; [by eexists|].
    rewrite parseGlobalFlags_from_cons. simpl in Hhead.
    assert (global_option arg = false) as Hg by (by destruct (global_option arg)).
    unfold global_option in Hg. rewrite !orb_false_iff in Hg.
    destruct Hg as [[[[Hj Hh] Hh'] Hs] Heq].
    apply bool_decide_eq_false in Hj, Hh, Hh', Hs.
    destruct (Js.startsWith "-" arg); cbn [negb]; [|by eexists].
    rewrite Heq. destruct (decide (arg = "--json")); [done|].
    case_bool_decide as Hhelp; [tauto|].
    destruct (decide (arg = "--store")); [done|]. by eexists. }
  induction n as [|n IH]; intros consumed rest flags0 Hlen Hc Hhead.
  { destruct consumed; [|simpl in Hlen; lia]. by apply Hrest. }
  destruct consumed as [|arg later]; [by apply Hrest|].
  simpl in Hlen, Hc. rewrite <- app_comm_cons, parseGlobalFlags_from_cons.
  destruct (decide (arg = "--store")) as [->|Hstore].
  - destruct later as [|next after]; [done|].
    apply andb_true_iff in Hc as [Hnext Hafter]. simpl in Hlen.
    cbn. rewrite Hnext. apply IH; [lia|done..].
  - apply andb_true_iff in Hc as [Hg Hlater].
    rewrite (global_option_dash _ Hg). cbn [negb].
    destruct (decide (arg = "--json")); [apply IH; [lia|done..]|].
    case_bool_decide as Hhelp; [apply IH; [lia|done..]|].
    unfold global_option in Hg. rewrite !orb_true_iff in Hg.
    destruct Hg as [[[[H|H]|H]|H]|H];
      try (apply bool_decide_eq_true in H; tauto).
    rewrite H. apply IH; [lia|done..].
Qed.

(** X1. [parseGlobalFlags] succeeds, handing back [rest], exactly when the
    arguments are a run of global options ([--store] with a value that is
    not empty) followed by [rest], and [rest] does not begin with a global
    option: the rest is handed back untouched. *)
Theorem parseGlobalFlags_consumes_prefix args rest :
  (∃ flags, parseGlobalFlags args = inr (flags, rest))
  ↔ ∃ consumed,
      args = consumed ++ rest
      ∧ global_options consumed = true
      ∧ head (global_option <$> rest) ≠ Some true.
Proof.
  split.
  - intros [flags Hparse].
    destruct (parseGlobalFlags_from_ok (length args) args _ _ _ ltac:(done) Hparse)
      as (consumed & Hargs & Hc & Hhead & _).
    by exists consumed.
  - intros (consumed & -> & Hc & Hhead).
    by apply (parseGlobalFlags_from_prefix (length consumed)).
Qed.

(** X2. [parseGlobalFlags] fails in one way only: with the error
    [--store requires a value], when after a run of global options it
    meets [--store] as the last argument or followed by an empty one. *)
Theorem parseGlobalFlags_only_error args e :
  parseGlobalFlags args = inl e →
  e = new_Error "--store requires a value"
  ∧ ∃ consumed after,
      args = consumed ++ "--store" :: after
      ∧ global_options consumed = true
      ∧ (after = [] ∨ head after = Some "").
Proof.
  intros Hparse.
  exact (parseGlobalFlags_from_error (length args) args _ _ ltac:(done) Hparse).
Qed.

(** X3. The flag [json] is set only when [--json] is among the arguments,
    and [help] only when [--help] or [-h] is: so whenever the commands
    print JSON, [main], which looks for [--json] in the whole of [argv],
    reports errors as JSON too. *)
Theorem json_flag_from_argv (proc : process) flags rest :
  parseGlobalFlags (drop 2 (argv proc)) = inr (flags, rest) →
  (json flags = true → bool_decide ("--json" ∈ argv proc) = true)
  ∧ (help flags = true → "--help" ∈ argv proc ∨ "-h" ∈ argv proc).
Proof.
  intros Hparse.
  destruct (parseGlobalFlags_from_ok _ _ _ _ _ ltac:(done) Hparse)
    as (consumed & Hargs & _ & _ & Hj & Hh).
  assert (∀ x, x ∈ consumed → x ∈ argv proc) as Hin.
  { intros x Hx. rewrite <- (take_drop 2 (argv proc)), Hargs.
    apply elem_of_app. right. apply elem_of_app. by left. }
  split.
  - intros Hjs. apply bool_decide_eq_true.
    destruct (Hj Hjs) as [?|?]; [done|]. by apply Hin.
  - intros Hhl. destruct (Hh Hhl) as [?|[?|?]]; [done|left|right]; by apply Hin.
Qed.

End GlobalFlags.

(** ** The option parser of the commands *)

Section FlagParser.
Import Cli.
Variable spec : list (string * string).

Lemma lookup_assign key k v (flags : gmap string value) x :
  assign key v flags !! k = Some x →
  flags !! k = Some x ∨ (k = key ∧ x = v).
Proof.
  unfold assign. case_decide; [auto|].
  destruct (decide (key = k)) as [->|Hne].
  - rewrite lookup_insert_eq. intros [= <-]. auto.
  - rewrite lookup_insert_ne by done. auto.
Qed.

Lemma well_typed_assign_flag key rule flags :
  spec_lookup spec key = Some rule → is_boolean rule = true →
  well_typed spec flags → well_typed spec (assign key (VBool true) flags).
Proof.
  intros Hrule Hbool Hflags k x [Hk|[-> ->]]%lookup_assign; [by apply Hflags|].
  by rewrite Hrule, Hbool.
Qed.

Lemma well_typed_assign_value key rule text flags :
  spec_lookup spec key = Some rule → is_boolean rule = false →
  well_typed spec flags → well_typed spec (assign key (VStr text) flags).
Proof.
  intros Hrule Hbool Hflags k x [Hk|[-> ->]]%lookup_assign; [by apply Hflags|].
  rewrite Hrule, Hbool. by eexists.
Qed.

(** What a successful parse returns, from any point of the loop. *)
Lemma parseFlags_from_ok n :
  ∀ args flags0 rest0 flags rest,
    (length args ≤ n)%nat →
    parseFlags_from spec args flags0 rest0 = inr (flags, rest) →
    (∃ kept, rest = rest0 ++ kept
             ∧ kept `sublist_of` args
             ∧ Forall (λ a, positional spec a = true) kept)
    ∧ (well_typed spec flags0 → well_typed spec flags).
Proof.
  induction n as [|n IH]; intros args flags0 rest0 flags rest Hlen.
  { destruct args; [|simpl in Hlen; lia]. intros [= <- <-].
    split; [|done]. exists []. by rewrite app_nil_r. }
  destruct args as [|arg later].
  { intros [= <- <-]. split; [|done]. exists []. by rewrite app_nil_r. }
  simpl in Hlen. rewrite parseFlags_from_cons.
  assert (∀ later' flags',
            (length later' ≤ n)%nat → later' `sublist_of` later →
            (well_typed spec flags0 → well_typed spec flags') →
            parseFlags_from spec later' flags' rest0 = inr (flags, rest) →
            (∃ kept, rest = rest0 ++ kept
                     ∧ kept `sublist_of` arg :: later
                     ∧ Forall (λ a, positional spec a = true) kept)
            ∧ (well_typed spec flags0 → well_typed spec flags)) as Hdrop.
  { intros later' flags' Hlen' Hsub Htyped Hparse.
    apply IH in Hparse as [(kept & -> & Hkept & Hpos) Hty]; [|done].
    split; [|auto]. exists kept. split; [done|]. split; [|done].
    apply sublist_cons. by etrans. }
  assert (positional spec arg = true →
          parseFlags_from spec later flags0 (rest0 ++ [arg]) = inr (flags, rest) →
          (∃ kept, rest = rest0 ++ kept
                   ∧ kept `sublist_of` arg :: later
                   ∧ Forall (λ a, positional spec a = true) kept)
          ∧ (well_typed spec flags0 → well_typed spec flags)) as Hkeep.
  { intros Hpos Hparse.
    apply IH in Hparse as [(kept & -> & Hkept & Hposs) Hty]; [|lia].
    split; [|done]. exists (arg :: kept). rewrite <- app_assoc.
    split; [done|]. split; [by apply sublist_skip|by constructor]. }
  destruct (Js.startsWith "--" arg) eqn:Hdashes; cbn [negb].
  2:{ apply Hkeep. unfold positional. by rewrite Hdashes. }
  destruct (spec_lookup spec (option_key arg)) as [rule|] eqn:Hrule.
  2:{ apply Hkeep. unfold positional. rewrite Hrule.
      by rewrite bool_decide_eq_true_2, orb_true_r. }
  destruct (is_boolean rule) eqn:Hbool.
  { apply Hdrop; [lia|done|]. by apply well_typed_assign_flag with rule. }
  destruct ((split_arg arg).2) as [v|], later as [|next after]; simpl in Hlen.
  - intros [= <- <-]. split.
    + exists []. rewrite app_nil_r. split; [done|]. split; [|done].
      apply sublist_nil_l.
    + by apply well_typed_assign_value with rule.
  - destruct (Js.truthy v).
    + apply Hdrop; [simpl; lia|done|]. by apply well_typed_assign_value with rule.
    + apply Hdrop; [lia|by apply sublist_cons|].
      by apply well_typed_assign_value with rule.
  - done.
  - apply Hdrop; [lia|by apply sublist_cons|].
    by apply well_typed_assign_value with rule.
Qed.

Lemma split_on_whole sep s hd : Js.split_on sep s = (hd, []) → hd = s.
Proof.
  revert hd. induction s as [|c s IH]; intros hd; simpl; [by intros [= <-]|].
  destruct (Js.split_on sep s) as [hd' tl]. case_decide; [done|].
  intros [= <- ->]. by rewrite (IH hd').
Qed.

Lemma option_key_whole arg :
  Js.startsWith "--" arg = true → (split_arg arg).2 = None →
  "--" +:+ option_key arg = arg.
Proof.
  unfold option_key, split_arg. intros Hdashes.
  destruct (Js.split_on "=" arg) as [hd tl] eqn:Hsplit.
  destruct tl as [|x tl]; [|done]. intros _.
  apply split_on_whole in Hsplit as ->. simpl.
  destruct arg as [|a [|b arg]]; simpl in *; repeat case_decide; subst; done.
Qed.

(** The one way a parse fails, from any point of the loop. *)
Lemma parseFlags_from_error n :
  ∀ args flags0 rest0 e,
    (length args ≤ n)%nat →
    parseFlags_from spec args flags0 rest0 = inl e →
    ∃ arg rule,
      last args = Some arg
      ∧ Js.startsWith "--" arg = true
      ∧ spec_lookup spec (option_key arg) = Some rule
      ∧ is_boolean rule = false
      ∧ e = new_Error (arg +:+ " requires a value").
Proof.
  induction n as [|n IH]; intros args flags0 rest0 e Hlen.
  { by destruct args; [|simpl in Hlen; lia]. }
  destruct args as [|arg later]; [done|].
  simpl in Hlen. rewrite parseFlags_from_cons.
  assert (∀ later' flags' rest',
            (length later' ≤ n)%nat → later' ≠ [] →
            last later' = last (arg :: later) →
            parseFlags_from spec later' flags' rest' = inl e →
            ∃ arg' rule,
              last (arg :: later) = Some arg'
              ∧ Js.startsWith "--" arg' = true
              ∧ spec_lookup spec (option_key arg') = Some rule
              ∧ is_boolean rule = false
              ∧ e = new_Error (arg' +:+ " requires a value")) as Hnext.
  { intros later' flags' rest' Hlen' _ Hlast Hparse. rewrite <- Hlast. by eapply IH. }
  assert (∀ flags' rest',
            parseFlags_from spec later flags' rest' = inl e →
            ∃ arg' rule,
              last (arg :: later) = Some arg'
              ∧ Js.startsWith "--" arg' = true
              ∧ spec_lookup spec (option_key arg') = Some rule
              ∧ is_boolean rule = false
              ∧ e = new_Error (arg' +:+ " requires a value")) as Hlater.
  { intros flags' rest' Hparse. destruct later as [|next after]; [done|].
    apply (Hnext (next :: after) flags' rest'); [simpl in *; lia|done|done|done]. }
  destruct (Js.startsWith "--" arg) eqn:Hdashes; cbn [negb]; [|apply Hlater].
  destruct (spec_lookup spec (option_key arg)) as [rule|] eqn:Hrule; [|apply Hlater].
  destruct (is_boolean rule) eqn:Hbool; [apply Hlater|].
  destruct ((split_arg arg).2) as [v|] eqn:Hvalue, later as [|next after];
    simpl in Hlen.
  - done.
  - destruct (Js.truthy v); [apply Hlater|].
    destruct after as [|x after]; [done|].
    apply Hnext; [simpl in *; lia|done|done].
  - intros [= <-]. exists arg, rule. repeat (split; [done|]).
    by rewrite <- string_app_assoc, option_key_whole.
  - destruct after as [|x after]; [done|].
    apply Hnext; [simpl in *; lia|done|done].
Qed.

(** X4. [parseFlags] hands back the arguments it did not take as options
    or as their values, in the order given: positional arguments and
    options the spec does not know. *)
Theorem parseFlags_rest_in_order args flags rest :
  parseFlags args spec = inr (flags, rest) →
  rest `sublist_of` args ∧ Forall (λ a, positional spec a = true) rest.
Proof.
  intros Hparse.
  destruct (parseFlags_from_ok (length args) args ∅ [] flags rest
              ltac:(done) Hparse) as [(kept & -> & Hsub & Hpos) _].
  done.
Qed.

(** X5. Every flag [parseFlags] returns holds [true] when its rule is
    boolean, also when the option came with a value as in [--once=false],
    and a string otherwise; no flag is set without a rule. *)
Theorem parseFlags_well_typed args flags rest :
  parseFlags args spec = inr (flags, rest) → well_typed spec flags.
Proof.
  intros Hparse.
  destruct (parseFlags_from_ok (length args) args ∅ [] flags rest
              ltac:(done) Hparse) as [_ Htyped].
  apply Htyped. intros key v. by rewrite lookup_empty.
Qed.

(** X6. [parseFlags] fails in one way only: the last argument is an option
    with a value that has no value attached, and the error says that this
    argument requires a value. *)
Theorem parseFlags_only_error args e :
  parseFlags args spec = inl e →
  ∃ arg rule,
    last args = Some arg
    ∧ Js.startsWith "--" arg = true
    ∧ spec_lookup spec (option_key arg) = Some rule
    ∧ is_boolean rule = false
    ∧ e = new_Error (arg +:+ " requires a value").
Proof.
  intros Hparse.
  exact (parseFlags_from_error (length args) args ∅ [] e ltac:(done) Hparse).
Qed.

End FlagParser.

(** ** The lock around the commands *)

Section LockDiscipline.
Context `{Platform}.
Import Cli StoreLock.

Lemma aside_ret {A} d (Q : A → Prop) a : Q a → aside d Q (ret a).
Proof. intros HQ s. split; [done|]. by intros ? [= <-]. Qed.

Lemma aside_ret_any {A} d (a : A) : aside d anything (ret a).
Proof. by apply aside_ret. Qed.

Lemma aside_throw {A} d (Q : A → Prop) e : aside d Q (throw e).
Proof. by intros s. Qed.

Lemma aside_any {A} d (Q : A → Prop) m : aside d Q m → aside d anything m.
Proof. intros Hm s. by destruct (Hm s). Qed.

Lemma aside_bind {A B} d (Q : A → Prop) (R : B → Prop) m k :
  aside d Q m → (∀ a, Q a → aside d R (k a)) → aside d R (bind m k).
Proof.
  intros Hm Hk s. unfold bind. destruct (Hm s) as [Hview HQ].
  destruct (m s) as [[a|e|] s1]; simpl in *; [|done..].
  destruct (Hk a (HQ a eq_refl) s1) as [Hview' HR]. by rewrite Hview'.
Qed.

Lemma aside_seq {A B} d (R : B → Prop) (m : M A) k :
  aside d anything m → (∀ a, aside d R (k a)) → aside d R (bind m k).
Proof. intros Hm Hk. apply aside_bind with anything; auto. Qed.

Lemma aside_try_catch {A} d (Q : A → Prop) body handler :
  aside d Q body → (∀ e, aside d Q (handler e)) →
  aside d Q (try_catch body handler).
Proof.
  intros Hb Hh s. unfold try_catch. destruct (Hb s) as [Hview HQ].
  destruct (body s) as [[a|e|] s1]; simpl in *; [done| |done].
  destruct (Hh e s1) as [Hview' HQ']. by rewrite Hview'.
Qed.

Lemma aside_try_finally {A} d (Q : A → Prop) body cleanup :
  aside d Q body → aside d anything cleanup →
  aside d Q (try_finally body cleanup).
Proof.
  intros Hb Hc s. unfold try_finally. destruct (Hb s) as [Hview HQ].
  destruct (body s) as [[a|e|] s1]; simpl in *; [| |done];
    destruct (Hc s1) as [Hview' _];
    destruct (cleanup s1) as [[[]|e'|] s2]; simpl in *;
    (split; [by rewrite Hview'|]); try done.
Qed.

Lemma aside_lift {A} d (r : js_error + A) : aside d anything (lift r).
Proof. by destruct r; intros s. Qed.

Lemma aside_console_log d text : aside d anything (console_log text).
Proof. by intros s. Qed.

Lemma aside_writeJson d payload : aside d anything (writeJson payload).
Proof. by intros s. Qed.

Lemma aside_delay d ms : aside d anything (delay ms).
Proof. by intros s. Qed.

Lemma aside_Date_now d : aside d anything Date_now.
Proof. by intros s. Qed.

Lemma aside_pending {A} d (Q : A → Prop) : aside d Q pending_.
Proof. by intros s. Qed.

Lemma aside_waitForIdle d fuel service limit :
  aside d anything (getQueueStats service) →
  ∀ idleStart, aside d anything (waitForIdle_from fuel service limit idleStart).
Proof.
  intros Hstats. induction fuel as [|fuel IH]; intros idleStart; simpl.
  { apply aside_pending. }
  apply aside_seq; [done|]. intros stats.
  apply aside_seq.
  - destruct (_ && _); [|apply aside_ret_any].
    apply aside_seq; [destruct (not_set _); [apply aside_Date_now|apply aside_ret_any]|].
    intros started. apply aside_seq; [apply aside_Date_now|]. intros now.
    destruct (Num.ge_limit _ _); apply aside_ret_any.
  - intros [idleStart'|]; [|apply aside_ret_any].
    apply aside_seq; [apply aside_delay|]. intros _. apply IH.
Qed.

Lemma run_bind {A B} (m : M A) (k : A → M B) s a s1 :
  m s = (Normal a, s1) → bind m k s = k a s1.
Proof. unfold bind. by intros ->. Qed.

Lemma aside_returns {A} d (Q : A → Prop) m s :
  aside d Q m → returns m →
  ∃ a s1, m s = (Normal a, s1) ∧ lock_view d s1 = lock_view d s ∧ Q a.
Proof.
  intros Hm Hr. destruct (Hm s) as [Hview HQ], (Hr s) as [a Ha].
  exists a, (m s).2. split; [|auto]. rewrite <- Ha. by destruct (m s).
Qed.

Section Guarded.
Variable new_TelegramClient : string → M telegram_client.
Variable new_MessageSyncService : telegram_client → sync_options → M sync_service.
Variable proc : process.
Variable globalFlags : global_flags.
Local Abbreviation storeDir := (resolveStoreDir proc (store globalFlags)).
Hypothesis client_aside :
  ∀ sessionPath, aside storeDir (bystander_client storeDir)
                   (new_TelegramClient sessionPath).
Hypothesis service_aside :
  ∀ client options, aside storeDir (bystander_service storeDir)
                      (new_MessageSyncService client options).

Ltac aside_tac :=
  repeat first
    [ assumption
    | apply aside_throw
    | apply aside_lift
    | apply aside_console_log
    | apply aside_writeJson
    | apply aside_ret_any
    | apply aside_waitForIdle
    | apply aside_seq; [|intros ?]
    | apply aside_try_catch; [|intros ?]
    | match goal with
      | |- aside _ _ (if ?b then _ else _) => destruct b
      | |- aside _ _ (match ?x with _ => _ end) => destruct x
      end ].


Lemma aside_yields {A} d (Q R : A → Prop) m :
  aside d Q m → yields R m → aside d (λ a, Q a ∧ R a) m.
Proof.
  intros HQ HR s. destruct (HQ s) as [Hview HQ']. split; [done|].
  intros a Ha. split; [auto|]. apply (HR s a (m s).2).
  rewrite <- Ha. by destruct (m s).
Qed.


(** The collaborators as [createServices] makes them. *)
Lemma aside_createServices (P : telegram_client → Prop) (R : sync_service → Prop) :
  (∀ sessionPath, yields P (new_TelegramClient sessionPath)) →
  (∀ client options, yields R (new_MessageSyncService client options)) →
  aside storeDir
    (λ cs, (bystander_client storeDir cs.1 ∧ P cs.1)
           ∧ (bystander_service storeDir cs.2 ∧ R cs.2))
    (createServices new_TelegramClient new_MessageSyncService storeDir).
Proof.
  intros HP HR. unfold createServices.
  eapply aside_bind; [apply aside_yields; [apply client_aside|apply HP]|].
  intros c Hc.
  eapply aside_bind; [apply aside_yields; [apply service_aside|apply HR]|].
  intros v Hv. by apply aside_ret.
Qed.

Lemma aside_createServices_any :
  aside storeDir
    (λ cs, bystander_client storeDir cs.1 ∧ bystander_service storeDir cs.2)
    (createServices new_TelegramClient new_MessageSyncService storeDir).
Proof.
  intros s.
  destruct (aside_createServices anything anything
              ltac:(by intros ? ? ? ? ?) ltac:(by intros ? ? ? ? ? ?) s)
    as [Hview Hcs].
  split; [done|]. intros cs Hrun. by destruct (Hcs cs Hrun) as [[? _] [? _]].
Qed.

Lemma createServices_returns (P : telegram_client → Prop) (R : sync_service → Prop) s :
  (∀ sessionPath, constructs P (new_TelegramClient sessionPath)) →
  (∀ client options, constructs R (new_MessageSyncService client options)) →
  ∃ c v s1,
    createServices new_TelegramClient new_MessageSyncService storeDir s
    = (Normal (c, v), s1)
    ∧ lock_view storeDir s1 = lock_view storeDir s
    ∧ (bystander_client storeDir c ∧ P c)
    ∧ (bystander_service storeDir v ∧ R v).
Proof.
  intros Hclient Hservice.
  destruct (aside_returns storeDir _ _ s
              (aside_createServices P R (λ path, proj2 (Hclient path))
                 (λ c o, proj2 (Hservice c o))))
    as ([c v] & s1 & Hrun & Hview & Hc & Hv).
  - intros s0. unfold createServices.
    destruct (Hclient (path_join storeDir "session.json")) as [Hreturns _].
    destruct (Hreturns s0) as [c Hc].
    unfold bind at 1. destruct (new_TelegramClient _ s0) as [r s1]. simpl in Hc. subst r.
    unfold bind at 1.
    match goal with |- context [new_MessageSyncService ?a ?b s1] =>
      destruct (Hservice a b) as [Hreturns' _];
      destruct (Hreturns' s1) as [v Hv];
      destruct (new_MessageSyncService a b s1) as [r s2] end.
    simpl in Hv. subst r. by eexists.
  - by exists c, v, s1.
Qed.

(** The cleanup of a command that holds the lock: it returns, and the
    marker is gone. *)
Lemma cleanup_releases c v rel s :
  bystander_client storeDir c ∧ destroyable c →
  bystander_service storeDir v ∧ stoppable v →
  rel_lockPath rel = lockPath storeDir →
  cells s !! rel_released rel = Some false →
  ∃ s', (shutdown v >> destroy c >> call_release rel) s = (Normal tt, s')
        ∧ marker storeDir s' = None.
Proof.
  intros [(_ & _ & _ & _ & Hdestroy) Hdestroyed]
         [(_ & _ & _ & _ & _ & Hshutdown) Hshut] Hpath Hcell.
  destruct (aside_returns _ _ _ s Hshutdown Hshut) as (x & s2 & Hs2 & Hview2 & _).
  destruct (aside_returns _ _ _ s2 Hdestroy Hdestroyed) as (y & s3 & Hs3 & Hview3 & _).
  assert (cells s3 !! rel_released rel = Some false) as Hcell3.
  { rewrite Hview2 in Hview3. by injection Hview3 as _ ->. }
  rewrite (run_bind _ _ _ _ _ Hs2), (run_bind _ _ _ _ _ Hs3),
    (release_first _ _ Hcell3).
  eexists. split; [done|]. unfold marker. simpl. rewrite <- Hpath.
  apply lookup_delete_eq.
Qed.

(** The body of a command that holds the lock, then its cleanup. *)
Lemma release_after {A} (body : M A) c v rel s :
  bystander_client storeDir c ∧ destroyable c →
  bystander_service storeDir v ∧ stoppable v →
  aside storeDir anything body →
  rel_lockPath rel = lockPath storeDir →
  cells s !! rel_released rel = Some false →
  ended (try_finally body
           (shutdown v >> destroy c >> call_release rel) s).1 = true →
  marker storeDir
    (try_finally body (shutdown v >> destroy c >> call_release rel) s).2 = None.
Proof.
  intros Hc Hv Hbody Hpath Hcell.
  unfold try_finally. destruct (Hbody s) as [Hview _].
  destruct (body s) as [r s1]. simpl in Hview.
  destruct (cleanup_releases c v rel s1 Hc Hv Hpath) as (s2 & -> & Hgone).
  { by injection Hview as _ ->. }
  by destruct r.
Qed.

Lemma view_acquired s :
  lock_view storeDir (acquired proc storeDir s)
  = (Some (payload_at proc (clock s)), cells s ++ [false]).
Proof. unfold lock_view. by rewrite marker_acquired. Qed.

(** [sync] in follow mode after the lock was taken: the lock stays as it
    is, and a session it returns carries a handler that satisfies [Q]
    when the handler of such collaborators does. *)
Lemma runSync_follow (P : telegram_client → Prop) (R : sync_service → Prop)
    (Q : M unit → Prop) fuel args flags rest s :
  (∀ sessionPath, yields P (new_TelegramClient sessionPath)) →
  (∀ client options, yields R (new_MessageSyncService client options)) →
  (∀ c v, bystander_client storeDir c ∧ P c →
          bystander_service storeDir v ∧ R v →
          Q (shutdown v >> destroy c >>
             call_release (MkRelease (lockPath storeDir) (length (cells s))))) →
  parseFlags args sync_spec = inr (flags, rest) →
  sync_follow flags = true →
  marker storeDir s = None →
  lock_view storeDir
    (runSync new_TelegramClient new_MessageSyncService proc fuel globalFlags args s).2
  = (Some (payload_at proc (clock s)), cells s ++ [false])
  ∧ ∀ x,
      (runSync new_TelegramClient new_MessageSyncService proc fuel
         globalFlags args s).1 = Normal x → Q (on_signal_of x).
Proof.
  intros HP HR HQ Hparse Hfollow Hfree. unfold runSync. rewrite Hparse.
  rewrite (run_bind _ _ s (flags, rest) s eq_refl).
  rewrite (run_bind _ _ _ _ _ (acquire_free proc storeDir s Hfree)).
  rewrite Hfollow. rewrite <- view_acquired.
  match goal with
  | |- lock_view _ (?m ?s1).2 = _ ∧ _ =>
      cut (aside storeDir (λ x, Q (on_signal_of x)) m);
        [intros Hm; exact (Hm s1)|]
  end.
  eapply aside_bind; [apply (aside_createServices P R HP HR)|].
  intros [c v] [Hc Hv]. cbn [fst snd] in Hc, Hv.
  apply aside_seq; [apply aside_lift|]. intros w.
  apply aside_try_finally; [|apply aside_ret_any].
  pose proof Hc as [(? & ? & ? & ? & ?) _].
  pose proof Hv as [(? & ? & ? & ? & ? & ?) _].
  aside_tac.
  apply aside_ret. by apply HQ.
Qed.


(** X8. The handler [sync] registers in follow mode releases the lock:
    when the cleanup of the collaborators goes through, the handler, run
    in a state where the cell of the release closure is as the command
    left it, returns and the marker is gone. *)
Theorem follow_handler_releases fuel args flags rest s x s1 :
  (∀ sessionPath, yields destroyable (new_TelegramClient sessionPath)) →
  (∀ client options, yields stoppable (new_MessageSyncService client options)) →
  parseFlags args sync_spec = inr (flags, rest) →
  sync_follow flags = true →
  marker storeDir s = None →
  runSync new_TelegramClient new_MessageSyncService proc fuel globalFlags args s
  = (Normal x, s1) →
  ∀ s', cells s' !! length (cells s) = cells s1 !! length (cells s) →
        ∃ s'', on_signal_of x s' = (Normal tt, s'')
               ∧ marker storeDir s'' = None.
Proof.
  intros Hclient Hservice Hparse Hfollow Hfree Hrun s' Hcell.
  destruct (runSync_follow destroyable stoppable
              (λ handler, ∀ s', cells s' !! length (cells s) = Some false →
                                ∃ s'', handler s' = (Normal tt, s'')
                                       ∧ marker storeDir s'' = None)
              fuel args flags rest s Hclient Hservice)
    as [Hview Hhandler]; [|done..|].
  { intros c v Hc Hv s0 Hs0. by apply cleanup_releases. }
  rewrite Hrun in Hview, Hhandler. injection Hview as _ Hcells.
  apply (Hhandler x eq_refl). rewrite Hcell, Hcells.
  by apply list_lookup_middle.
Qed.

(** X9. Run once, [sync] releases the lock on every path that ends:
    with the marker free at the start, collaborators that are constructed
    and whose cleanup goes through, and a valid idle window, the marker
    is gone when [runSync] has returned or thrown. *)
Theorem sync_once_releases fuel args flags rest w s :
  (∀ sessionPath, constructs destroyable (new_TelegramClient sessionPath)) →
  (∀ client options,
     constructs stoppable (new_MessageSyncService client options)) →
  parseFlags args sync_spec = inr (flags, rest) →
  sync_follow flags = false →
  sync_idleExitMs flags = inr w →
  marker storeDir s = None →
  ended (runSync new_TelegramClient new_MessageSyncService proc fuel
           globalFlags args s).1 = true →
  marker storeDir
    (runSync new_TelegramClient new_MessageSyncService proc fuel
       globalFlags args s).2 = None.
Proof.
  intros Hclient Hservice Hparse Hfollow Hidle Hfree. unfold runSync.
  rewrite Hparse, (run_bind _ _ s (flags, rest) s eq_refl).
  rewrite (run_bind _ _ _ _ _ (acquire_free proc storeDir s Hfree)).
  destruct (createServices_returns destroyable stoppable
              (acquired proc storeDir s) Hclient Hservice)
    as (c & v & s1 & Hrun & Hview & Hc & Hv).
  rewrite (run_bind _ _ _ _ _ Hrun), Hidle, Hfollow.
  rewrite (run_bind _ _ s1 w s1 eq_refl).
  rewrite view_acquired in Hview. injection Hview as _ Hcells.
  apply release_after; [done..| |done|].
  - pose proof Hc as [(? & ? & ? & ? & ?) _].
    pose proof Hv as [(? & ? & ? & ? & ? & ?) _].
    aside_tac.
  - simpl. rewrite Hcells. by apply list_lookup_middle.
Qed.



(** X12. [auth status] stays away from the lock: it neither takes nor
    checks it, and the marker and the release cells are the same after
    it, whatever the marker holds and however the command ends. *)
Theorem auth_status_leaves_lock args flags rest s :
  parseFlags args [("follow", "boolean")] = inr (flags, rest) →
  head rest = Some "status" →
  lock_view storeDir
    (runAuth new_TelegramClient new_MessageSyncService proc globalFlags args s).2
  = lock_view storeDir s.
Proof.
  intros Hparse Hstatus. unfold runAuth.
  rewrite Hparse, (run_bind _ _ s (flags, rest) s eq_refl).
  rewrite decide_True by done.
  match goal with
  | |- lock_view _ (?m s).2 = _ =>
      cut (aside storeDir anything m); [intros Hm; apply Hm|]
  end.
  eapply aside_bind; [apply aside_createServices_any|].
  intros [c v] [Hc Hv]. cbn [fst snd] in Hc, Hv.
  pose proof Hc as (? & ? & ? & ? & ?).
  pose proof Hv as (? & ? & ? & ? & ? & ?).
  apply aside_try_finally; aside_tac.
Qed.

(** X13. [auth] and [auth logout] release the lock on every path that
    ends: with the marker free at the start and collaborators that are
    constructed and whose cleanup goes through, the marker is gone when
    [runAuth] has returned or thrown, unless [auth] follows. *)
Theorem auth_releases args flags rest s :
  (∀ sessionPath, constructs destroyable (new_TelegramClient sessionPath)) →
  (∀ client options,
     constructs stoppable (new_MessageSyncService client options)) →
  parseFlags args [("follow", "boolean")] = inr (flags, rest) →
  head rest ≠ Some "status" →
  head rest = Some "logout" ∨ flag_set flags "follow" = false →
  marker storeDir s = None →
  ended (runAuth new_TelegramClient new_MessageSyncService proc
           globalFlags args s).1 = true →
  marker storeDir
    (runAuth new_TelegramClient new_MessageSyncService proc
       globalFlags args s).2 = None.
Proof.
  intros Hclient Hservice Hparse Hstatus Hmode Hfree. unfold runAuth.
  rewrite Hparse, (run_bind _ _ s (flags, rest) s eq_refl).
  rewrite decide_False by done.
  destruct (createServices_returns destroyable stoppable
              (acquired proc storeDir s) Hclient Hservice)
    as (c & v & s1 & Hrun & Hview & Hc & Hv).
  rewrite view_acquired in Hview. injection Hview as _ Hcells.
  pose proof Hc as [(? & ? & ? & ? & ?) _].
  pose proof Hv as [(? & ? & ? & ? & ? & ?) _].
  destruct (decide (head rest = Some "logout")) as [Hlogout|Hlogout].
  - rewrite (run_bind _ _ _ _ _ (acquire_free proc storeDir s Hfree)).
    rewrite (run_bind _ _ _ _ _ Hrun).
    apply release_after; [done..| |done|].
    + aside_tac.
    + simpl. rewrite Hcells. by apply list_lookup_middle.
  - destruct Hmode as [|Hfollow]; [done|].
    rewrite (run_bind _ _ _ _ _ (acquire_free proc storeDir s Hfree)).
    rewrite (run_bind _ _ _ _ _ Hrun), Hfollow.
    apply release_after; [done..| |done|].
    + aside_tac.
    + simpl. rewrite Hcells. by apply list_lookup_middle.
Qed.


End Guarded.

Section Entry.
Variable new_TelegramClient : string → M telegram_client.
Variable new_MessageSyncService : telegram_client → sync_options → M sync_service.
Variable proc : process.

Lemma writeError_report e asJson s :
  writeError e asJson s
  = (Normal tt, set_stderr (λ text, text +:+ error_report (err_message e) asJson) s).
Proof. unfold writeError, error_report. by destruct asJson. Qed.

Lemma yields_ending_of (m : M session) :
  yields (λ x : ending, ∀ n, x = Exit n → n = 0)
    (let! x := m in ret (ending_of x)).
Proof.
  apply yields_bind. intros [|handler]; apply yields_ret; by intros n [=].
Qed.

(** X15. [main] prints the usage text and nothing else, and ends with
    exit code 0, when [--help] or [-h] is among the global options, when
    no command is given, and when the command is not one of [auth],
    [sync] and [doctor]: no lock is taken and no collaborator is
    constructed. *)
Theorem main_prints_usage fuel globalFlags rest s :
  parseGlobalFlags (drop 2 (argv proc)) = inr (globalFlags, rest) →
  help globalFlags = true
  ∨ head rest ∉ [Some "auth"; Some "sync"; Some "doctor"] →
  main new_TelegramClient new_MessageSyncService proc fuel s
  = (Normal (Exit 0), set_stdout (λ out, out ++ [OutLine usage_text]) s).
Proof.
  intros Hparse Hcase. unfold main, try_catch.
  rewrite Hparse, (run_bind _ _ s (globalFlags, rest) s eq_refl).
  destruct rest as [|command args]; [done|].
  destruct (help globalFlags); [done|].
  destruct Hcase as [|Hcommand]; [done|].
  simpl in Hcommand. rewrite !decide_False; [done|..];
    intros ->; apply Hcommand; set_solver.
Qed.

(** X16. No error leaves [main]: it never throws, the exit codes are 0
    and 1, and it ends with exit code 1 only from its [catch], after
    the report of the error thrown was written to standard error, as a
    JSON object exactly when [--json] is among the arguments of the
    process. *)
Theorem main_catches_errors fuel s :
  let r := main new_TelegramClient new_MessageSyncService proc fuel s in
  (∀ e, r.1 ≠ Throw e)
  ∧ (∀ n, r.1 = Normal (Exit n) → n = 0 ∨ n = 1)
  ∧ (r.1 = Normal (Exit 1) →
     ∃ e s1, r.2 = set_stderr
                     (λ text, text +:+ error_report (err_message e)
                                         (bool_decide ("--json" ∈ argv proc)))
                     s1).
Proof.
  intros r. subst r. unfold main, try_catch.
  match goal with
  | |- context [match ?body s with _ => _ end] =>
      assert (yields (λ x : ending, ∀ n, x = Exit n → n = 0) body) as Hbody;
        [|specialize (Hbody s); destruct (body s) as [[x|e|] s1]]
  end.
  { apply yields_bind. intros [globalFlags [|command args]].
    - apply yields_bind. intros _. apply yields_ret. by intros n [=].
    - destruct (help globalFlags).
      { apply yields_bind. intros _. apply yields_ret. by intros n [=]. }
      repeat case_decide; try apply yields_ending_of.
      apply yields_bind. intros _. apply yields_ret. by intros n [=]. }
  - specialize (Hbody x s1 eq_refl). simpl. split; [done|].
    split; [intros n [= ->]; left; by apply Hbody|].
    intros [= ->]. by specialize (Hbody 1 eq_refl).
  - unfold bind. rewrite writeError_report. simpl. split; [done|].
    split; [intros n [= <-]; by right|]. intros _. by eexists _, _.
  - simpl. by repeat split.
Qed.

(** X17. A [--store] without a value ends [main] with exit code 1 before
    any command runs: standard error receives the report of
    [--store requires a value], and nothing else changes. *)
Theorem main_rejects_store_without_value fuel e s :
  parseGlobalFlags (drop 2 (argv proc)) = inl e →
  main new_TelegramClient new_MessageSyncService proc fuel s
  = (Normal (Exit 1),
     set_stderr (λ text, text +:+ error_report "--store requires a value"
                                   (bool_decide ("--json" ∈ argv proc))) s).
Proof.
  intros Hparse. unfold main, try_catch. rewrite Hparse.
  destruct (parseGlobalFlags_from_error _ _ _ _ (le_n _) Hparse) as [-> _].
  unfold bind at 1. simpl. unfold bind. by rewrite writeError_report.
Qed.

End Entry.

End LockDiscipline.

(** ** One lock per store directory *)

Section PerDirectory.
Context `{Platform}.
Import StoreLock.




End PerDirectory.

(** ** Options named like inherited properties *)

Section Inherited.
Import Cli.

Lemma prototype_option key :
  key ∈ object_prototype_keys →
  Js.startsWith "--" ("--" +:+ key) = true
  ∧ option_key ("--" +:+ key) = key
  ∧ (split_arg ("--" +:+ key)).2 = None.
Proof.
  unfold object_prototype_keys. intros Hkey. set_unfold.
  destruct_or!; subst; done.
Qed.

(** X19. [spec[key]] also finds what every object inherits: an option
    named like a property of [Object.prototype] is taken for an option
    with a value by every spec that does not list it, so that as the last
    argument it makes [parseFlags] fail, and before another argument it
    takes that argument away from the rest. *)
Theorem inherited_name_takes_value spec key :
  key ∈ object_prototype_keys →
  own_rule spec key = None →
  parseFlags ["--" +:+ key] spec = inl (new_Error ("--" +:+ key +:+ " requires a value"))
  ∧ ∀ next later flags rest,
      parseFlags (("--" +:+ key) :: next :: later) spec = inr (flags, rest) →
      rest `sublist_of` later.
Proof.
  intros Hkey Hown.
  destruct (prototype_option key Hkey) as (Hdashes & Hoption & Hvalue).
  assert (spec_lookup spec key = Some Inherited) as Hrule.
  { unfold spec_lookup. rewrite Hown. by rewrite bool_decide_eq_true_2. }
  unfold parseFlags. split.
  - by rewrite parseFlags_from_cons, Hdashes, Hoption, Hrule, Hvalue.
  - intros next later flags rest.
    rewrite parseFlags_from_cons, Hdashes, Hoption, Hrule, Hvalue. simpl.
    intros Hparse.
    destruct (parseFlags_from_ok spec (length later) later _ [] flags rest
                ltac:(done) Hparse) as [(kept & -> & Hsub & _) _].
    done.
Qed.

End Inherited.

(** ** Idle windows at the edges *)

Section Windows.
Import Cli.

Lemma round_overflow n : 2 ^ 1024 ≤ n → Num.round n = Num.Infinity.
Proof.
  intros Hn. unfold Num.round.
  assert (0 < n) as Hpos by (pose proof (Z.pow_pos_nonneg 2 1024); lia).
  destruct (Z.ltb_spec n (2 ^ 53)) as [Hsmall|_].
  { assert (2 ^ 53 < 2 ^ 1024) by (by apply Z.pow_lt_mono_r). lia. }
  pose proof (Z.log2_spec n Hpos) as [Hlow _].
  assert (1024 ≤ Z.log2 n) as Hlog by (by apply Z.log2_le_pow2).
  set (e := Z.log2 n - 52) in *.
  assert (2 ^ Z.log2 n = 2 ^ 52 * 2 ^ e) as Hsplit.
  { rewrite <- Z.pow_add_r by lia. f_equal. lia. }
  assert (0 < 2 ^ e) as He by (apply Z.pow_pos_nonneg; lia).
  assert (2 ^ 52 ≤ n / 2 ^ e) as Hq.
  { apply Z.div_le_lower_bound; lia. }
  assert (2 ^ 1024 ≤ 2 ^ Z.log2 n) as Hbig by (apply Z.pow_le_mono_r; lia).
  set (q := n / 2 ^ e) in *.
  assert (∀ q', q ≤ q' → (2 ^ 1024 <=? q' * 2 ^ e) = true) as Hover.
  { intros q' Hq'. apply Z.leb_le. nia. }
  cbv zeta. rewrite Hover; [done|]. destruct (_ || _); lia.
Qed.

Lemma mul_overflow k : Num.mul Num.Infinity k = Num.Infinity.
Proof. done. Qed.

Lemma wait_unbounded service fuel :
  returns (getQueueStats service) →
  ∀ idleStart s,
    (waitForIdle_from fuel service (Some Num.Infinity) idleStart s).1 = Pending.
Proof.
  intros Hstats. induction fuel as [|fuel IH]; intros idleStart s; [done|].
  simpl. destruct (Hstats s) as [stats Hs].
  assert (getQueueStats service s = (Normal stats, (getQueueStats service s).2))
    as Hrun by (rewrite <- Hs; by destruct (getQueueStats service s)).
  rewrite (run_bind _ _ _ _ _ Hrun).
  destruct (_ && _).
  - destruct (not_set idleStart); unfold bind, Date_now, get, ret, delay, modify;
      simpl; apply IH.
  - unfold bind, ret, delay, modify. simpl. apply IH.
Qed.

Lemma wait_no_window service obs :
  observes service obs →
  ∀ n extra s,
    (∀ i, (i < n)%nat → quiet (obs (poll_time (clock s) i)) = false) →
    quiet (obs (poll_time (clock s) n)) = true →
    waitForIdle_from (S n + extra) service None None s
    = (Normal tt, set_clock (λ _, poll_time (clock s) n) s).
Proof.
  intros Hobs. induction n as [|n IH]; intros extra s Hbusy Hquiet.
  - unfold poll_time in Hquiet. rewrite Z.mul_0_r, Z.add_0_r in Hquiet.
    rewrite (wait_step_done service obs Hobs); [|done|].
    + unfold poll_time. rewrite Z.mul_0_r, Z.add_0_r. by destruct s.
    + simpl. rewrite Z.sub_diag. done.
  - assert (quiet (obs (clock s)) = false) as Hfirst.
    { specialize (Hbusy 0%nat ltac:(lia)). unfold poll_time in Hbusy.
      by rewrite Z.mul_0_r, Z.add_0_r in Hbusy. }
    change (S (S n) + extra)%nat with (S (S n + extra)).
    rewrite (wait_step_busy service obs Hobs _ _ _ _ Hfirst).
    assert (∀ i, poll_time (clock (set_clock (λ t, t + 500) s)) i
                 = poll_time (clock s) (S i)) as Hshift.
    { intros i. unfold poll_time. simpl. lia. }
    rewrite IH.
    + rewrite Hshift. by destruct s.
    + intros i Hi. rewrite Hshift. apply Hbusy. lia.
    + by rewrite Hshift.
Qed.

(** X20. A duration too large for a finite double is accepted and becomes
    [Infinity], whatever its unit; the idle monitor started with this
    window never returns, however many polls it makes, as long as the
    snapshots of the queue are delivered. *)
Theorem unbounded_window_never_ends service text digits u :
  is_duration text digits u →
  2 ^ 1024 ≤ Num.decimal digits →
  returns (getQueueStats service) →
  parseDuration (VStr text) = inr (Some Num.Infinity)
  ∧ ∀ fuel s, (waitForIdle fuel service (Some Num.Infinity) s).1 = Pending.
Proof.
  intros Hduration Hbig Hstats. split.
  - rewrite (parseDuration_accepts _ _ _ Hduration).
    unfold Num.of_digits. rewrite (round_overflow _ Hbig). by destruct u.
  - intros fuel s. by apply wait_unbounded.
Qed.

(** X21. A blank value of [--idle-exit] is no window at all: it is kept
    in place of the default, [parseDuration] returns [null] for it, and
    the idle monitor returns at the first quiet poll without waiting for
    the queue to stay quiet. *)
Theorem blank_window_no_wait service obs flags text n extra s :
  flags !! "idle-exit" = Some (VStr text) →
  Js.truthy text = true →
  Js.trim text = "" →
  observes service obs →
  (∀ i, (i < n)%nat → quiet (obs (poll_time (clock s) i)) = false) →
  quiet (obs (poll_time (clock s) n)) = true →
  sync_idleExitMs flags = inr None
  ∧ waitForIdle (S n + extra) service None s
    = (Normal tt, set_clock (λ _, poll_time (clock s) n) s).
Proof.
  intros Hflag Htruthy Hblank Hobs Hbusy Hquiet. split.
  - unfold sync_idleExitMs, flag_or, flag_set. rewrite Hflag, Htruthy. simpl.
    unfold parseDuration. by rewrite Hblank.
  - by apply wait_no_window with obs.
Qed.

End Windows.

(** ** The error report *)

Section Reports.
Import Cli.

Lemma one_line_app (a b : string) : one_line (a +:+ b) = one_line a && one_line b.
Proof. apply every_app. Qed.

Lemma one_line_escape_char (c : ascii) : one_line (Js.json_escape_char c) = true.
Proof. destruct c as [[] [] [] [] [] [] [] []]; reflexivity. Qed.

Lemma one_line_escape (s : string) : one_line (Js.json_escape s) = true.
Proof.
  induction s as [|c s IH]; [done|]. simpl.
  by rewrite one_line_app, one_line_escape_char, IH.
Qed.

Lemma one_line_quote (s : string) : one_line (Js.json_quote s) = true.
Proof.
  unfold Js.json_quote. by rewrite !one_line_app, one_line_escape.
Qed.

(** X22. With [--json] the report of an error is one line whatever the
    message contains: the object with [ok] false and the message as
    [error], in which line breaks and the other control characters of the
    message are escaped, followed by a line feed; the message is read
    back from it unchanged. *)
Theorem json_error_report_one_line (message : string) :
  ∃ line,
    error_report message true = line +:+ newline
    ∧ one_line line = true
    ∧ line = "{" +:+ Js.json_quote "ok" +:+ ":false," +:+
             Js.json_quote "error" +:+ ":" +:+ Js.json_quote message +:+ "}"
    ∧ json_unescape (Js.json_escape message +:+ Js.dq +:+ "}") = message.
Proof.
  exists ("{" +:+ Js.json_quote "ok" +:+ ":false," +:+
          Js.json_quote "error" +:+ ":" +:+ Js.json_quote message +:+ "}").
  split; [|split; [|split]].
  - unfold error_report. f_equal. cbn [Js.stringify].
    by rewrite !string_app_assoc.
  - by rewrite !one_line_app, !one_line_quote.
  - reflexivity.
  - apply json_unescape_escape.
Qed.

End Reports.

(** ** Sample runs of the further properties *)

Section FurtherRuns.
Import Cli StoreLock.
Existing Instance Posix.platform.

Lemma double_aside {A} storeDir (a : A) : aside storeDir anything (ret a).
Proof. apply (aside_ret_any (H := Posix.platform)). Qed.

Lemma double_bystander_client storeDir authorized :
  bystander_client storeDir (Double.client authorized).
Proof. unfold bystander_client. repeat apply conj; apply double_aside. Qed.

Lemma double_bystander_service storeDir quiet_at :
  bystander_service storeDir (Double.service quiet_at).
Proof.
  unfold bystander_service. repeat apply conj; try apply double_aside.
  by intros s.
Qed.


Lemma double_new_client_aside storeDir authorized sessionPath :
  aside storeDir (bystander_client storeDir) (Double.new_client authorized sessionPath).
Proof.
  apply (aside_ret (H := Posix.platform)), double_bystander_client.
Qed.

Lemma double_new_service_aside storeDir quiet_at client options :
  aside storeDir (bystander_service storeDir)
    (Double.new_service quiet_at client options).
Proof.
  apply (aside_ret (H := Posix.platform)), double_bystander_service.
Qed.


Lemma double_new_client_constructs authorized sessionPath :
  constructs destroyable (Double.new_client authorized sessionPath).
Proof.
  split; [by eexists|]. intros s c s' [= <- _] s0. by eexists.
Qed.

Lemma double_new_service_constructs quiet_at client options :
  constructs stoppable (Double.new_service quiet_at client options).
Proof.
  split; [by eexists|]. intros s v s' [= <- _] s0. by eexists.
Qed.

(** X2 on [--json --store]. *)
Lemma parseGlobalFlags_only_error_witness :
  new_Error "--store requires a value" = new_Error "--store requires a value"
  ∧ ∃ consumed after,
      ["--json"; "--store"] = consumed ++ "--store" :: after
      ∧ global_options consumed = true
      ∧ (after = [] ∨ head after = Some "").
Proof.
  apply (parseGlobalFlags_only_error ["--json"; "--store"]).
  reflexivity.
Defined.

(** X3 on [node cli.js --json sync]. *)
Lemma json_flag_from_argv_witness :
  (json (MkGlobal None true false) = true →
   bool_decide ("--json" ∈ argv (Sample.proc ["--json"; "sync"])) = true)
  ∧ (help (MkGlobal None true false) = true →
     "--help" ∈ argv (Sample.proc ["--json"; "sync"])
     ∨ "-h" ∈ argv (Sample.proc ["--json"; "sync"])).
Proof.
  apply (json_flag_from_argv (Sample.proc ["--json"; "sync"]) _ ["sync"]).
  reflexivity.
Defined.

(** X4 on [--once later --idle-exit 5s --verbose]. *)
Lemma parseFlags_rest_in_order_witness :
  ["later"; "--verbose"] `sublist_of` ["--once"; "later"; "--idle-exit"; "5s"; "--verbose"]
  ∧ Forall (λ a, positional sync_spec a = true) ["later"; "--verbose"].
Proof.
  apply (parseFlags_rest_in_order sync_spec
           ["--once"; "later"; "--idle-exit"; "5s"; "--verbose"]
           (<["idle-exit" := VStr "5s"]> {["once" := VBool true]})).
  vm_compute. reflexivity.
Defined.

(** X5 on [--once=false --idle-exit 5s]. *)
Lemma parseFlags_well_typed_witness :
  parseFlags ["--once=false"; "--idle-exit"; "5s"] sync_spec
  = inr (<["idle-exit" := VStr "5s"]> {["once" := VBool true]}, [])
  ∧ well_typed sync_spec (<["idle-exit" := VStr "5s"]> {["once" := VBool true]}).
Proof.
  split; [vm_compute; reflexivity|].
  apply (parseFlags_well_typed sync_spec ["--once=false"; "--idle-exit"; "5s"] _ []).
  vm_compute. reflexivity.
Defined.

(** X6 on [--once --idle-exit]. *)
Lemma parseFlags_only_error_witness :
  ∃ arg rule,
    last ["--once"; "--idle-exit"] = Some arg
    ∧ Js.startsWith "--" arg = true
    ∧ spec_lookup sync_spec (option_key arg) = Some rule
    ∧ is_boolean rule = false
    ∧ new_Error "--idle-exit requires a value"
      = new_Error (arg +:+ " requires a value").
Proof.
  apply (parseFlags_only_error sync_spec ["--once"; "--idle-exit"]).
  vm_compute. reflexivity.
Defined.


(** X8 on [sync] with a session: the handler, run when the command has
    returned, removes the marker. *)
Lemma follow_handler_releases_witness :
  ∃ s'',
    (shutdown (Double.service 0) >> destroy (Double.client true) >>
     call_release (MkRelease "/store/LOCK" 0))
      (runSync (Double.new_client true) (Double.new_service 0)
         (Sample.proc ["--store"; "/store"; "sync"]) 8
         (MkGlobal (Some "/store") false false) [] Sample.fresh).2
    = (Normal tt, s'')
    ∧ marker "/store" s'' = None.
Proof.
  exact (follow_handler_releases (Double.new_client true) (Double.new_service 0)
           (Sample.proc ["--store"; "/store"; "sync"])
           (MkGlobal (Some "/store") false false)
           (double_new_client_aside "/store" true)
           (double_new_service_aside "/store" 0)
           8 [] ∅ [] Sample.fresh _ _
           (λ path, proj2 (double_new_client_constructs true path))
           (λ c o, proj2 (double_new_service_constructs 0 c o))
           eq_refl eq_refl eq_refl eq_refl
           (runSync (Double.new_client true) (Double.new_service 0)
              (Sample.proc ["--store"; "/store"; "sync"]) 8
              (MkGlobal (Some "/store") false false) [] Sample.fresh).2
           eq_refl).
Defined.

(** X9 on [sync --once --idle-exit 1s] with a quiet queue. *)
Lemma sync_once_releases_witness :
  marker "/store"
    (runSync (Double.new_client true) (Double.new_service 0)
       (Sample.proc ["--store"; "/store"; "sync"; "--once"; "--idle-exit"; "1s"]) 8
       (MkGlobal (Some "/store") false false) ["--once"; "--idle-exit"; "1s"]
       Sample.fresh).2
  = None.
Proof.
  apply (sync_once_releases (Double.new_client true) (Double.new_service 0)
           (Sample.proc ["--store"; "/store"; "sync"; "--once"; "--idle-exit"; "1s"])
           (MkGlobal (Some "/store") false false)
           (double_new_client_aside "/store" true)
           (double_new_service_aside "/store" 0)
           8 ["--once"; "--idle-exit"; "1s"]
           (<["idle-exit" := VStr "1s"]> {["once" := VBool true]}) []
           (Some (Num.Fin 1000)) Sample.fresh
           (double_new_client_constructs true)
           (double_new_service_constructs 0)).
  - vm_compute. reflexivity.
  - vm_compute. reflexivity.
  - vm_compute. reflexivity.
  - reflexivity.
  - vm_compute. reflexivity.
Defined.



(** X12 on [auth status] in a locked store. *)
Lemma auth_status_leaves_lock_witness :
  lock_view "/store"
    (runAuth (Double.new_client true) (Double.new_service 0)
       (Sample.proc ["--store"; "/store"; "auth"; "status"])
       (MkGlobal (Some "/store") false false) ["status"] Sample.locked).2
  = lock_view "/store" Sample.locked.
Proof.
  apply (auth_status_leaves_lock (Double.new_client true) (Double.new_service 0)
           (Sample.proc ["--store"; "/store"; "auth"; "status"])
           (MkGlobal (Some "/store") false false)
           (double_new_client_aside "/store" true)
           (double_new_service_aside "/store" 0)
           ["status"] ∅ ["status"] Sample.locked).
  - vm_compute. reflexivity.
  - reflexivity.
Defined.

(** X13 on [auth logout --follow]. *)
Lemma auth_releases_witness :
  marker "/store"
    (runAuth (Double.new_client true) (Double.new_service 0)
       (Sample.proc ["--store"; "/store"; "auth"; "logout"; "--follow"])
       (MkGlobal (Some "/store") false false) ["logout"; "--follow"]
       Sample.fresh).2
  = None.
Proof.
  apply (auth_releases (Double.new_client true) (Double.new_service 0)
           (Sample.proc ["--store"; "/store"; "auth"; "logout"; "--follow"])
           (MkGlobal (Some "/store") false false)
           (double_new_client_aside "/store" true)
           (double_new_service_aside "/store" 0)
           ["logout"; "--follow"] {["follow" := VBool true]} ["logout"]
           Sample.fresh
           (double_new_client_constructs true)
           (double_new_service_constructs 0)).
  - vm_compute. reflexivity.
  - discriminate.
  - by left.
  - reflexivity.
  - vm_compute. reflexivity.
Defined.


(** X15 on [node cli.js --json status], where [status] is no command. *)
Lemma main_prints_usage_witness :
  main (Double.new_client true) (Double.new_service 0)
    (Sample.proc ["--json"; "status"]) 8 Sample.locked
  = (Normal (Exit 0),
     set_stdout (λ out, out ++ [OutLine usage_text]) Sample.locked).
Proof.
  apply (main_prints_usage (Double.new_client true) (Double.new_service 0)
           (Sample.proc ["--json"; "status"]) 8
           (MkGlobal None true false) ["status"] Sample.locked).
  - reflexivity.
  - right. simpl. rewrite !elem_of_cons, elem_of_nil.
    intros [?|[?|[?|[]]]]; discriminate.
Defined.

(** X17 on [node cli.js --json --store]. *)
Lemma main_rejects_store_without_value_witness :
  main (Double.new_client true) (Double.new_service 0)
    (Sample.proc ["--json"; "--store"]) 8 Sample.fresh
  = (Normal (Exit 1),
     set_stderr (λ text, text +:+ error_report "--store requires a value"
                                   (bool_decide
                                      ("--json" ∈ argv (Sample.proc ["--json"; "--store"]))))
       Sample.fresh).
Proof.
  apply (main_rejects_store_without_value
           (Double.new_client true) (Double.new_service 0)
           (Sample.proc ["--json"; "--store"]) 8
           (new_Error "--store requires a value") Sample.fresh).
  reflexivity.
Defined.


(** X19 on [doctor --toString]. *)
Lemma inherited_name_takes_value_witness :
  parseFlags ["--" +:+ "toString"] [("connect", "boolean")]
  = inl (new_Error ("--" +:+ "toString" +:+ " requires a value"))
  ∧ ∀ next later flags rest,
      parseFlags (("--" +:+ "toString") :: next :: later) [("connect", "boolean")]
      = inr (flags, rest) →
      rest `sublist_of` later.
Proof.
  apply (inherited_name_takes_value [("connect", "boolean")] "toString").
  - unfold object_prototype_keys. set_solver.
  - reflexivity.
Defined.

(** X20 on [--idle-exit] with the numeral of 10^400 and the unit [h]. *)
Lemma unbounded_window_never_ends_witness :
  parseDuration (VStr (huge +:+ "h")) = inr (Some Num.Infinity)
  ∧ ∀ fuel s,
      (waitForIdle fuel (Double.service 0) (Some Num.Infinity) s).1 = Pending.
Proof.
  apply (unbounded_window_never_ends (Double.service 0) (huge +:+ "h") huge Hours).
  - exists "", "h", "". repeat split; vm_compute; congruence.
  - vm_compute. discriminate.
  - intros s. by eexists.
Defined.

(** X21 on [sync --once --idle-exit ' '] with a queue that settles 700 ms
    after the start: the monitor returns at the second poll. *)
Lemma blank_window_no_wait_witness :
  sync_idleExitMs (<["idle-exit" := VStr " "]> {["once" := VBool true]}) = inr None
  ∧ waitForIdle (S 2 + 5) (Double.service (Sample.t0 + 700)) None Sample.fresh
    = (Normal tt, set_clock (λ _, poll_time (clock Sample.fresh) 2) Sample.fresh).
Proof.
  apply (blank_window_no_wait (Double.service (Sample.t0 + 700))
           (Double.stats_at (Sample.t0 + 700))
           (<["idle-exit" := VStr " "]> {["once" := VBool true]}) " " 2 5
           Sample.fresh).
  - vm_compute. reflexivity.
  - reflexivity.
  - reflexivity.
  - intros s. reflexivity.
  - intros i Hi. destruct i as [|[|i]]; [reflexivity..|lia].
  - reflexivity.
Defined.

End FurtherRuns.

(** ** The session in the doctor's report *)

Section DoctorSession.
Context `{Platform}.
Import Cli StoreLock.
Variable new_TelegramClient : string → M telegram_client.
Variable new_MessageSyncService : telegram_client → sync_options → M sync_service.
Variable proc : process.
Variable globalFlags : global_flags.
Local Abbreviation storeDir := (resolveStoreDir proc (store globalFlags)).
Hypothesis client_frame :
  ∀ sessionPath, inspects storeDir (λ c _, client_keeps storeDir c)
                   (new_TelegramClient sessionPath).
Hypothesis service_frame :
  ∀ client options, inspects storeDir (λ v _, service_keeps storeDir v)
                      (new_MessageSyncService client options).


End DoctorSession.

Section DoctorRuns.
Import Cli StoreLock.
Existing Instance Posix.platform.




End DoctorRuns.
